(** * theorygen: pitch classes, keyboard layout, voices and presets

    A shallow embedding of the TypeScript sources of the theorygen
    application:

    - the [Piano] component      (the plain two-octave keyboard),
    - the [PianoToken] component (the token-gated keyboard with the
      oscillator synthesizer),
    - [App.tsx]                  (the preset list).

    JavaScript strings are modelled as Rocq strings (sequences of 8-bit
    characters; [toUpperCase] acts on the ASCII letters), [Record<string,
    number>] and [Map<number, _>] as [gmap], [Set<number>] as [gset],
    integral JavaScript numbers as [Z], and the time and gain values of the
    Web Audio calls as exact rationals [Q]. *)

From Stdlib Require Import ZArith QArith Lqa String Ascii List Sorted DecimalString.
From stdpp Require Import gmap strings list fin_maps.
Import ListNotations.

Local Open Scope string_scope.
Local Open Scope list_scope.
Local Open Scope Z_scope.

(* ===================================================================== *)
(** ** Pitch-class resolver ([NOTE_TO_OFFSET], [noteToOffset])           *)
(* ===================================================================== *)

Module Resolver.

(** [const NOTE_TO_OFFSET: Record<string, number> = { 'C': 0, 'B#': 0, ... }].
    The object literal is the same in [Piano.tsx] and [PianoToken.tsx]. *)
Definition NOTE_TO_OFFSET_entries : list (string * Z) :=
  [ ("C", 0); ("B#", 0);
    ("C#", 1); ("DB", 1);
    ("D", 2);
    ("D#", 3); ("EB", 3);
    ("E", 4); ("FB", 4);
    ("F", 5); ("E#", 5);
    ("F#", 6); ("GB", 6);
    ("G", 7);
    ("G#", 8); ("AB", 8);
    ("A", 9);
    ("A#", 10); ("BB", 10);
    ("B", 11); ("CB", 11) ].

Definition NOTE_TO_OFFSET : gmap string Z :=
  list_to_map NOTE_TO_OFFSET_entries.

(** [String.prototype.toUpperCase] on one character: the letters a-z go to
    A-Z, every other character is kept. *)
Definition upper_ascii (c : ascii) : ascii :=
  let n := nat_of_ascii c in
  if (97 <=? n)%nat && (n <=? 122)%nat then ascii_of_nat (n - 32) else c.

Fixpoint toUpperCase (s : string) : string :=
  match s with
  | EmptyString => EmptyString
  | String c s' => String (upper_ascii c) (toUpperCase s')
  end.

(** The character class [[0-9]]. *)
Definition is_digit (c : ascii) : bool :=
  let n := nat_of_ascii c in (48 <=? n)%nat && (n <=? 57)%nat.

(** [s.replace(/[0-9]/g, '')]: every digit is removed. *)
Fixpoint strip_digits (s : string) : string :=
  match s with
  | EmptyString => EmptyString
  | String c s' =>
      if is_digit c then strip_digits s' else String c (strip_digits s')
  end.

(** [const n = note.toUpperCase().replace(/[0-9]/g, '')]. *)
Definition normalize (note : string) : string :=
  strip_digits (toUpperCase note).

(** [return NOTE_TO_OFFSET[n] ?? -1]. After [toUpperCase] the key holds no
    lower-case letter, so it names no inherited property of the object and
    the lookup is a lookup in the literal. *)
Definition noteToOffset (note : string) : Z :=
  default (-1) (NOTE_TO_OFFSET !! normalize note).

End Resolver.

(* ===================================================================== *)
(** ** Rendered SVG elements                                             *)
(* ===================================================================== *)

(** The attributes of a [<rect>] that the components set. [onPress] is the
    MIDI note bound in the pointer and touch handlers of [PianoToken]
    ([None] in [Piano], whose keys have no handlers). *)
Record RectProps := mkRect {
  key : string;
  x : Z;
  y : Z;
  width : Z;
  height : Z;
  fill : string;
  stroke : string;
  rx : Z;
  ry : Z;
  onPress : option Z
}.

(** The attributes of a [<text>] label and its content. *)
Record TextProps := mkText {
  tkey : string;
  tx : Z;
  ty : Z;
  children : string
}.

Inductive Element :=
| rect (p : RectProps)
| text (p : TextProps).

(** Number-to-string conversion of a template literal, for integers. *)
Definition toString (n : Z) : string := NilZero.string_of_int (Z.to_int n).

(** [array.forEach((a, i) => ...)] with the effect of the callback on the
    state [S] written as a state transformer. *)
Fixpoint forEach_from {A S : Type} (i : Z) (l : list A)
    (f : A -> Z -> S -> S) (s : S) : S :=
  match l with
  | [] => s
  | a :: l' => forEach_from (i + 1) l' f (f a i s)
  end.

Definition forEach {A S : Type} (l : list A) (f : A -> Z -> S -> S) : S -> S :=
  forEach_from 0 l f.

(** [for (let oct = 0; oct < n; oct++) body]. *)
Definition for_oct {S : Type} (n : Z) (body : Z -> S -> S) (s : S) : S :=
  fold_left (fun acc oct => body oct acc) (seqZ 0 n) s.

(** [generatedKeys.push(e)]. *)
Definition push (e : Element) (generatedKeys : list Element) : list Element :=
  generatedKeys ++ [e].

Definition whiteKeyWidth : Z := 40.
Definition whiteKeyHeight : Z := 160.
Definition blackKeyWidth : Z := 24.
Definition blackKeyHeight : Z := 100.

Definition whiteNotes : list Z := [0; 2; 4; 5; 7; 9; 11].

(** [{ idx, pos }] records of [blackNotes]. *)
Definition blackNotes : list (Z * Z) :=
  [(1, 1); (3, 2); (6, 4); (8, 5); (10, 6)].

(** [activeNotes.forEach(n => { const offset = noteToOffset(n);
    if (offset !== -1) s.add(offset); })] on a fresh [Set]. *)
Definition activeIndices (activeNotes : list string) : gset Z :=
  forEach activeNotes
    (fun n _ (s : gset Z) =>
       let offset := Resolver.noteToOffset n in
       if negb (offset =? -1) then s ∪ {[offset]} else s)
    ∅.

(** A string is falsy exactly when it is empty; [undefined] is falsy. *)
Definition truthy (o : option string) : bool :=
  match o with
  | Some (String _ _) => true
  | _ => false
  end.

(** [rootNote ? noteToOffset(rootNote) : -1]. *)
Definition rootIndex (rootNote : option string) : Z :=
  match rootNote with
  | Some r => if truthy rootNote then Resolver.noteToOffset r else -1
  | None => -1
  end.

(* ===================================================================== *)
(** ** [Piano]: the plain keyboard                                       *)
(* ===================================================================== *)

Module Piano.

Definition OCTAVES : Z := 2.
Definition START_OCTAVE : Z := 3.

Section Keys.
Variable activeIndices : gset Z.
Variable rootIndex : Z.

Definition whiteFill (noteIndex : Z) : string :=
  let isActive := bool_decide (noteIndex ∈ activeIndices) in
  let isRoot := rootIndex =? noteIndex in
  if isRoot then "#8b5cf6"
  else if isActive then "#60a5fa"
  else "white".

Definition blackFill (idx : Z) : string :=
  let isActive := bool_decide (idx ∈ activeIndices) in
  let isRoot := rootIndex =? idx in
  if isRoot then "#7c3aed"
  else if isActive then "#3b82f6"
  else "#1e293b".

(** The body of [whiteNotes.forEach((noteIndex, i) => ...)]. *)
Definition whiteBody (oct xOffset noteIndex i : Z)
    (generatedKeys : list Element) : list Element :=
  let g1 :=
    push (rect {| key := "white-" +:+ toString oct +:+ "-" +:+ toString noteIndex;
                  x := xOffset + i * whiteKeyWidth;
                  y := 0;
                  width := whiteKeyWidth;
                  height := whiteKeyHeight;
                  fill := whiteFill noteIndex;
                  stroke := "#cbd5e1";
                  rx := 4; ry := 4;
                  onPress := None |}) generatedKeys in
  if noteIndex =? 0 then
    push (text {| tkey := "label-" +:+ toString oct;
                  tx := xOffset + i * whiteKeyWidth + whiteKeyWidth / 2;
                  ty := whiteKeyHeight - 10;
                  children := "C" +:+ toString (START_OCTAVE + oct) |}) g1
  else g1.

(** The body of [blackNotes.forEach(({ idx, pos }) => ...)]. *)
Definition blackBody (oct xOffset : Z) (n : Z * Z)
    (generatedKeys : list Element) : list Element :=
  let '(idx, pos) := n in
  let xPos := xOffset + (pos * whiteKeyWidth) - (blackKeyWidth / 2) in
  push (rect {| key := "black-" +:+ toString oct +:+ "-" +:+ toString idx;
                x := xPos;
                y := 0;
                width := blackKeyWidth;
                height := blackKeyHeight;
                fill := blackFill idx;
                stroke := "#0f172a";
                rx := 2; ry := 2;
                onPress := None |}) generatedKeys.

Definition octaveBody (oct : Z) (generatedKeys : list Element)
    : list Element :=
  let xOffset := oct * (whiteKeyWidth * 7) in
  let g1 := forEach whiteNotes (whiteBody oct xOffset) generatedKeys in
  forEach blackNotes (fun n _ => blackBody oct xOffset n) g1.

Definition keys : list Element := for_oct OCTAVES octaveBody [].

Definition totalWidth : Z := 7 * whiteKeyWidth * OCTAVES.
End Keys.

End Piano.

(* ===================================================================== *)
(** ** [PianoToken]: the gated keyboard with the synthesizer             *)
(* ===================================================================== *)

Module PianoToken.

Definition START_OCTAVE : Z := 3.
Definition DEFAULT_OCTAVES : Z := 2.
Definition MAX_OCTAVES : Z := 4.

(** [const octaves = hasAccess ? MAX_OCTAVES : DEFAULT_OCTAVES]. *)
Definition octaves_of (hasAccess : bool) : Z :=
  if hasAccess then MAX_OCTAVES else DEFAULT_OCTAVES.

(** [const totalWidth = 7 * whiteKeyWidth * octaves]. *)
Definition totalWidth (octaves : Z) : Z := 7 * whiteKeyWidth * octaves.

(** *** Rendering ([keys]) *)

Section Keys.
Variable octaves : Z.
Variable octaveShift : Z.
Variable activeIndices : gset Z.
Variable rootIndex : Z.
Variable playingNotes : gset Z.

Definition whiteFill (noteIndex midiNote : Z) : string :=
  let isExternalActive := bool_decide (noteIndex ∈ activeIndices) in
  let isRoot := rootIndex =? noteIndex in
  let isPressed := bool_decide (midiNote ∈ playingNotes) in
  if isPressed then "#22d3ee"
  else if isRoot then "#8b5cf6"
  else if isExternalActive then "#60a5fa"
  else "white".

Definition blackFill (idx midiNote : Z) : string :=
  let isExternalActive := bool_decide (idx ∈ activeIndices) in
  let isRoot := rootIndex =? idx in
  let isPressed := bool_decide (midiNote ∈ playingNotes) in
  if isPressed then "#22d3ee"
  else if isRoot then "#8b5cf6"
  else if isExternalActive then "#60a5fa"
  else "#1e293b".

(** The body of [whiteNotes.forEach((noteIndex, i) => ...)]. *)
Definition whiteBody (xOffset currentOctaveNumber noteIndex i : Z)
    (generatedKeys : list Element) : list Element :=
  let midiNote := (currentOctaveNumber + 1) * 12 + noteIndex in
  let g1 :=
    push (rect {| key := "white-" +:+ toString midiNote;
                  x := xOffset + i * whiteKeyWidth;
                  y := 0;
                  width := whiteKeyWidth;
                  height := whiteKeyHeight;
                  fill := whiteFill noteIndex midiNote;
                  stroke := "#cbd5e1";
                  rx := 4; ry := 4;
                  onPress := Some midiNote |}) generatedKeys in
  if noteIndex =? 0 then
    push (text {| tkey := "label-" +:+ toString midiNote;
                  tx := xOffset + i * whiteKeyWidth + whiteKeyWidth / 2;
                  ty := whiteKeyHeight - 10;
                  children := "C" +:+ toString currentOctaveNumber |}) g1
  else g1.

(** The body of [blackNotes.forEach(({ idx, pos }) => ...)]. *)
Definition blackBody (xOffset currentOctaveNumber : Z) (n : Z * Z)
    (generatedKeys : list Element) : list Element :=
  let '(idx, pos) := n in
  let midiNote := (currentOctaveNumber + 1) * 12 + idx in
  let xPos := xOffset + (pos * whiteKeyWidth) - (blackKeyWidth / 2) in
  push (rect {| key := "black-" +:+ toString midiNote;
                x := xPos;
                y := 0;
                width := blackKeyWidth;
                height := blackKeyHeight;
                fill := blackFill idx midiNote;
                stroke := "#0f172a";
                rx := 2; ry := 2;
                onPress := Some midiNote |}) generatedKeys.

Definition octaveBody (oct : Z) (generatedKeys : list Element)
    : list Element :=
  let xOffset := oct * (whiteKeyWidth * 7) in
  let currentOctaveNumber := START_OCTAVE + oct + octaveShift in
  let g1 :=
    forEach whiteNotes (whiteBody xOffset currentOctaveNumber)
      generatedKeys in
  forEach blackNotes (fun n _ => blackBody xOffset currentOctaveNumber n) g1.

Definition keys : list Element := for_oct octaves octaveBody [].
End Keys.

(** *** Octave shifter *)

(** [setOctaveShift(s => Math.max(s - 1, -2))], on a button that is
    [disabled={octaveShift <= -2}]. *)
Definition shiftDown (s : Z) : Z := Z.max (s - 1) (-2).
Definition downDisabled (octaveShift : Z) : bool := octaveShift <=? -2.

(** [setOctaveShift(s => Math.max(s + 1, 2))], on a button that is
    [disabled={octaveShift >= 2}]. *)
Definition shiftUp (s : Z) : Z := Z.max (s + 1) 2.
Definition upDisabled (octaveShift : Z) : bool := octaveShift >=? 2.

Inductive ShiftClick := ClickDown | ClickUp.

(** A click on a disabled button fires no handler. *)
Definition click (c : ShiftClick) (octaveShift : Z) : Z :=
  match c with
  | ClickDown => if downDisabled octaveShift then octaveShift
                 else shiftDown octaveShift
  | ClickUp => if upDisabled octaveShift then octaveShift
               else shiftUp octaveShift
  end.

(** [useState(0)] followed by a sequence of clicks. *)
Definition clicks (cs : list ShiftClick) : Z :=
  fold_left (fun s c => click c s) cs 0.

(** *** Synthesizer ([initAudio], [playNoteStart], [playNoteStop])

    Web Audio nodes are objects that the two [Map]s refer to; they are kept
    in two stores and a [Map] entry holds the index of its node. Each node
    records the calls the component makes on it, in call order. Times are
    in seconds. *)

Inductive OscillatorType := sine | square | sawtooth | triangle.

Inductive AudioContextState := suspended | running.

(** Calls on the [AudioParam] [gain.gain]. *)
Inductive ParamCall :=
| setValueAtTime (value startTime : Q)
| linearRampToValueAtTime (value endTime : Q)
| exponentialRampToValueAtTime (value endTime : Q)
| cancelScheduledValues (cancelTime : Q).

Record GainNode := mkGain {
  gain : list ParamCall;
  toDestination : bool          (* [gain.connect(ctx.destination)] *)
}.

Record OscillatorNode := mkOsc {
  frequency : Q;                (* [osc.frequency.value] *)
  type : OscillatorType;        (* [osc.type] *)
  output : option nat;          (* [osc.connect(gain)] *)
  start : list Q;               (* [osc.start(when)] calls *)
  stop : list Q                 (* [osc.stop(when)] calls *)
}.

(** The mutable state of one mounted component together with what it sees
    of the browser: the clock (read as [ctx.currentTime] and driving the
    [setTimeout] callbacks), whether [window.AudioContext] exists, and the
    state a new context starts in. [timeouts] are the pending callbacks
    [() => { oscillatorsRef.current.delete(m); gainNodesRef.current.delete(m) }],
    each with the time it is due. *)
Record State := mkState {
  currentTime : Q;
  hasAudioContext : bool;
  newContextState : AudioContextState;
  audioContextRef : option AudioContextState;
  oscillatorNodes : list OscillatorNode;
  gainNodes : list GainNode;
  oscillatorsRef : gmap Z nat;
  gainNodesRef : gmap Z nat;
  playingNotes : gset Z;
  timeouts : list (Q * Z)
}.

Definition initial (now : Q) (hasCtx : bool) (fresh : AudioContextState)
    : State :=
  {| currentTime := now; hasAudioContext := hasCtx;
     newContextState := fresh; audioContextRef := None;
     oscillatorNodes := []; gainNodes := [];
     oscillatorsRef := ∅; gainNodesRef := ∅;
     playingNotes := ∅; timeouts := [] |}.

Definition set_audioContextRef (c : option AudioContextState) (st : State)
    : State :=
  {| currentTime := currentTime st; hasAudioContext := hasAudioContext st;
     newContextState := newContextState st; audioContextRef := c;
     oscillatorNodes := oscillatorNodes st; gainNodes := gainNodes st;
     oscillatorsRef := oscillatorsRef st; gainNodesRef := gainNodesRef st;
     playingNotes := playingNotes st; timeouts := timeouts st |}.

Definition set_playingNotes (p : gset Z) (st : State) : State :=
  {| currentTime := currentTime st; hasAudioContext := hasAudioContext st;
     newContextState := newContextState st;
     audioContextRef := audioContextRef st;
     oscillatorNodes := oscillatorNodes st; gainNodes := gainNodes st;
     oscillatorsRef := oscillatorsRef st; gainNodesRef := gainNodesRef st;
     playingNotes := p; timeouts := timeouts st |}.

(** [initAudio]: create the context on first use, resume it if suspended. *)
Definition initAudio (st : State) : State :=
  let st1 :=
    match audioContextRef st with
    | None =>
        if hasAudioContext st
        then set_audioContextRef (Some (newContextState st)) st
        else st
    | Some _ => st
    end in
  match audioContextRef st1 with
  | Some suspended => set_audioContextRef (Some running) st1
  | _ => st1
  end.

(** [releaseTime * 1000 + 50] milliseconds, in seconds. *)
Definition cleanupDelay (releaseTime : Q) : Q :=
  ((releaseTime * 1000 + 50) / 1000)%Q.

Section Synth.
(** [Math.pow]. *)
Variable Math_pow : Q -> Q -> Q.
(** The value the audio engine reports for [gain.gain.value] at a given
    time, for a parameter that has received the given calls. *)
Variable paramValue : list ParamCall -> Q -> Q.

Definition playNoteStart (waveform : OscillatorType) (midiNote : Z)
    (st0 : State) : State :=
  let st := initAudio st0 in
  match audioContextRef st with
  | None => st
  | Some _ =>
      if bool_decide (is_Some (oscillatorsRef st !! midiNote)) then st
      else
        let osc := length (oscillatorNodes st) in
        let gn := length (gainNodes st) in
        let freq := (440 * Math_pow 2 ((inject_Z midiNote - 69) / 12))%Q in
        let now := currentTime st in
        {| currentTime := currentTime st;
           hasAudioContext := hasAudioContext st;
           newContextState := newContextState st;
           audioContextRef := audioContextRef st;
           oscillatorNodes :=
             oscillatorNodes st ++
               [ {| frequency := freq; type := waveform;
                    output := Some gn; start := [now]; stop := [] |} ];
           gainNodes :=
             gainNodes st ++
               [ {| gain := [ setValueAtTime 0 now;
                              linearRampToValueAtTime 0.3 (now + 0.05)%Q ];
                    toDestination := true |} ];
           oscillatorsRef := <[midiNote := osc]> (oscillatorsRef st);
           gainNodesRef := <[midiNote := gn]> (gainNodesRef st);
           playingNotes := playingNotes st ∪ {[midiNote]};
           timeouts := timeouts st |}
  end.

(** [const releaseTime = sustain ? 1.5 : 0.2]. *)
Definition releaseTime (sustain : bool) : Q :=
  if sustain then 1.5%Q else 0.2%Q.

(** The release calls on the gain parameter. *)
Definition release (now rt : Q) (g : GainNode) : GainNode :=
  let c1 := gain g ++ [cancelScheduledValues now] in
  let c2 := c1 ++ [setValueAtTime (paramValue c1 now) now] in
  {| gain := c2 ++ [exponentialRampToValueAtTime 0.001 (now + rt)%Q];
     toDestination := toDestination g |}.

Definition stopAt (when : Q) (o : OscillatorNode) : OscillatorNode :=
  {| frequency := frequency o; type := type o; output := output o;
     start := start o; stop := stop o ++ [when] |}.

Definition playNoteStop (sustain : bool) (midiNote : Z) (st : State)
    : State :=
  let ctx := audioContextRef st in
  let osc := oscillatorsRef st !! midiNote in
  let gn := gainNodesRef st !! midiNote in
  let rt := releaseTime sustain in
  let st1 :=
    match ctx, osc, gn with
    | Some _, Some o, Some g =>
        let now := currentTime st in
        {| currentTime := currentTime st;
           hasAudioContext := hasAudioContext st;
           newContextState := newContextState st;
           audioContextRef := audioContextRef st;
           oscillatorNodes :=
             alter (stopAt (now + rt)%Q) o (oscillatorNodes st);
           gainNodes := alter (release now rt) g (gainNodes st);
           oscillatorsRef := oscillatorsRef st;
           gainNodesRef := gainNodesRef st;
           playingNotes := playingNotes st;
           timeouts := timeouts st ++ [((now + cleanupDelay rt)%Q, midiNote)] |}
    | _, _, _ => st
    end in
  set_playingNotes (playingNotes st1 ∖ {[midiNote]}) st1.
End Synth.

(** The [setTimeout] callback of [playNoteStop]. *)
Definition cleanup (midiNote : Z) (st : State) : State :=
  {| currentTime := currentTime st; hasAudioContext := hasAudioContext st;
     newContextState := newContextState st;
     audioContextRef := audioContextRef st;
     oscillatorNodes := oscillatorNodes st; gainNodes := gainNodes st;
     oscillatorsRef := delete midiNote (oscillatorsRef st);
     gainNodesRef := delete midiNote (gainNodesRef st);
     playingNotes := playingNotes st; timeouts := timeouts st |}.

Definition isDue (t : Q) (tm : Q * Z) : bool := Qle_bool (fst tm) t.

(** The clock moves to [t] (never backwards) and the event loop runs the
    callbacks that are due by then. *)
Definition advanceTo (t : Q) (st : State) : State :=
  let t' := if Qle_bool (currentTime st) t then t else currentTime st in
  let fired := List.filter (isDue t') (timeouts st) in
  let st1 := fold_left (fun s tm => cleanup (snd tm) s) fired st in
  {| currentTime := t'; hasAudioContext := hasAudioContext st1;
     newContextState := newContextState st1;
     audioContextRef := audioContextRef st1;
     oscillatorNodes := oscillatorNodes st1; gainNodes := gainNodes st1;
     oscillatorsRef := oscillatorsRef st1;
     gainNodesRef := gainNodesRef st1;
     playingNotes := playingNotes st1;
     timeouts := List.filter (fun tm => negb (isDue t' tm)) (timeouts st) |}.

(** What happens to a mounted component: a key goes down (with the
    waveform selected at that moment), a key goes up or the pointer leaves
    it (with the sustain switch as it is at that moment), or time passes. *)
Inductive Event :=
| KeyDown (waveform : OscillatorType) (midiNote : Z)
| KeyUp (sustain : bool) (midiNote : Z)
| Elapse (t : Q).

Definition step (Math_pow : Q -> Q -> Q) (paramValue : list ParamCall -> Q -> Q)
    (st : State) (e : Event) : State :=
  match e with
  | KeyDown w m => playNoteStart Math_pow w m st
  | KeyUp s m => playNoteStop paramValue s m st
  | Elapse t => advanceTo t st
  end.

Definition run (Math_pow : Q -> Q -> Q) (paramValue : list ParamCall -> Q -> Q)
    (es : list Event) (st : State) : State :=
  fold_left (step Math_pow paramValue) es st.

End PianoToken.

(* ===================================================================== *)
(** ** [App]: the preset list                                            *)
(* ===================================================================== *)

Module App.

Inductive KeySignatureType := ks_sharp | ks_flat | ks_none.

Record KeySignature := mkKeySignature {
  ks_type : KeySignatureType;
  ks_count : Z;
  ks_notes : list string
}.

Inductive Category := scale | chord | interval | other.

Record MusicTheoryResponse := mkResponse {
  root : string;
  type : string;
  category : Category;
  notes : list string;
  intervals : list string;
  description : string;
  keySignature : option KeySignature
}.

Record Preset := mkPreset {
  id : string;
  name : string;
  data : MusicTheoryResponse;
  timestamp : Z
}.

(** The component state that the preset handlers read and update, and the
    [localStorage] of the page. *)
Record State := mkState {
  current : option MusicTheoryResponse;     (* [data] *)
  presets : list Preset;
  localStorage : gmap string string
}.

Section Handlers.
(** [JSON.stringify] on a preset list. *)
Variable JSON_stringify : list Preset -> string.

Definition store (updatedPresets : list Preset) (st : State) : State :=
  {| current := current st;
     presets := updatedPresets;
     localStorage :=
       <["theorygen_presets" := JSON_stringify updatedPresets]>
         (localStorage st) |}.

(** [handleSavePreset]; [now1] and [now2] are the two values read from
    [Date.now()], for the id and for the timestamp. *)
Definition handleSavePreset (now1 now2 : Z) (st : State) : State :=
  match current st with
  | None => st
  | Some d =>
      let newPreset :=
        {| id := toString now1;
           name := root d +:+ " " +:+ type d;
           data := d;
           timestamp := now2 |} in
      let updatedPresets := newPreset :: presets st in
      store updatedPresets st
  end.

(** [handleDeletePreset]: [presets.filter(p => p.id !== id)]. *)
Definition handleDeletePreset (i : string) (st : State) : State :=
  let updatedPresets :=
    List.filter (fun p => negb (String.eqb (id p) i)) (presets st) in
  store updatedPresets st.
End Handlers.

(** Most recent first: no preset is newer than one before it. *)
Definition newestFirst (l : list Preset) : Prop :=
  StronglySorted (fun p q => timestamp q <= timestamp p) l.

End App.

(* ===================================================================== *)
(** ** Music-theory vocabulary of the specification                      *)
(* ===================================================================== *)

Module Theory.

Inductive Letter := LC | LD | LE | LF | LG | LA | LB.
Inductive Accidental := natural | sharp | flat.

(** The chromatic position of a natural note, with C at 0. *)
Definition letter_pc (l : Letter) : Z :=
  match l with
  | LC => 0 | LD => 2 | LE => 4 | LF => 5 | LG => 7 | LA => 9 | LB => 11
  end.

Definition accidental_shift (a : Accidental) : Z :=
  match a with natural => 0 | sharp => 1 | flat => -1 end.

(** The pitch class that a letter with an accidental denotes. *)
Definition pitchClass (l : Letter) (a : Accidental) : Z :=
  (letter_pc l + accidental_shift a) mod 12.

Definition letter_name (lower : bool) (l : Letter) : string :=
  match l, lower with
  | LC, false => "C" | LD, false => "D" | LE, false => "E" | LF, false => "F"
  | LG, false => "G" | LA, false => "A" | LB, false => "B"
  | LC, true => "c" | LD, true => "d" | LE, true => "e" | LF, true => "f"
  | LG, true => "g" | LA, true => "a" | LB, true => "b"
  end.

Definition accidental_name (a : Accidental) : string :=
  match a with natural => "" | sharp => "#" | flat => "b" end.

(** A written note name: the letter in either case, the accidental, and an
    optional octave number. *)
Definition noteName (lower : bool) (l : Letter) (a : Accidental)
    (octave : option nat) : string :=
  letter_name lower l +:+ accidental_name a +:+
  match octave with
  | Some n => toString (Z.of_nat n)
  | None => ""
  end.

(** The usual spelling, such as C#, Db or B. *)
Definition spell (l : Letter) (a : Accidental) : string :=
  noteName false l a None.

(** A string is a recognized note spelling when, case and digits apart, it
    is a letter with an optional sharp or flat. *)
Definition recognized (s : string) : Prop :=
  exists l a, Resolver.normalize s = Resolver.normalize (spell l a).

(** The visual states of a key, and their precedence. *)
Inductive VisualState := vs_default | externallyActive | vs_root | pressed.

Definition rank (v : VisualState) : nat :=
  match v with
  | vs_default => 0 | externallyActive => 1 | vs_root => 2 | pressed => 3
  end.

(** Whether a state applies to a key, given the three conditions. *)
Definition applies (isPressed isRoot isActive : bool) (v : VisualState)
    : bool :=
  match v with
  | vs_default => true
  | externallyActive => isActive
  | vs_root => isRoot
  | pressed => isPressed
  end.

(** The fill colour of [PianoToken] for a state. *)
Definition colour (white : bool) (v : VisualState) : string :=
  match v with
  | pressed => "#22d3ee"
  | vs_root => "#8b5cf6"
  | externallyActive => "#60a5fa"
  | vs_default => if white then "white" else "#1e293b"
  end.

(** The pitch class and the absolute octave of a MIDI note number. *)
Definition midi_pc (m : Z) : Z := m mod 12.
Definition midi_octave (m : Z) : Z := m / 12 - 1.

End Theory.

(* ===================================================================== *)
(** ** Observations on the rendered elements                             *)
(* ===================================================================== *)

Fixpoint startsWith (p s : string) {struct p} : bool :=
  match p with
  | EmptyString => true
  | String a p' =>
      match s with
      | EmptyString => false
      | String b s' => Ascii.eqb a b && startsWith p' s'
      end
  end.

Definition rects (es : list Element) : list RectProps :=
  flat_map (fun e => match e with rect p => [p] | text _ => [] end) es.

Definition texts (es : list Element) : list TextProps :=
  flat_map (fun e => match e with rect _ => [] | text p => [p] end) es.

Definition isWhite (r : RectProps) : bool := startsWith "white-" (key r).
Definition isBlack (r : RectProps) : bool := startsWith "black-" (key r).

Definition whiteRects (es : list Element) : list RectProps :=
  List.filter isWhite (rects es).

Definition blackRects (es : list Element) : list RectProps :=
  List.filter isBlack (rects es).

(** Position and size of an element (a label has a position only). *)
Definition geometry (e : Element) : Z * Z * option (Z * Z) :=
  match e with
  | rect p => (x p, y p, Some (width p, height p))
  | text p => (tx p, ty p, None)
  end.

(** The MIDI note of a key of [PianoToken]. *)
Definition midiOf (r : RectProps) : Z := default 0 (onPress r).


(* ===================================================================== *)
(** ** Records of a mounted component                                    *)
(* ===================================================================== *)

(** The two maps hold a record for the same notes, and there is a context
    as soon as there is a record. *)
Definition records_agree (st : PianoToken.State) : Prop :=
  (forall m, is_Some (PianoToken.oscillatorsRef st !! m)
             <-> is_Some (PianoToken.gainNodesRef st !! m))
  /\ (forall m, is_Some (PianoToken.oscillatorsRef st !! m) ->
                is_Some (PianoToken.audioContextRef st)).

(* ===================================================================== *)
(** ** Tactics                                                           *)
(* ===================================================================== *)

(** Unroll the two [forEach] loops of one octave. *)
Ltac unroll_octave :=
  cbv [PianoToken.octaveBody Piano.octaveBody forEach forEach_from
       whiteNotes blackNotes PianoToken.whiteBody PianoToken.blackBody
       Piano.whiteBody Piano.blackBody push Z.eqb app].

(** Split a conjunction, leaving equations alone. *)
Ltac conjs := repeat match goal with |- _ /\ _ => split end.

(** Project the rendered elements. *)
Ltac observe :=
  cbv [whiteRects blackRects rects texts flat_map app List.filter
       isWhite isBlack startsWith String.append Ascii.eqb Bool.eqb andb
       map midiOf default id geometry
       key x y width height fill stroke rx ry onPress
       tkey tx ty children].



(* ===================================================================== *)
(** ** Further vocabulary                                                *)
(* ===================================================================== *)

(** Where, from the left edge of its octave, the key of a pitch class
    starts: white keys on the slots, black keys astride the slot borders. *)
Definition keyOffset (pc : Z) : Z :=
  match pc with
  | 0 => 0 | 1 => 28 | 2 => 40 | 3 => 68 | 4 => 80 | 5 => 120
  | 6 => 148 | 7 => 160 | 8 => 188 | 9 => 200 | 10 => 228 | _ => 240
  end.

(** The horizontal extents of two rects meet. *)
Definition overlap (a b : RectProps) : Prop :=
  x a < x b + width b /\ x b < x a + width a.

(** A key of [Piano] drawn in one of the two root colours. *)
Definition rootFilled (r : RectProps) : bool :=
  String.eqb (fill r) "#8b5cf6" || String.eqb (fill r) "#7c3aed".

(** The colour that [Piano] gives a black key where [PianoToken] gives the
    colour [c]: darker shades for root and active, the rest alike. *)
Definition plainBlack (c : string) : string :=
  if String.eqb c "#8b5cf6" then "#7c3aed"
  else if String.eqb c "#60a5fa" then "#3b82f6"
  else c.

(** The characters of which recognized note names are made: the letters
    A to G in either case, the sharp sign and the digits. *)
Definition noteChar (c : ascii) : bool :=
  let n := nat_of_ascii c in
  ((65 <=? n)%nat && (n <=? 71)%nat)
  || ((97 <=? n)%nat && (n <=? 103)%nat)
  || (n =? 35)%nat
  || Resolver.is_digit c.

Fixpoint allChars (p : ascii -> bool) (s : string) : bool :=
  match s with
  | EmptyString => true
  | String c s' => p c && allChars p s'
  end.

(** The audio graph of a component is well formed: the stores have the
    same length; a note has the same index in both maps, within the
    stores; no two notes share an index; the oscillator at an index feeds
    the gain node at that index, which feeds the destination, and has been
    started once. *)
Definition voices_wf (st : PianoToken.State) : Prop :=
  length (PianoToken.oscillatorNodes st) = length (PianoToken.gainNodes st)
  /\ (forall m o, PianoToken.oscillatorsRef st !! m = Some o ->
                  PianoToken.gainNodesRef st !! m = Some o
                  /\ (o < length (PianoToken.oscillatorNodes st))%nat)
  /\ (forall m g, PianoToken.gainNodesRef st !! m = Some g ->
                  PianoToken.oscillatorsRef st !! m = Some g)
  /\ (forall m1 m2 o, PianoToken.oscillatorsRef st !! m1 = Some o ->
                      PianoToken.oscillatorsRef st !! m2 = Some o ->
                      m1 = m2)
  /\ (forall i osc, PianoToken.oscillatorNodes st !! i = Some osc ->
                    PianoToken.output osc = Some i
                    /\ length (PianoToken.start osc) = 1%nat)
  /\ (forall i g, PianoToken.gainNodes st !! i = Some g ->
                  PianoToken.toDestination g = true).

(** Every record of a note that is not pressed has a clean-up pending. *)
Definition released_have_cleanup (st : PianoToken.State) : Prop :=
  forall m, is_Some (PianoToken.oscillatorsRef st !! m) ->
            m ∈ PianoToken.playingNotes st
            \/ exists due, In (due, m) (PianoToken.timeouts st).

(** A component without audio: no context, no node, no record, no pressed
    note, no clean-up. *)
Definition silent (st : PianoToken.State) : Prop :=
  PianoToken.hasAudioContext st = false
  /\ PianoToken.audioContextRef st = None
  /\ PianoToken.oscillatorNodes st = []
  /\ PianoToken.gainNodes st = []
  /\ PianoToken.oscillatorsRef st = ∅
  /\ PianoToken.gainNodesRef st = ∅
  /\ PianoToken.playingNotes st = ∅
  /\ PianoToken.timeouts st = [].

(* ===================================================================== *)
(** ** [App]: requests, loading of presets; the resolver call            *)
(* ===================================================================== *)

Module Controller.

(** How [ai.models.generateContent] settles: it rejects, or it resolves
    with a response whose [text] may be missing. *)
Inductive ApiResponse :=
| ApiRejects
| ApiResolves (responseText : option string).

(** How [analyzeMusicRequest] settles. *)
Inductive Outcome :=
| Resolved (result : App.MusicTheoryResponse)
| Rejected.

Section Analyze.
(** [JSON.parse(text) as MusicTheoryResponse]: [None] when it throws. *)
Variable JSON_parse : string -> option App.MusicTheoryResponse.

(** [analyzeMusicRequest], from the settling of the call onwards:
    [if (!text) throw new Error(...); return JSON.parse(text)]. *)
Definition analyzeMusicRequest (response : ApiResponse) : Outcome :=
  match response with
  | ApiRejects => Rejected
  | ApiResolves txt =>
      if truthy txt then
        match txt with
        | Some t =>
            match JSON_parse t with
            | Some result => Resolved result
            | None => Rejected
            end
        | None => Rejected
        end
      else Rejected
  end.
End Analyze.

(** The state of [App]: the request form and what [App.State] holds. *)
Record View := mkView {
  prompt : string;
  isLoading : bool;
  error : option string;
  app : App.State
}.

Definition setData (d : option App.MusicTheoryResponse) (st : App.State)
    : App.State :=
  {| App.current := d; App.presets := App.presets st;
     App.localStorage := App.localStorage st |}.

(** [handleRequest] up to its [await]. *)
Definition handleRequest_start (requestText : string) (v : View) : View :=
  {| prompt := requestText; isLoading := true; error := None; app := app v |}.

(** [handleRequest] from its [await] on: [try]/[catch]/[finally]. *)
Definition handleRequest_settle (o : Outcome) (v : View) : View :=
  let v1 :=
    match o with
    | Resolved result =>
        {| prompt := prompt v; isLoading := isLoading v; error := error v;
           app := setData (Some result) (app v) |}
    | Rejected =>
        {| prompt := prompt v; isLoading := isLoading v;
           error := Some "Failed to analyze music theory request. Please try again.";
           app := app v |}
    end in
  {| prompt := prompt v1; isLoading := false; error := error v1;
     app := app v1 |}.

(** [handleLoadPreset]. *)
Definition handleLoadPreset (p : App.Preset) (v : View) : View :=
  {| prompt := App.name p; isLoading := isLoading v; error := error v;
     app := setData (Some (App.data p)) (app v) |}.

(** The click on the header: [setData(null); setPrompt('')]. *)
Definition handleHome (v : View) : View :=
  {| prompt := ""; isLoading := isLoading v; error := error v;
     app := setData None (app v) |}.

Section Mount.
(** [JSON.parse(saved)] taken as a preset list: [None] when it throws. *)
Variable JSON_parse_presets : string -> option (list App.Preset).

(** The effect run on mount:
    [const saved = localStorage.getItem('theorygen_presets');
     if (saved) { try { setPresets(JSON.parse(saved)) } catch (e) {...} }]. *)
Definition loadPresets (st : App.State) : App.State :=
  let saved := App.localStorage st !! "theorygen_presets" in
  if truthy saved then
    match saved with
    | Some t =>
        match JSON_parse_presets t with
        | Some l =>
            {| App.current := App.current st; App.presets := l;
               App.localStorage := App.localStorage st |}
        | None => st
        end
    | None => st
    end
  else st.

(** A freshly mounted [App] over a given storage. *)
Definition mount (storage : gmap string string) : App.State :=
  loadPresets {| App.current := None; App.presets := [];
                 App.localStorage := storage |}.
End Mount.

(** What the user and the resolver do to [App]: [handleRequest] is called
    (by the form or by a suggestion), the pending call of
    [analyzeMusicRequest] settles, and the clicks on the save button, on a
    preset's delete button, on a preset and on the header. *)
Inductive Event :=
| Request (requestText : string)
| Settle (o : Outcome)
| Save (now1 now2 : Z)
| Delete (i : string)
| Load (p : App.Preset)
| Home.

Definition onApp (f : App.State -> App.State) (v : View) : View :=
  {| prompt := prompt v; isLoading := isLoading v; error := error v;
     app := f (app v) |}.

(** One event. The callers of [handleRequest] are out of reach while
    [isLoading]: the input and the submit button are [disabled={isLoading}]
    and the suggestions are rendered under [!data && !isLoading]; so a
    request starts only when none is pending, and [isLoading] says whether
    one is. An answer arrives only for a pending request. The save button,
    the presets and the header are there whether or not a request is
    pending. *)
Definition step (JSON_stringify : list App.Preset -> string)
    (v : View) (e : Event) : View :=
  match e with
  | Request t => if isLoading v then v else handleRequest_start t v
  | Settle o => if isLoading v then handleRequest_settle o v else v
  | Save n1 n2 => onApp (App.handleSavePreset JSON_stringify n1 n2) v
  | Delete i => onApp (App.handleDeletePreset JSON_stringify i) v
  | Load p => handleLoadPreset p v
  | Home => handleHome v
  end.

Definition run (JSON_stringify : list App.Preset -> string)
    (es : list Event) (v : View) : View :=
  fold_left (step JSON_stringify) es v.

(** The storage slot holds the serialization of the preset list. *)
Definition mirrored (JSON_stringify : list App.Preset -> string)
    (st : App.State) : Prop :=
  App.localStorage st !! "theorygen_presets"
  = Some (JSON_stringify (App.presets st)).

End Controller.

(* ===================================================================== *)
(** ** [PianoToken]: the wallet gate                                     *)
(* ===================================================================== *)

Module Gate.

(** [hasAccess], [walletConnected], [userAddress]. *)
Record Wallet := mkWallet {
  hasAccess : bool;
  walletConnected : bool;
  userAddress : option string
}.

Definition disconnected : Wallet :=
  {| hasAccess := false; walletConnected := false; userAddress := None |}.

(** The component's wallet state together with the calls that are waiting
    at an [await]: the runs of [connectWallet] that have not yet got their
    address (they wait for [eth_requestAccounts], the signer or its
    address), and the runs of [checkTokenBalance] that wait for
    [contract.balanceOf]. Neither function reads the component's state, so
    the waiting runs need no more than counting. *)
Record State := mkState {
  wallet : Wallet;
  connecting : nat;
  checking : nat
}.

Definition initial : State :=
  {| wallet := disconnected; connecting := 0; checking := 0 |}.

(** [connectWallet] up to its first [await]: without [window.ethereum] it
    alerts and returns. *)
Definition connectWallet_start (ethereum : bool) (s : State) : State :=
  if negb ethereum then s
  else {| wallet := wallet s; connecting := S (connecting s);
          checking := checking s |}.

(** [connectWallet] once its three [await]s are over, for one of the
    waiting runs: with the address it does
    [setUserAddress(address); setWalletConnected(true);
     checkTokenBalance(signer, address)], the last one not awaited; when
    one of the three threw ([None]) the [catch] logs and nothing is set.
    The switch of the chain that follows sets no state. *)
Definition connectWallet_resume (address : option string) (s : State)
    : State :=
  match address with
  | Some addr =>
      {| wallet := {| hasAccess := hasAccess (wallet s);
                      walletConnected := true;
                      userAddress := Some addr |};
         connecting := pred (connecting s);
         checking := S (checking s) |}
  | None =>
      {| wallet := wallet s; connecting := pred (connecting s);
         checking := checking s |}
  end.

(** [checkTokenBalance] once [contract.balanceOf] has settled, for one of
    the waiting runs: [positive] is
    [parseFloat(formatUnits(balance, 18)) > 0], and [None] when the call
    threw. Only a positive balance sets anything: [setHasAccess(true)].
    How the call settles is the library's and the chain's business and is
    taken as given, also whether it can succeed at all for the token
    address written in the source. *)
Definition checkTokenBalance_resume (positive : option bool) (s : State)
    : State :=
  match positive with
  | Some true =>
      {| wallet := {| hasAccess := true;
                      walletConnected := walletConnected (wallet s);
                      userAddress := userAddress (wallet s) |};
         connecting := connecting s; checking := pred (checking s) |}
  | _ =>
      {| wallet := wallet s; connecting := connecting s;
         checking := pred (checking s) |}
  end.

(** What happens to the gate: a click on the connect button, with whether
    [window.ethereum] is there; a waiting [connectWallet] goes on; a
    waiting [checkTokenBalance] goes on. *)
Inductive Event :=
| Click (ethereum : bool)
| Accounts (address : option string)
| Balance (positive : option bool).

(** One event. The button is rendered under [!walletConnected]; a run can
    go on only if one is waiting. *)
Definition step (s : State) (e : Event) : State :=
  match e with
  | Click ethereum =>
      if walletConnected (wallet s) then s
      else connectWallet_start ethereum s
  | Accounts address =>
      match connecting s with
      | O => s
      | S _ => connectWallet_resume address s
      end
  | Balance positive =>
      match checking s with
      | O => s
      | S _ => checkTokenBalance_resume positive s
      end
  end.

Definition run (es : list Event) (s : State) : State :=
  fold_left step es s.

End Gate.

(** What holds of the gate after any events: work that waits, a
    connected wallet and an unlocked range all go back to events that
    happened, and access and a waiting balance check need a connected
    wallet. *)
Definition gate_inv (es : list Gate.Event) (s : Gate.State) : Prop :=
  let w := Gate.wallet s in
  ((0 < Gate.connecting s)%nat \/ Gate.walletConnected w = true ->
   In (Gate.Click true) es)
  /\ ((0 < Gate.checking s)%nat \/ Gate.hasAccess w = true ->
      Gate.walletConnected w = true)
  /\ (Gate.walletConnected w = true <-> is_Some (Gate.userAddress w))
  /\ (forall addr, Gate.userAddress w = Some addr ->
                   In (Gate.Accounts (Some addr)) es)
  /\ (Gate.hasAccess w = true -> In (Gate.Balance (Some true)) es).
(* ===================================================================== *)
(** ** The resolver                                                      *)
(* ===================================================================== *)

Section ResolverFacts.
Import Resolver Theory.

Lemma toUpperCase_app (s1 s2 : string) :
  toUpperCase (s1 +:+ s2) = toUpperCase s1 +:+ toUpperCase s2.
Proof. induction s1 as [|c s1 IH]; simpl; [reflexivity | now rewrite IH]. Qed.

Lemma strip_digits_app (s1 s2 : string) :
  strip_digits (s1 +:+ s2) = strip_digits s1 +:+ strip_digits s2.
Proof.
  induction s1 as [|c s1 IH]; simpl; [reflexivity |].
  destruct (is_digit c); simpl; now rewrite IH.
Qed.

Lemma normalize_app (s1 s2 : string) :
  normalize (s1 +:+ s2) = normalize s1 +:+ normalize s2.
Proof. unfold normalize. now rewrite toUpperCase_app, strip_digits_app. Qed.

(** A decimal numeral consists of digits, which the resolver drops. *)
Lemma normalize_uint (d : Decimal.uint) :
  normalize (NilEmpty.string_of_uint d) = "".
Proof. induction d; simpl; auto. Qed.

Lemma normalize_toString_nat (n : nat) : normalize (toString (Z.of_nat n)) = "".
Proof.
  unfold toString. destruct n as [|n]; [reflexivity |].
  simpl. unfold NilZero.string_of_uint.
  destruct (Pos.to_uint _); try reflexivity; apply normalize_uint.
Qed.

(** Case and octave number do not matter to the resolver. *)
Lemma normalize_noteName lower l a octave :
  normalize (noteName lower l a octave) = normalize (spell l a).
Proof.
  unfold spell, noteName. rewrite !normalize_app.
  assert (Hl : normalize (letter_name lower l) = normalize (letter_name false l))
    by (destruct l, lower; reflexivity).
  rewrite Hl. f_equal. f_equal.
  destruct octave; [apply normalize_toString_nat | reflexivity].
Qed.

Lemma noteToOffset_spell l a : noteToOffset (spell l a) = pitchClass l a.
Proof. destruct l, a; vm_compute; reflexivity. Qed.

Lemma noteToOffset_noteName lower l a octave :
  noteToOffset (noteName lower l a octave) = pitchClass l a.
Proof.
  unfold noteToOffset. rewrite normalize_noteName.
  apply (noteToOffset_spell l a).
Qed.

Lemma pitchClass_range l a : 0 <= pitchClass l a <= 11.
Proof. destruct l, a; vm_compute; split; discriminate. Qed.

(** Every key of the table is the upper-case spelling of a letter with an
    accidental. *)
Lemma table_keys (k : string) (v : Z) :
  NOTE_TO_OFFSET !! k = Some v ->
  exists l a, k = normalize (spell l a) /\ v = pitchClass l a.
Proof.
  intros H. apply elem_of_list_to_map_2 in H.
  unfold NOTE_TO_OFFSET_entries in H.
  repeat (apply elem_of_cons in H as [H | H];
          [ injection H as -> ->;
            first [ by exists LC, natural | by exists LC, sharp | by exists LC, flat
                  | by exists LD, natural | by exists LD, sharp | by exists LD, flat
                  | by exists LE, natural | by exists LE, sharp | by exists LE, flat
                  | by exists LF, natural | by exists LF, sharp | by exists LF, flat
                  | by exists LG, natural | by exists LG, sharp | by exists LG, flat
                  | by exists LA, natural | by exists LA, sharp | by exists LA, flat
                  | by exists LB, natural | by exists LB, sharp | by exists LB, flat ]
          | ]).
  by apply elem_of_nil in H.
Qed.

Lemma noteToOffset_recognized (s : string) :
  recognized s <-> noteToOffset s <> -1.
Proof.
  split.
  - intros (l & a & H). unfold noteToOffset. rewrite H.
    change (noteToOffset (spell l a) <> -1). rewrite noteToOffset_spell.
    pose proof (pitchClass_range l a). lia.
  - unfold noteToOffset. intros H.
    destruct (NOTE_TO_OFFSET !! normalize s) as [v|] eqn:E; [| done].
    apply table_keys in E as (l & a & E & _). by exists l, a.
Qed.

Lemma noteToOffset_range (s : string) :
  noteToOffset s = -1 \/ 0 <= noteToOffset s <= 11.
Proof.
  unfold noteToOffset.
  destruct (NOTE_TO_OFFSET !! normalize s) as [v|] eqn:E; [| by left].
  apply table_keys in E as (l & a & _ & ->). right. apply pitchClass_range.
Qed.
End ResolverFacts.

(* ===================================================================== *)
(** ** The layout as a list per octave                                   *)
(* ===================================================================== *)

Section LayoutFacts.

Lemma for_oct_pushes {body : Z -> list Element -> list Element} (n : Z) :
  (forall o g, body o g = g ++ body o []) ->
  forall g, for_oct n body g = g ++ flat_map (fun o => body o []) (seqZ 0 n).
Proof.
  intros Hbody. unfold for_oct. generalize (seqZ 0 n) as os.
  induction os as [|o os IH]; intros g; simpl.
  - now rewrite app_nil_r.
  - rewrite IH, (Hbody o g). now rewrite <- app_assoc.
Qed.

Lemma PianoToken_octaveBody_pushes shift act rt pl o g :
  PianoToken.octaveBody shift act rt pl o g
  = g ++ PianoToken.octaveBody shift act rt pl o [].
Proof.
  cbv [PianoToken.octaveBody forEach forEach_from whiteNotes blackNotes
       PianoToken.whiteBody PianoToken.blackBody push Z.eqb].
  rewrite <- !app_assoc. reflexivity.
Qed.

Lemma PianoToken_keys_octaves n shift act rt pl :
  PianoToken.keys n shift act rt pl
  = flat_map (fun o => PianoToken.octaveBody shift act rt pl o [])
      (seqZ 0 n).
Proof.
  unfold PianoToken.keys.
  rewrite (for_oct_pushes n (PianoToken_octaveBody_pushes shift act rt pl)).
  reflexivity.
Qed.
End LayoutFacts.

(* ===================================================================== *)
(** ** Keys of the layout                                                *)
(* ===================================================================== *)

Section ObservationFacts.
Lemma observe_flat_map {A B C : Type} (obs : list B -> list C)
    (f : A -> list B) (l : list A) :
  obs [] = [] ->
  (forall a b, obs (a ++ b) = obs a ++ obs b) ->
  obs (flat_map f l) = flat_map (fun a => obs (f a)) l.
Proof.
  intros Hnil Happ. induction l as [|a l IH]; simpl; [assumption |].
  now rewrite Happ, IH.
Qed.

Lemma rects_app a b : rects (a ++ b) = rects a ++ rects b.
Proof. apply flat_map_app. Qed.

Lemma texts_app a b : texts (a ++ b) = texts a ++ texts b.
Proof. apply flat_map_app. Qed.

Lemma whiteRects_app a b : whiteRects (a ++ b) = whiteRects a ++ whiteRects b.
Proof. unfold whiteRects. now rewrite rects_app, List.filter_app. Qed.

Lemma blackRects_app a b : blackRects (a ++ b) = blackRects a ++ blackRects b.
Proof. unfold blackRects. now rewrite rects_app, List.filter_app. Qed.

Lemma midi_pc_key c idx :
  0 <= idx < 12 -> Theory.midi_pc ((c + 1) * 12 + idx) = idx.
Proof.
  intros H. unfold Theory.midi_pc.
  rewrite Z.add_comm, Z.mod_add by lia. apply Z.mod_small; lia.
Qed.
End ObservationFacts.

Section PerOctave.
Variables (shift : Z) (act : gset Z) (rt : Z) (pl : gset Z) (o : Z).

Lemma PianoToken_white_octave :
  map (fun r => (Theory.midi_pc (midiOf r), x r))
    (whiteRects (PianoToken.octaveBody shift act rt pl o []))
  = map (fun '(pc, i) => (pc, o * 7 * whiteKeyWidth + i * whiteKeyWidth))
      [(0, 0); (2, 1); (4, 2); (5, 3); (7, 4); (9, 5); (11, 6)].
Proof.
  unroll_octave. observe. rewrite !midi_pc_key by lia.
  repeat (f_equal; try lia).
Qed.

Lemma PianoToken_black_octave :
  map (fun r => (Theory.midi_pc (midiOf r), x r))
    (blackRects (PianoToken.octaveBody shift act rt pl o []))
  = map (fun '(pc, gap) =>
           (pc, o * 7 * whiteKeyWidth + gap * whiteKeyWidth
                - blackKeyWidth / 2))
      [(1, 1); (3, 2); (6, 4); (8, 5); (10, 6)].
Proof.
  unroll_octave. observe. rewrite !midi_pc_key by lia.
  repeat (f_equal; try lia).
Qed.

Lemma PianoToken_label_octave :
  map (fun t => (tx t, children t))
    (texts (PianoToken.octaveBody shift act rt pl o []))
  = [ (o * 7 * whiteKeyWidth + whiteKeyWidth / 2,
       "C" +:+ toString (PianoToken.START_OCTAVE + o + shift)) ].
Proof. unroll_octave. observe. repeat (f_equal; try lia). Qed.

Lemma PianoToken_rects_octave :
  length (rects (PianoToken.octaveBody shift act rt pl o [])) = 12%nat.
Proof. reflexivity. Qed.
End PerOctave.

(** C1. For every octave index below the octave count the layout has the
    seven white keys with pitch classes 0, 2, 4, 5, 7, 9, 11 at
    [o*7*whiteKeyWidth + i*whiteKeyWidth] for the slots i = 0..6, and the
    five black keys with pitch classes 1, 3, 6, 8, 10 at
    [o*7*whiteKeyWidth + gap*whiteKeyWidth - blackKeyWidth/2] for the gaps
    1, 2, 4, 5, 6, and nothing else but one label per octave, on its slot-0
    key. With two octaves that is 14 white and 10 black keys on a width of
    [14 * whiteKeyWidth], the first label reading C3 for base octave 3 and
    shift 0. The same holds of the plain [Piano], whose keys carry octave
    index and pitch class in their names. *)
Theorem C1_keyboard_layout :
  (forall n shift act rt pl,
      let ks := PianoToken.keys n shift act rt pl in
      map (fun r => (Theory.midi_pc (midiOf r), x r)) (whiteRects ks)
      = flat_map
          (fun o => map (fun '(pc, i) =>
                           (pc, o * 7 * whiteKeyWidth + i * whiteKeyWidth))
                      [(0, 0); (2, 1); (4, 2); (5, 3); (7, 4); (9, 5); (11, 6)])
          (seqZ 0 n)
      /\ map (fun r => (Theory.midi_pc (midiOf r), x r)) (blackRects ks)
         = flat_map
             (fun o => map (fun '(pc, gap) =>
                              (pc, o * 7 * whiteKeyWidth + gap * whiteKeyWidth
                                   - blackKeyWidth / 2))
                         [(1, 1); (3, 2); (6, 4); (8, 5); (10, 6)])
             (seqZ 0 n)
      /\ map (fun t => (tx t, children t)) (texts ks)
         = map (fun o => (o * 7 * whiteKeyWidth + whiteKeyWidth / 2,
                          "C" +:+ toString (PianoToken.START_OCTAVE + o + shift)))
             (seqZ 0 n)
      /\ length (whiteRects ks) = (7 * Z.to_nat n)%nat
      /\ length (blackRects ks) = (5 * Z.to_nat n)%nat
      /\ length (rects ks) = (12 * Z.to_nat n)%nat)
  /\ (forall act rt pl,
        let ks := PianoToken.keys (PianoToken.octaves_of false) 0 act rt pl in
        length (whiteRects ks) = 14%nat
        /\ length (blackRects ks) = 10%nat
        /\ PianoToken.totalWidth (PianoToken.octaves_of false)
           = 14 * whiteKeyWidth
        /\ map (fun t => (tx t, children t)) (texts ks)
           = [(20, "C3"); (300, "C4")]
        /\ map (fun r => (Theory.midi_pc (midiOf r), x r)) (whiteRects ks)
           = [ (0, 0); (2, 40); (4, 80); (5, 120); (7, 160); (9, 200);
               (11, 240); (0, 280); (2, 320); (4, 360); (5, 400); (7, 440);
               (9, 480); (11, 520) ])
  /\ (forall act rt,
        let ks := Piano.keys act rt in
        map (fun r => (key r, x r)) (whiteRects ks)
        = flat_map
            (fun o => map (fun '(pc, i) =>
                             ("white-" +:+ toString o +:+ "-" +:+ toString pc,
                              o * 7 * whiteKeyWidth + i * whiteKeyWidth))
                        [(0, 0); (2, 1); (4, 2); (5, 3); (7, 4); (9, 5); (11, 6)])
            [0; 1]
        /\ map (fun r => (key r, x r)) (blackRects ks)
           = flat_map
               (fun o => map (fun '(pc, gap) =>
                                ("black-" +:+ toString o +:+ "-" +:+ toString pc,
                                 o * 7 * whiteKeyWidth + gap * whiteKeyWidth
                                 - blackKeyWidth / 2))
                           [(1, 1); (3, 2); (6, 4); (8, 5); (10, 6)])
               [0; 1]
        /\ map (fun t => (tx t, children t)) (texts ks)
           = [(20, "C3"); (300, "C4")]
        /\ length (whiteRects ks) = 14%nat
        /\ length (blackRects ks) = 10%nat
        /\ length (rects ks) = 24%nat
        /\ Piano.totalWidth = 14 * whiteKeyWidth).
Proof.
  assert (General : forall n shift act rt pl,
      let ks := PianoToken.keys n shift act rt pl in
      map (fun r => (Theory.midi_pc (midiOf r), x r)) (whiteRects ks)
      = flat_map
          (fun o => map (fun '(pc, i) =>
                           (pc, o * 7 * whiteKeyWidth + i * whiteKeyWidth))
                      [(0, 0); (2, 1); (4, 2); (5, 3); (7, 4); (9, 5); (11, 6)])
          (seqZ 0 n)
      /\ map (fun r => (Theory.midi_pc (midiOf r), x r)) (blackRects ks)
         = flat_map
             (fun o => map (fun '(pc, gap) =>
                              (pc, o * 7 * whiteKeyWidth + gap * whiteKeyWidth
                                   - blackKeyWidth / 2))
                         [(1, 1); (3, 2); (6, 4); (8, 5); (10, 6)])
             (seqZ 0 n)
      /\ map (fun t => (tx t, children t)) (texts ks)
         = map (fun o => (o * 7 * whiteKeyWidth + whiteKeyWidth / 2,
                          "C" +:+ toString (PianoToken.START_OCTAVE + o + shift)))
             (seqZ 0 n)).
  { intros n shift act rt pl ks. subst ks.
    rewrite PianoToken_keys_octaves. conjs.
    - rewrite (observe_flat_map
                 (fun es => map (fun r => (Theory.midi_pc (midiOf r), x r))
                              (whiteRects es))); [| reflexivity |].
      + apply flat_map_ext. intros o. apply PianoToken_white_octave.
      + intros a b. now rewrite whiteRects_app, map_app.
    - rewrite (observe_flat_map
                 (fun es => map (fun r => (Theory.midi_pc (midiOf r), x r))
                              (blackRects es))); [| reflexivity |].
      + apply flat_map_ext. intros o. apply PianoToken_black_octave.
      + intros a b. now rewrite blackRects_app, map_app.
    - rewrite (observe_flat_map
                 (fun es => map (fun t => (tx t, children t)) (texts es)));
        [| reflexivity |].
      + generalize (seqZ 0 n) as os. induction os as [|o os IH]; cbn [flat_map map].
        * reflexivity.
        * rewrite PianoToken_label_octave, IH. reflexivity.
      + intros a b. now rewrite texts_app, map_app. }
  split; [| split].
  - intros n shift act rt pl ks.
    destruct (General n shift act rt pl) as (Hw & Hb & Ht).
    fold ks in Hw, Hb, Ht. conjs; try assumption.
    + apply (f_equal (@length _)) in Hw. rewrite length_map in Hw.
      rewrite Hw. rewrite (flat_map_constant_length (c := 7%nat)) by reflexivity.
      rewrite length_seqZ. lia.
    + apply (f_equal (@length _)) in Hb. rewrite length_map in Hb.
      rewrite Hb. rewrite (flat_map_constant_length (c := 5%nat)) by reflexivity.
      rewrite length_seqZ. lia.
    + subst ks. rewrite PianoToken_keys_octaves.
      rewrite (observe_flat_map rects);
        [| reflexivity | apply rects_app].
      rewrite (flat_map_constant_length (c := 12%nat)) by reflexivity.
      rewrite length_seqZ. lia.
  - intros act rt pl ks.
    destruct (General (PianoToken.octaves_of false) 0 act rt pl)
      as (Hw & Hb & Ht).
    fold ks in Hw, Hb, Ht. conjs.
    + apply (f_equal (@length _)) in Hw. rewrite length_map in Hw.
      rewrite Hw. reflexivity.
    + apply (f_equal (@length _)) in Hb. rewrite length_map in Hb.
      rewrite Hb. reflexivity.
    + reflexivity.
    + rewrite Ht. reflexivity.
    + rewrite Hw. reflexivity.
  - intros act rt ks. subst ks.
    unfold Piano.keys, for_oct. change (seqZ 0 Piano.OCTAVES) with [0; 1].
    cbv [fold_left]. unroll_octave.
    conjs; observe; vm_compute; reflexivity.
Qed.

(* ===================================================================== *)
(** ** The active set                                                    *)
(* ===================================================================== *)

Section ActiveSet.
Import Resolver Theory.

Lemma activeIndices_from (i : Z) (notes : list string) (s : gset Z) (pc : Z) :
  pc ∈ forEach_from i notes
         (fun n _ (s : gset Z) =>
            let offset := noteToOffset n in
            if negb (offset =? -1) then s ∪ {[offset]} else s) s
  <-> pc ∈ s \/ exists n, n ∈ notes /\ noteToOffset n <> -1 /\ noteToOffset n = pc.
Proof.
  revert i s. induction notes as [|n notes IH]; intros i s; cbn [forEach_from].
  - split; [by left | intros [H | (n & H & _)]; [done | by apply elem_of_nil in H]].
  - rewrite IH. cbv zeta. destruct (Z.eqb_spec (noteToOffset n) (-1)) as [E | E]; cbn [negb].
    + split.
      * intros [H | (m & Hm & Hne & Hpc)]; [by left | right].
        exists m. split; [by apply elem_of_cons; right | done].
      * intros [H | (m & Hm & Hne & Hpc)]; [by left |].
        apply elem_of_cons in Hm as [-> | Hm]; [done |]. right. by exists m.
    + split.
      * intros [H | (m & Hm & Hne & Hpc)].
        -- apply elem_of_union in H as [H | H]; [by left | right].
           apply elem_of_singleton in H. exists n.
           split; [by apply elem_of_cons; left | done].
        -- right. exists m. split; [by apply elem_of_cons; right | done].
      * intros [H | (m & Hm & Hne & Hpc)].
        -- left. apply elem_of_union. by left.
        -- apply elem_of_cons in Hm as [-> | Hm].
           ++ left. apply elem_of_union. right. by apply elem_of_singleton.
           ++ right. by exists m.
Qed.

Lemma elem_of_activeIndices (notes : list string) (pc : Z) :
  pc ∈ activeIndices notes
  <-> exists n, n ∈ notes /\ recognized n /\ noteToOffset n = pc.
Proof.
  unfold activeIndices, forEach. rewrite activeIndices_from. split.
  - intros [H | (n & Hn & Hne & Hpc)]; [by apply not_elem_of_empty in H |].
    exists n. by rewrite noteToOffset_recognized.
  - intros (n & Hn & Hrec & Hpc). right. exists n.
    by rewrite <- noteToOffset_recognized.
Qed.
End ActiveSet.

(** C2. Two written note names that denote the same pitch class, whatever
    the case of the letter and the octave number, resolve to the same
    value, which is that pitch class and lies in 0..11. B# resolves to 0,
    E# to 5, Fb to 4, Cb to 11, and each of the sharps C#, D#, F#, G#, A#
    resolves as its flat counterpart Db, Eb, Gb, Ab, Bb. *)
Theorem C2_enharmonic_spellings_agree :
  (forall l1 a1 l2 a2 low1 low2 o1 o2,
      Theory.pitchClass l1 a1 = Theory.pitchClass l2 a2 ->
      Resolver.noteToOffset (Theory.noteName low1 l1 a1 o1)
      = Resolver.noteToOffset (Theory.noteName low2 l2 a2 o2)
      /\ Resolver.noteToOffset (Theory.noteName low1 l1 a1 o1)
         = Theory.pitchClass l1 a1
      /\ 0 <= Resolver.noteToOffset (Theory.noteName low1 l1 a1 o1) <= 11)
  /\ Resolver.noteToOffset "B#" = 0
  /\ Resolver.noteToOffset "E#" = 5
  /\ Resolver.noteToOffset "Fb" = 4
  /\ Resolver.noteToOffset "Cb" = 11
  /\ Resolver.noteToOffset "C#" = Resolver.noteToOffset "Db"
  /\ Resolver.noteToOffset "D#" = Resolver.noteToOffset "Eb"
  /\ Resolver.noteToOffset "F#" = Resolver.noteToOffset "Gb"
  /\ Resolver.noteToOffset "G#" = Resolver.noteToOffset "Ab"
  /\ Resolver.noteToOffset "A#" = Resolver.noteToOffset "Bb".
Proof.
  split; [| conjs; vm_compute; reflexivity].
  intros l1 a1 l2 a2 low1 low2 o1 o2 H.
  rewrite !noteToOffset_noteName. split; [exact H | split; [reflexivity |]].
  apply pitchClass_range.
Qed.

Lemma C2_enharmonic_spellings_agree_witness :
  Resolver.noteToOffset "c#" = Resolver.noteToOffset "Db4"
  /\ Resolver.noteToOffset "c#" = 1
  /\ 0 <= Resolver.noteToOffset "c#" <= 11.
Proof.
  apply (proj1 C2_enharmonic_spellings_agree
           Theory.LC Theory.sharp Theory.LD Theory.flat true false
           None (Some 4%nat)).
  reflexivity.
Defined.

(** C4. A string that is not a recognized note spelling resolves to the
    sentinel -1, and building the active set from any list of strings
    yields a set that holds exactly the pitch classes of the recognized
    notes of the list: unrecognized entries, wherever they stand, leave
    the set as it is without them, and the sentinel is never a member. *)
Theorem C4_unrecognized_notes_are_dropped :
  (forall s, ~ Theory.recognized s -> Resolver.noteToOffset s = -1)
  /\ (forall (notes : list string) (pc : Z),
        pc ∈ activeIndices notes
        <-> exists n, n ∈ notes /\ Theory.recognized n
                      /\ Resolver.noteToOffset n = pc)
  /\ (forall (before after : list string) (noise : string),
        ~ Theory.recognized noise ->
        activeIndices (before ++ noise :: after)
        = activeIndices (before ++ after))
  /\ (forall (notes : list string) (pc : Z),
        pc ∈ activeIndices notes -> 0 <= pc <= 11).
Proof.
  conjs.
  - intros s H. rewrite noteToOffset_recognized in H.
    destruct (Z.eq_dec (Resolver.noteToOffset s) (-1)); [done | by destruct H].
  - apply elem_of_activeIndices.
  - intros before after noise H. apply set_eq. intros pc.
    rewrite !elem_of_activeIndices. split.
    + intros (n & Hn & Hrec & Hpc). exists n. split; [| done].
      apply elem_of_app in Hn as [Hn | Hn]; [apply elem_of_app; by left |].
      apply elem_of_cons in Hn as [-> | Hn]; [done |].
      apply elem_of_app; by right.
    + intros (n & Hn & Hrec & Hpc). exists n. split; [| done].
      apply elem_of_app in Hn as [Hn | Hn]; apply elem_of_app; [by left |].
      right. apply elem_of_cons. by right.
  - intros notes pc H. apply elem_of_activeIndices in H as (n & _ & Hrec & <-).
    apply noteToOffset_recognized in Hrec.
    destruct (noteToOffset_range n); [done | lia].
Qed.

Lemma C4_unrecognized_notes_are_dropped_witness :
  Resolver.noteToOffset "H" = -1
  /\ activeIndices (["C"] ++ "hello" :: ["E"]) = activeIndices (["C"] ++ ["E"]).
Proof.
  assert (H : forall s, Resolver.noteToOffset s = -1 -> ~ Theory.recognized s).
  { intros s E R. by apply noteToOffset_recognized in R. }
  split.
  - apply (proj1 C4_unrecognized_notes_are_dropped "H"). by apply H.
  - apply (proj1 (proj2 (proj2 C4_unrecognized_notes_are_dropped))
             ["C"] ["E"] "hello").
    by apply H.
Defined.

(* ===================================================================== *)
(** ** Fill and geometry of the keys of [PianoToken]                     *)
(* ===================================================================== *)

Section KeyFacts.
Variables (shift : Z) (act : gset Z) (rt : Z) (pl : gset Z).

Lemma midi_octave_key c idx :
  0 <= idx < 12 -> Theory.midi_octave ((c + 1) * 12 + idx) = c.
Proof.
  intros H. unfold Theory.midi_octave.
  rewrite Z.add_comm, Z.div_add by lia. rewrite Z.div_small by lia. lia.
Qed.

(** Every key of an octave is the key of one pitch class [idx], bound to
    the MIDI note of that pitch class in the octave, and filled by the
    white or the black chain. *)
Lemma PianoToken_rect_cases o r :
  In r (rects (PianoToken.octaveBody shift act rt pl o [])) ->
  exists idx,
    0 <= idx < 12
    /\ onPress r = Some ((PianoToken.START_OCTAVE + o + shift + 1) * 12 + idx)
    /\ ((isWhite r = true
         /\ fill r = PianoToken.whiteFill act rt pl idx (midiOf r))
        \/ (isWhite r = false /\ isBlack r = true
            /\ fill r = PianoToken.blackFill act rt pl idx (midiOf r))).
Proof.
  unroll_octave. cbv [rects flat_map app In].
  intros H.
  repeat (destruct H as [<- | H];
          [ refine (ex_intro _ _ (conj _ (conj eq_refl _)));
            [ lia | first [ left; split; reflexivity
                          | right; split; [| split]; reflexivity ] ] | ]).
  destruct H.
Qed.

Lemma In_rects_keys n r :
  In r (rects (PianoToken.keys n shift act rt pl)) ->
  exists o, 0 <= o < n
            /\ In r (rects (PianoToken.octaveBody shift act rt pl o [])).
Proof.
  rewrite PianoToken_keys_octaves.
  rewrite (observe_flat_map rects); [| reflexivity | apply rects_app].
  intros H. apply in_flat_map in H as (o & Ho & H).
  exists o. split; [| exact H].
  apply list_elem_of_In, elem_of_seqZ in Ho. lia.
Qed.
End KeyFacts.

(** The chain of [if]s picks the applicable state of highest rank. *)
Lemma fill_chain_is_highest (white isPressed isRoot isActive : bool) :
  exists v,
    Theory.applies isPressed isRoot isActive v = true
    /\ (forall v', Theory.applies isPressed isRoot isActive v' = true ->
                   (Theory.rank v' <= Theory.rank v)%nat)
    /\ (if isPressed then "#22d3ee"
        else if isRoot then "#8b5cf6"
        else if isActive then "#60a5fa"
        else if white then "white" else "#1e293b")
       = Theory.colour white v.
Proof.
  destruct isPressed; [exists Theory.pressed |
    destruct isRoot; [exists Theory.vs_root |
      destruct isActive; [exists Theory.externallyActive
                         | exists Theory.vs_default]]];
    (split; [reflexivity | split; [| reflexivity]]);
    intros [] Hv; simpl in *; solve [lia | discriminate].
Qed.

(** C3. The fill of every key of the layout is the colour of the state of
    highest precedence among those that apply to it, in the order pressed,
    root, externally active, default. With the active notes C, E, G, the
    root C and the E key of the first octave (MIDI 52) pressed, that key is
    drawn pressed although its pitch class is in the active set, the E key
    of the next octave is drawn active, and the C keys are drawn as root. *)
Theorem C3_visual_state_precedence :
  (forall n shift act rt pl r,
      In r (rects (PianoToken.keys n shift act rt pl)) ->
      let m := midiOf r in
      let pc := Theory.midi_pc m in
      let isPressed := bool_decide (m ∈ pl) in
      let isRoot := rt =? pc in
      let isActive := bool_decide (pc ∈ act) in
      exists v,
        Theory.applies isPressed isRoot isActive v = true
        /\ (forall v', Theory.applies isPressed isRoot isActive v' = true ->
                       (Theory.rank v' <= Theory.rank v)%nat)
        /\ fill r = Theory.colour (isWhite r) v)
  /\ (let act := activeIndices ["C"; "E"; "G"] in
      let rt := rootIndex (Some "C") in
      let ks := PianoToken.keys 2 0 act rt {[52]} in
      bool_decide (Theory.midi_pc 52 ∈ act) = true
      /\ map fill (List.filter (fun r => midiOf r =? 52) (rects ks))
         = [Theory.colour true Theory.pressed]
      /\ map (fun r => (midiOf r, fill r)) (whiteRects ks)
         = [ (48, "#8b5cf6"); (50, "white"); (52, "#22d3ee"); (53, "white");
             (55, "#60a5fa"); (57, "white"); (59, "white");
             (60, "#8b5cf6"); (62, "white"); (64, "#60a5fa"); (65, "white");
             (67, "#60a5fa"); (69, "white"); (71, "white") ]).
Proof.
  split.
  - intros n shift act rt pl r Hin m pc isPressed isRoot isActive.
    apply In_rects_keys in Hin as (o & _ & Hin).
    apply PianoToken_rect_cases in Hin as (idx & Hidx & Hm & Hfill).
    assert (Em : m = (PianoToken.START_OCTAVE + o + shift + 1) * 12 + idx)
      by (subst m; unfold midiOf; now rewrite Hm).
    assert (Epc : pc = idx) by (subst pc; rewrite Em; now apply midi_pc_key).
    destruct Hfill as [(Hw & Hf) | (Hw & _ & Hf)]; rewrite Hw, Hf.
    + unfold PianoToken.whiteFill. fold m. rewrite <- Epc.
      apply (fill_chain_is_highest true).
    + unfold PianoToken.blackFill. fold m. rewrite <- Epc.
      apply (fill_chain_is_highest false).
  - vm_compute. conjs; reflexivity.
Qed.

Lemma C3_visual_state_precedence_witness :
  let act := activeIndices ["C"; "E"; "G"] in
  let rt := rootIndex (Some "C") in
  let pl : gset Z := {[52]} in
  let r := {| key := "white-52"; x := 80; y := 0; width := 40; height := 160;
              fill := "#22d3ee"; stroke := "#cbd5e1"; rx := 4; ry := 4;
              onPress := Some 52 |} in
  In r (rects (PianoToken.keys 2 0 act rt pl))
  /\ exists v,
       Theory.applies (bool_decide (midiOf r ∈ pl))
         (rt =? Theory.midi_pc (midiOf r))
         (bool_decide (Theory.midi_pc (midiOf r) ∈ act)) v = true
       /\ (forall v',
              Theory.applies (bool_decide (midiOf r ∈ pl))
                (rt =? Theory.midi_pc (midiOf r))
                (bool_decide (Theory.midi_pc (midiOf r) ∈ act)) v' = true ->
              (Theory.rank v' <= Theory.rank v)%nat)
       /\ fill r = Theory.colour (isWhite r) v.
Proof.
  intros act rt pl r.
  assert (H : In r (rects (PianoToken.keys 2 0 act rt pl)))
    by (vm_compute; tauto).
  split; [exact H |].
  exact (proj1 C3_visual_state_precedence 2 0 act rt pl r H).
Defined.

Section ShiftFacts.
Variables (shift : Z) (act : gset Z) (rt : Z) (pl : gset Z) (o : Z).

Lemma geometry_octave :
  map geometry (PianoToken.octaveBody shift act rt pl o [])
  = map geometry (PianoToken.octaveBody 0 act rt pl o []).
Proof. reflexivity. Qed.

Lemma frame_octave :
  map (fun r => (stroke r, rx r, ry r))
    (rects (PianoToken.octaveBody shift act rt pl o []))
  = map (fun r => (stroke r, rx r, ry r))
      (rects (PianoToken.octaveBody 0 act rt pl o [])).
Proof. reflexivity. Qed.

Lemma midi_octave_shift :
  map midiOf (rects (PianoToken.octaveBody shift act rt pl o []))
  = map (fun r => midiOf r + 12 * shift)
      (rects (PianoToken.octaveBody 0 act rt pl o [])).
Proof.
  unroll_octave. observe. unfold PianoToken.START_OCTAVE.
  repeat (f_equal; try lia).
Qed.

Lemma absolute_octave :
  map (fun r => Theory.midi_octave (midiOf r))
    (rects (PianoToken.octaveBody shift act rt pl o []))
  = repeat (PianoToken.START_OCTAVE + o + shift) 12.
Proof.
  unroll_octave. observe. rewrite !midi_octave_key by lia. reflexivity.
Qed.

Lemma fill_octave_unpressed :
  map fill (rects (PianoToken.octaveBody shift act rt ∅ o []))
  = map fill (rects (PianoToken.octaveBody 0 act rt ∅ o [])).
Proof.
  unroll_octave. observe.
  unfold PianoToken.whiteFill, PianoToken.blackFill.
  rewrite !(bool_decide_eq_false_2 (_ ∈ ∅)) by apply not_elem_of_empty.
  reflexivity.
Qed.

(** The fill follows the MIDI number: moving the pressed notes along with
    the keys gives the same fills. *)
Lemma pressed_shifted (a : Z) :
  bool_decide ((PianoToken.START_OCTAVE + o + shift + 1) * 12 + a
               ∈ (set_map (fun m => m + 12 * shift) pl : gset Z))
  = bool_decide ((PianoToken.START_OCTAVE + o + 0 + 1) * 12 + a ∈ pl).
Proof.
  apply bool_decide_ext. rewrite elem_of_map. split.
  - intros (y & Hy & Hin).
    replace ((PianoToken.START_OCTAVE + o + 0 + 1) * 12 + a) with y by lia.
    exact Hin.
  - intros Hin. eexists. split; [| exact Hin]. lia.
Qed.

Lemma fill_octave_shifted :
  map fill
    (rects (PianoToken.octaveBody shift act rt
              (set_map (fun m => m + 12 * shift) pl) o []))
  = map fill (rects (PianoToken.octaveBody 0 act rt pl o [])).
Proof.
  unroll_octave. observe.
  unfold PianoToken.whiteFill, PianoToken.blackFill.
  rewrite !pressed_shifted. reflexivity.
Qed.
End ShiftFacts.

(** C5. For every octave shift the position and size of every rendered
    element are those at shift 0, as are stroke and corner radii; the shift
    moves the MIDI note of every key by twelve per step, so that the keys of
    octave o lie in the absolute octave [START_OCTAVE + o + octaveShift],
    which is also what the label reads; the fill of a key follows its MIDI
    note, so the fills are unchanged when no key is pressed, and when the
    pressed notes move along with the keys. *)
Theorem C5_octave_shift_keeps_geometry :
  forall n shift act rt pl,
    let shifted := PianoToken.keys n shift act rt pl in
    let base := PianoToken.keys n 0 act rt pl in
    map geometry shifted = map geometry base
    /\ map (fun r => (stroke r, rx r, ry r)) (rects shifted)
       = map (fun r => (stroke r, rx r, ry r)) (rects base)
    /\ map midiOf (rects shifted)
       = map (fun r => midiOf r + 12 * shift) (rects base)
    /\ map (fun r => Theory.midi_octave (midiOf r)) (rects shifted)
       = flat_map (fun o => repeat (PianoToken.START_OCTAVE + o + shift) 12)
           (seqZ 0 n)
    /\ map children (texts shifted)
       = map (fun o => "C" +:+ toString (PianoToken.START_OCTAVE + o + shift))
           (seqZ 0 n)
    /\ map fill (rects (PianoToken.keys n shift act rt ∅))
       = map fill (rects (PianoToken.keys n 0 act rt ∅))
    /\ map fill
         (rects (PianoToken.keys n shift act rt
                   (set_map (fun m => m + 12 * shift) pl)))
       = map fill (rects base).
Proof.
  intros n shift act rt pl shifted base. subst shifted base.
  rewrite !PianoToken_keys_octaves. conjs.
  - rewrite !(observe_flat_map (map geometry));
      [| reflexivity | intros; apply map_app | reflexivity
       | intros; apply map_app].
    apply flat_map_ext. intros o. apply geometry_octave.
  - rewrite !(observe_flat_map
                (fun es => map (fun r => (stroke r, rx r, ry r)) (rects es)));
      [| reflexivity | intros; now rewrite rects_app, map_app | reflexivity
       | intros; now rewrite rects_app, map_app].
    apply flat_map_ext. intros o. apply frame_octave.
  - rewrite (observe_flat_map (fun es => map midiOf (rects es)));
      [| reflexivity | intros; now rewrite rects_app, map_app].
    rewrite (observe_flat_map
               (fun es => map (fun r => midiOf r + 12 * shift) (rects es)));
      [| reflexivity | intros; now rewrite rects_app, map_app].
    apply flat_map_ext. intros o. apply midi_octave_shift.
  - rewrite (observe_flat_map
               (fun es => map (fun r => Theory.midi_octave (midiOf r))
                            (rects es)));
      [| reflexivity | intros; now rewrite rects_app, map_app].
    apply flat_map_ext. intros o. apply absolute_octave.
  - rewrite (observe_flat_map (fun es => map children (texts es)));
      [| reflexivity | intros; now rewrite texts_app, map_app].
    generalize (seqZ 0 n) as os. induction os as [|o os IH]; cbn [flat_map map].
    + reflexivity.
    + rewrite IH. reflexivity.
  - rewrite !(observe_flat_map (fun es => map fill (rects es)));
      [| reflexivity | intros; now rewrite rects_app, map_app | reflexivity
       | intros; now rewrite rects_app, map_app].
    apply flat_map_ext. intros o. apply fill_octave_unpressed.
  - rewrite !(observe_flat_map (fun es => map fill (rects es)));
      [| reflexivity | intros; now rewrite rects_app, map_app | reflexivity
       | intros; now rewrite rects_app, map_app].
    apply flat_map_ext. intros o. apply fill_octave_shifted.
Qed.

(* ===================================================================== *)
(** ** Octave shifter                                                    *)
(* ===================================================================== *)

Lemma click_bounded (c : PianoToken.ShiftClick) (s : Z) :
  -2 <= s <= 2 -> -2 <= PianoToken.click c s <= 2.
Proof.
  intros H. destruct c; unfold PianoToken.click, PianoToken.downDisabled,
    PianoToken.upDisabled, PianoToken.shiftDown, PianoToken.shiftUp.
  - destruct (Z.leb_spec s (-2)); lia.
  - destruct (Z.geb_spec s 2); lia.
Qed.

(** An enabled click on the right button lands on +2 from anywhere. *)
Lemma shiftUp_lands_on_two (s : Z) : s < 2 -> PianoToken.shiftUp s = 2.
Proof. unfold PianoToken.shiftUp. lia. Qed.

(** C8. Starting from 0, after any sequence of clicks on the two octave
    buttons, each firing only while its button is enabled, the octave
    shift lies in -2..2. *)
Theorem C8_octave_shift_bounded :
  forall cs : list PianoToken.ShiftClick, -2 <= PianoToken.clicks cs <= 2.
Proof.
  intros cs. unfold PianoToken.clicks.
  assert (H : -2 <= 0 <= 2) by lia. revert H. generalize 0 as s.
  induction cs as [|c cs IH]; intros s H; simpl; [exact H |].
  apply IH, click_bounded, H.
Qed.

(* ===================================================================== *)
(** ** Presets                                                           *)
(* ===================================================================== *)

Lemma filter_keeps_all {A : Type} (f : A -> bool) (l : list A) :
  (forall a, In a l -> f a = true) -> List.filter f l = l.
Proof.
  induction l as [|a l IH]; intros H; simpl; [reflexivity |].
  rewrite (H a) by (now left). f_equal. apply IH. intros b Hb. apply H. now right.
Qed.

Lemma newestFirst_filter (f : App.Preset -> bool) (l : list App.Preset) :
  App.newestFirst l -> App.newestFirst (List.filter f l).
Proof.
  unfold App.newestFirst. induction 1 as [|p l Hl IH Hp]; simpl.
  - constructor.
  - destruct (f p); [| exact IH]. constructor; [exact IH |].
    apply List.Forall_forall. intros q Hq. apply filter_In in Hq as [Hq _].
    rewrite List.Forall_forall in Hp. now apply Hp.
Qed.

(** C9. Deleting an id that no preset of the list has leaves the list as it
    is; saving, when there is a current result, puts the new preset in
    front of the list, which stays most-recent-first when the clock has not
    gone back behind the presets already there (without a current result
    saving does nothing); a deletion keeps that order too; and after either
    operation the storage slot holds the serialization of the whole new
    list. *)
Theorem C9_presets_delete_and_save :
  forall (JSON_stringify : list App.Preset -> string) (st : App.State),
    (forall i,
        (forall p, In p (App.presets st) -> App.id p <> i) ->
        App.presets (App.handleDeletePreset JSON_stringify i st)
        = App.presets st)
    /\ (forall d now1 now2,
          App.current st = Some d ->
          let st' := App.handleSavePreset JSON_stringify now1 now2 st in
          App.presets st'
          = {| App.id := toString now1;
               App.name := App.root d +:+ " " +:+ App.type d;
               App.data := d;
               App.timestamp := now2 |} :: App.presets st
          /\ App.localStorage st' !! "theorygen_presets"
             = Some (JSON_stringify (App.presets st'))
          /\ (App.newestFirst (App.presets st) ->
              (forall p, In p (App.presets st) -> App.timestamp p <= now2) ->
              App.newestFirst (App.presets st')))
    /\ (forall now1 now2,
          App.current st = None ->
          App.handleSavePreset JSON_stringify now1 now2 st = st)
    /\ (forall i,
          let st' := App.handleDeletePreset JSON_stringify i st in
          App.localStorage st' !! "theorygen_presets"
          = Some (JSON_stringify (App.presets st'))
          /\ (App.newestFirst (App.presets st) ->
              App.newestFirst (App.presets st'))).
Proof.
  intros JSON_stringify st. conjs.
  - intros i H. unfold App.handleDeletePreset, App.store. simpl.
    apply filter_keeps_all. intros p Hp. apply negb_true_iff.
    apply String.eqb_neq. by apply H.
  - intros d now1 now2 Hd st'. subst st'.
    unfold App.handleSavePreset. rewrite Hd. unfold App.store. simpl. conjs.
    + reflexivity.
    + apply lookup_insert_eq.
    + intros Hs Hle. constructor; [exact Hs |].
      apply List.Forall_forall. intros p Hp. simpl. now apply Hle.
  - intros now1 now2 Hd. unfold App.handleSavePreset. now rewrite Hd.
  - intros i st'. subst st'. unfold App.handleDeletePreset, App.store. simpl.
    split; [apply lookup_insert_eq | apply newestFirst_filter].
Qed.

Lemma C9_presets_delete_and_save_witness :
  let d := {| App.root := "F#"; App.type := "Dominant 7th Chord";
              App.category := App.chord;
              App.notes := ["F#"; "A#"; "C#"; "E"];
              App.intervals := ["1"; "3"; "5"; "b7"];
              App.description := ""; App.keySignature := None |} in
  let old := {| App.id := "1000"; App.name := "C Major"; App.data := d;
                App.timestamp := 1000 |} in
  let st := {| App.current := Some d; App.presets := [old];
               App.localStorage := ∅ |} in
  let count := fun l : list App.Preset => toString (Z.of_nat (length l)) in
  App.presets (App.handleDeletePreset count "7" st) = [old]
  /\ App.presets (App.handleSavePreset count 2000 2000 st)
     = [ {| App.id := "2000"; App.name := "F# Dominant 7th Chord";
            App.data := d; App.timestamp := 2000 |}; old ]
  /\ App.newestFirst (App.presets (App.handleSavePreset count 2000 2000 st)).
Proof.
  intros d old st count.
  destruct (C9_presets_delete_and_save count st) as (Hdel & Hsave & _).
  split.
  - apply (Hdel "7"). intros p [<- | []]. discriminate.
  - destruct (Hsave d 2000 2000 eq_refl) as (Hp & _ & Hs).
    split; [exact Hp |]. apply Hs.
    + repeat constructor.
    + intros p [<- | []]. simpl. lia.
Defined.

(* ===================================================================== *)
(** ** Voices                                                            *)
(* ===================================================================== *)

(** Taking out of the pressed set a note that is not in it. *)
Lemma set_playingNotes_absent (m : Z) (st : PianoToken.State) :
  m ∉ PianoToken.playingNotes st ->
  PianoToken.set_playingNotes (PianoToken.playingNotes st ∖ {[m]}) st = st.
Proof.
  intros H. destruct st as [t h n c os gs om gm pn ts]. cbn in H |- *.
  unfold PianoToken.set_playingNotes. cbn. f_equal.
  apply set_eq. intros k. rewrite elem_of_difference, elem_of_singleton.
  split; [tauto | intros Hk; split; [exact Hk | congruence]].
Qed.

Section VoiceFacts.
Import PianoToken.
Variable Math_pow : Q -> Q -> Q.
Variable paramValue : list ParamCall -> Q -> Q.

Lemma set_audioContextRef_same st :
  set_audioContextRef (audioContextRef st) st = st.
Proof. now destruct st. Qed.

(** After [initAudio] the context is absent or running. *)
Lemma initAudio_context st :
  audioContextRef (initAudio st) = None
  \/ audioContextRef (initAudio st) = Some running.
Proof.
  destruct st as [t h n [[|]|] os gs om gm pn ts]; try destruct h;
    try destruct n; cbv; auto.
Qed.

(** [initAudio] touches the context reference only. *)
Lemma initAudio_frame st :
  initAudio st = set_audioContextRef (audioContextRef (initAudio st)) st.
Proof.
  destruct st as [t h n [[|]|] os gs om gm pn ts]; try destruct h;
    try destruct n; reflexivity.
Qed.

Lemma initAudio_running st :
  audioContextRef st = Some running -> initAudio st = st.
Proof. intros E. unfold initAudio. rewrite E. cbv zeta iota. now rewrite E. Qed.

Lemma initAudio_idempotent st : initAudio (initAudio st) = initAudio st.
Proof.
  destruct st as [t h n [[|]|] os gs om gm pn ts]; try destruct h;
    try destruct n; reflexivity.
Qed.

(** A key that goes down while its note has a voice changes nothing but,
    possibly, the state of the context. *)
Lemma playNoteStart_existing w m st :
  is_Some (oscillatorsRef st !! m) ->
  playNoteStart Math_pow w m st = initAudio st.
Proof.
  intros H. unfold playNoteStart.
  destruct (audioContextRef (initAudio st)) eqn:E; [| reflexivity].
  assert (Hosc : oscillatorsRef (initAudio st) = oscillatorsRef st)
    by (rewrite initAudio_frame; reflexivity).
  rewrite Hosc. now rewrite bool_decide_eq_true_2.
Qed.

Lemma playNoteStart_idempotent w w' m st :
  playNoteStart Math_pow w' m (playNoteStart Math_pow w m st)
  = playNoteStart Math_pow w m st.
Proof.
  unfold playNoteStart at 2 3.
  destruct (audioContextRef (initAudio st)) as [c|] eqn:E.
  - destruct (bool_decide (is_Some (oscillatorsRef (initAudio st) !! m)))
      eqn:B.
    + apply bool_decide_eq_true_1 in B.
      rewrite playNoteStart_existing by exact B.
      apply initAudio_idempotent.
    + rewrite playNoteStart_existing
        by (simpl; rewrite lookup_insert_eq; eauto).
      apply initAudio_running. simpl.
      destruct (initAudio_context st) as [E' | E']; congruence.
  - unfold playNoteStart. rewrite initAudio_idempotent. now rewrite E.
Qed.

(** The first key-down of a note, with a context at hand. *)
Lemma playNoteStart_new w m st c :
  audioContextRef (initAudio st) = Some c ->
  oscillatorsRef st !! m = None ->
  let st' := playNoteStart Math_pow w m st in
  length (oscillatorNodes st') = S (length (oscillatorNodes st))
  /\ length (gainNodes st') = S (length (gainNodes st))
  /\ oscillatorsRef st' = <[m := length (oscillatorNodes st)]> (oscillatorsRef st)
  /\ gainNodesRef st' = <[m := length (gainNodes st)]> (gainNodesRef st)
  /\ playingNotes st' = playingNotes st ∪ {[m]}
  /\ timeouts st' = timeouts st
  /\ audioContextRef st' = Some c.
Proof.
  intros E Hm st'. subst st'. unfold playNoteStart. rewrite E.
  rewrite (initAudio_frame st). cbn [oscillatorsRef set_audioContextRef].
  rewrite Hm. rewrite bool_decide_eq_false_2 by (intros [? ?]; discriminate).
  cbn. rewrite !length_app. cbn. conjs; try reflexivity; lia.
Qed.

(** *** Key-up *)

Lemma playNoteStop_playingNotes s m st :
  playingNotes (playNoteStop paramValue s m st) = playingNotes st ∖ {[m]}.
Proof.
  unfold playNoteStop.
  destruct (audioContextRef st), (oscillatorsRef st !! m),
    (gainNodesRef st !! m); reflexivity.
Qed.

Lemma playNoteStop_refs s m st :
  oscillatorsRef (playNoteStop paramValue s m st) = oscillatorsRef st
  /\ gainNodesRef (playNoteStop paramValue s m st) = gainNodesRef st.
Proof.
  unfold playNoteStop.
  destruct (audioContextRef st), (oscillatorsRef st !! m),
    (gainNodesRef st !! m); split; reflexivity.
Qed.

Lemma playNoteStop_context s m st :
  audioContextRef (playNoteStop paramValue s m st) = audioContextRef st.
Proof.
  unfold playNoteStop.
  destruct (audioContextRef st) eqn:E, (oscillatorsRef st !! m),
    (gainNodesRef st !! m); cbn; now rewrite ?E.
Qed.

Lemma playNoteStop_no_voice s m st :
  oscillatorsRef st !! m = None ->
  playNoteStop paramValue s m st
  = set_playingNotes (playingNotes st ∖ {[m]}) st.
Proof.
  intros H. unfold playNoteStop. rewrite H.
  destruct (audioContextRef st); reflexivity.
Qed.

(** *** The clean-up callbacks *)

Lemma cleanups_None (fired : list (Q * Z)) st m :
  oscillatorsRef st !! m = None /\ gainNodesRef st !! m = None ->
  oscillatorsRef (fold_left (fun s tm => cleanup (snd tm) s) fired st) !! m
  = None
  /\ gainNodesRef (fold_left (fun s tm => cleanup (snd tm) s) fired st) !! m
     = None.
Proof.
  revert st. induction fired as [|tm fired IH]; intros st [Ho Hg]; cbn [fold_left].
  - now split.
  - apply IH. cbn. split.
    + destruct (decide (snd tm = m)) as [-> | Hne];
        [apply lookup_delete_eq | now rewrite lookup_delete_ne].
    + destruct (decide (snd tm = m)) as [-> | Hne];
        [apply lookup_delete_eq | now rewrite lookup_delete_ne].
Qed.

Lemma cleanups_in (fired : list (Q * Z)) st m :
  In m (map snd fired) ->
  oscillatorsRef (fold_left (fun s tm => cleanup (snd tm) s) fired st) !! m
  = None
  /\ gainNodesRef (fold_left (fun s tm => cleanup (snd tm) s) fired st) !! m
     = None.
Proof.
  revert st. induction fired as [|tm fired IH]; intros st; cbn [fold_left map In].
  - intros [].
  - intros [<- | H]; [| now apply IH].
    apply cleanups_None. cbn. split; apply lookup_delete_eq.
Qed.

Lemma cleanups_notin (fired : list (Q * Z)) st m :
  ~ In m (map snd fired) ->
  oscillatorsRef (fold_left (fun s tm => cleanup (snd tm) s) fired st) !! m
  = oscillatorsRef st !! m
  /\ gainNodesRef (fold_left (fun s tm => cleanup (snd tm) s) fired st) !! m
     = gainNodesRef st !! m.
Proof.
  revert st. induction fired as [|tm fired IH]; intros st; cbn [fold_left map In].
  - now split.
  - intros H. destruct (IH (cleanup (snd tm) st)) as [Ho Hg]; [tauto |].
    rewrite Ho, Hg. cbn. rewrite !lookup_delete_ne by tauto. now split.
Qed.

Lemma cleanups_playingNotes (fired : list (Q * Z)) st :
  playingNotes (fold_left (fun s tm => cleanup (snd tm) s) fired st)
  = playingNotes st.
Proof.
  revert st. induction fired as [|tm fired IH]; intros st; cbn [fold_left].
  - reflexivity.
  - now rewrite IH.
Qed.

Lemma advanceTo_playingNotes t st :
  playingNotes (advanceTo t st) = playingNotes st.
Proof. unfold advanceTo. cbn. apply cleanups_playingNotes. Qed.

(** The clean-up is due after the end of the release ramp. *)
Lemma cleanup_after_release (sustain : bool) (now : Q) :
  (now + releaseTime sustain < now + cleanupDelay (releaseTime sustain))%Q.
Proof.
  destruct sustain; unfold releaseTime.
  - assert (H : (cleanupDelay 1.5 == 1.55)%Q) by reflexivity. rewrite H. lra.
  - assert (H : (cleanupDelay 0.2 == 0.25)%Q) by reflexivity. rewrite H. lra.
Qed.

Lemma releaseTime_positive (sustain : bool) : (0 < releaseTime sustain)%Q.
Proof. destruct sustain; reflexivity. Qed.

(** The clock after [advanceTo t]. *)
Lemma advanceTo_clock t st :
  (currentTime st <= currentTime (advanceTo t st))%Q
  /\ (t <= currentTime (advanceTo t st))%Q
  /\ (currentTime (advanceTo t st) == t
      \/ currentTime (advanceTo t st) == currentTime st)%Q.
Proof.
  unfold advanceTo. cbn.
  destruct (Qle_bool (currentTime st) t) eqn:E.
  - apply Qle_bool_iff in E. conjs; [exact E | lra | left; reflexivity].
  - assert (H : ~ (currentTime st <= t)%Q)
      by (intros H; apply Qle_bool_iff in H; congruence).
    conjs; [lra | lra | right; reflexivity].
Qed.

Lemma advanceTo_refs t st :
  let t' := currentTime (advanceTo t st) in
  oscillatorsRef (advanceTo t st)
  = oscillatorsRef (fold_left (fun s tm => cleanup (snd tm) s)
                      (List.filter (isDue t') (timeouts st)) st)
  /\ gainNodesRef (advanceTo t st)
     = gainNodesRef (fold_left (fun s tm => cleanup (snd tm) s)
                       (List.filter (isDue t') (timeouts st)) st).
Proof. split; reflexivity. Qed.

(** Once the clean-up of a key-up is due, the record of the note is gone. *)
Lemma record_deleted_when_due t st due m :
  In (due, m) (timeouts st) -> (due <= t)%Q ->
  oscillatorsRef (advanceTo t st) !! m = None
  /\ gainNodesRef (advanceTo t st) !! m = None.
Proof.
  intros Hin Hdue. destruct (advanceTo_refs t st) as [-> ->].
  apply cleanups_in. apply in_map_iff. exists (due, m). split; [reflexivity |].
  apply filter_In. split; [exact Hin |].
  unfold isDue. cbn [fst]. apply Qle_bool_iff.
  destruct (advanceTo_clock t st) as (_ & H & _).
  apply Qle_trans with t; assumption.
Qed.

(** Until then it stays, unless an earlier key-up of the same note has
    left a clean-up behind. *)
Lemma record_kept_until_due t st m :
  (forall tm, In tm (timeouts st) -> snd tm = m ->
              (currentTime st < fst tm)%Q /\ (t < fst tm)%Q) ->
  oscillatorsRef (advanceTo t st) !! m = oscillatorsRef st !! m
  /\ gainNodesRef (advanceTo t st) !! m = gainNodesRef st !! m.
Proof.
  intros H. destruct (advanceTo_refs t st) as [-> ->].
  apply cleanups_notin. intros Hin.
  apply in_map_iff in Hin as (tm & Hm & Hin).
  apply filter_In in Hin as [Hin Hdue].
  destruct (H tm Hin Hm) as [H1 H2].
  unfold isDue in Hdue. apply Qle_bool_iff in Hdue.
  destruct (advanceTo_clock t st) as (_ & _ & [E | E]); rewrite E in Hdue; lra.
Qed.
End VoiceFacts.

(** C6. A key-down for a note that has a voice creates no node, registers
    nothing and leaves the pressed set and the pending clean-ups alone: it
    is [initAudio] only, and nothing at all when the context is running.
    That is so too while the voice is being released, its record not yet
    deleted. Hence a second key-down after a first is without effect, and
    two key-downs of MIDI 60 on a fresh component leave exactly one
    oscillator and one gain node, registered under 60. *)
Theorem C6_key_down_on_sounding_note_is_noop :
  forall (Math_pow : Q -> Q -> Q) (paramValue : list PianoToken.ParamCall -> Q -> Q),
    (forall w m st,
        is_Some (PianoToken.oscillatorsRef st !! m) ->
        let st' := PianoToken.playNoteStart Math_pow w m st in
        st' = PianoToken.initAudio st
        /\ PianoToken.oscillatorNodes st' = PianoToken.oscillatorNodes st
        /\ PianoToken.gainNodes st' = PianoToken.gainNodes st
        /\ PianoToken.oscillatorsRef st' = PianoToken.oscillatorsRef st
        /\ PianoToken.gainNodesRef st' = PianoToken.gainNodesRef st
        /\ PianoToken.playingNotes st' = PianoToken.playingNotes st
        /\ PianoToken.timeouts st' = PianoToken.timeouts st
        /\ (PianoToken.audioContextRef st = Some PianoToken.running ->
            st' = st))
    /\ (forall w s m st,
          is_Some (PianoToken.oscillatorsRef st !! m) ->
          let releasing := PianoToken.playNoteStop paramValue s m st in
          PianoToken.playNoteStart Math_pow w m releasing
          = PianoToken.initAudio releasing)
    /\ (forall w w' m st,
          PianoToken.playNoteStart Math_pow w' m
            (PianoToken.playNoteStart Math_pow w m st)
          = PianoToken.playNoteStart Math_pow w m st)
    /\ (forall now fresh,
          let st := PianoToken.run Math_pow paramValue
                      [ PianoToken.KeyDown PianoToken.sine 60;
                        PianoToken.KeyDown PianoToken.sine 60 ]
                      (PianoToken.initial now true fresh) in
          length (PianoToken.oscillatorNodes st) = 1%nat
          /\ length (PianoToken.gainNodes st) = 1%nat
          /\ PianoToken.oscillatorsRef st = {[ 60 := 0%nat ]}
          /\ PianoToken.gainNodesRef st = {[ 60 := 0%nat ]}
          /\ PianoToken.playingNotes st = {[ 60 ]}).
Proof.
  intros Math_pow paramValue. conjs.
  - intros w m st H st'. subst st'.
    rewrite (playNoteStart_existing Math_pow w m st H).
    conjs; try (rewrite initAudio_frame; reflexivity).
    apply initAudio_running.
  - intros w s m st H releasing. subst releasing.
    apply playNoteStart_existing.
    now rewrite (proj1 (playNoteStop_refs paramValue s m st)).
  - intros. apply playNoteStart_idempotent.
  - intros now fresh st. subst st. unfold PianoToken.run. cbn [fold_left].
    unfold PianoToken.step. rewrite playNoteStart_idempotent.
    assert (E : exists c, PianoToken.audioContextRef
                            (PianoToken.initAudio
                               (PianoToken.initial now true fresh)) = Some c)
      by (destruct fresh; eexists; reflexivity).
    destruct E as [c E].
    destruct (playNoteStart_new Math_pow PianoToken.sine 60 _ c E
                (lookup_empty 60))
      as (H1 & H2 & H3 & H4 & H5 & _).
    rewrite H1, H2, H3, H4, H5. cbn.
    conjs; reflexivity.
Qed.

Lemma C6_key_down_on_sounding_note_is_noop_witness :
  let pow := fun _ _ : Q => 1%Q in
  let pv := fun (_ : list PianoToken.ParamCall) (_ : Q) => 0.3%Q in
  let st := PianoToken.playNoteStart pow PianoToken.sine 60
              (PianoToken.initial 0 true PianoToken.running) in
  PianoToken.playNoteStart pow PianoToken.square 60 st = st
  /\ PianoToken.playNoteStart pow PianoToken.square 60
       (PianoToken.playNoteStop pv false 60 st)
     = PianoToken.initAudio (PianoToken.playNoteStop pv false 60 st).
Proof.
  intros pow pv st.
  assert (H : is_Some (PianoToken.oscillatorsRef st !! 60))
    by (exists 0%nat; vm_compute; reflexivity).
  destruct (C6_key_down_on_sounding_note_is_noop pow pv) as (H1 & H2 & _).
  split.
  - destruct (H1 PianoToken.square 60 st H) as (_ & _ & _ & _ & _ & _ & _ & Hr).
    apply Hr. reflexivity.
  - apply (H2 PianoToken.square false 60 st H).
Defined.

Section ReleaseFacts.
Import PianoToken.
Variable paramValue : list ParamCall -> Q -> Q.

(** What a key-up does to a note that has a voice. *)
Lemma playNoteStop_voice sustain m st c o g :
  audioContextRef st = Some c ->
  oscillatorsRef st !! m = Some o ->
  gainNodesRef st !! m = Some g ->
  let now := currentTime st in
  let rt := releaseTime sustain in
  let st' := playNoteStop paramValue sustain m st in
  currentTime st' = now
  /\ oscillatorNodes st' = alter (stopAt (now + rt)%Q) o (oscillatorNodes st)
  /\ gainNodes st' = alter (release paramValue now rt) g (gainNodes st)
  /\ timeouts st' = timeouts st ++ [((now + cleanupDelay rt)%Q, m)].
Proof.
  intros Hc Ho Hg now rt st'. subst st'. unfold playNoteStop.
  rewrite Hc, Ho, Hg. conjs; reflexivity.
Qed.

(** During the release, and somewhat beyond, the record stays. *)
Lemma record_survives_release sustain m st c o g t :
  audioContextRef st = Some c ->
  oscillatorsRef st !! m = Some o ->
  gainNodesRef st !! m = Some g ->
  (forall tm, In tm (timeouts st) -> snd tm <> m) ->
  (t <= currentTime st + releaseTime sustain)%Q ->
  let st' := playNoteStop paramValue sustain m st in
  oscillatorsRef (advanceTo t st') !! m = Some o
  /\ gainNodesRef (advanceTo t st') !! m = Some g.
Proof.
  intros Hc Ho Hg Hnone Ht st'.
  destruct (playNoteStop_voice sustain m st c o g Hc Ho Hg)
    as (Hnow & _ & _ & Hts).
  destruct (playNoteStop_refs paramValue sustain m st) as [Ro Rg].
  fold st' in Hnow, Hts, Ro, Rg.
  destruct (record_kept_until_due t st' m) as [Ko Kg].
  - intros tm Hin Hm. rewrite Hts in Hin. apply in_app_or in Hin as [Hin | Hin].
    + now destruct (Hnone tm Hin).
    + destruct Hin as [<- | []]. cbn [fst]. rewrite Hnow.
      pose proof (cleanup_after_release sustain (currentTime st)).
      pose proof (releaseTime_positive sustain). split; lra.
  - rewrite Ko, Kg, Ro, Rg. now split.
Qed.
End ReleaseFacts.

Section Reachable.
Import PianoToken.
Variable Math_pow : Q -> Q -> Q.
Variable paramValue : list ParamCall -> Q -> Q.

Lemma records_agree_initAudio st :
  records_agree st -> records_agree (initAudio st).
Proof.
  intros [H1 H2]. rewrite initAudio_frame. split; [exact H1 |].
  intros m Hm. cbn in Hm. destruct (H2 m Hm) as [c Hc]. cbn.
  unfold initAudio. rewrite Hc. destruct c; cbn; rewrite ?Hc; eauto.
Qed.

Lemma records_agree_cleanup m st :
  records_agree st -> records_agree (cleanup m st).
Proof.
  intros [H1 H2]. split; cbn.
  - intros k. destruct (decide (m = k)) as [-> | Hne].
    + rewrite !lookup_delete_eq. split; intros [? ?]; discriminate.
    + rewrite !lookup_delete_ne by exact Hne. apply H1.
  - intros k. destruct (decide (m = k)) as [-> | Hne].
    + rewrite lookup_delete_eq. intros [? ?]; discriminate.
    + rewrite lookup_delete_ne by exact Hne. apply H2.
Qed.

Lemma records_agree_step st e :
  records_agree st -> records_agree (step Math_pow paramValue st e).
Proof.
  intros H. destruct e as [w m | s m | t]; cbn [step].
  - apply records_agree_initAudio in H. unfold playNoteStart.
    destruct (audioContextRef (initAudio st)) as [c|] eqn:Ec; [| exact H].
    destruct (bool_decide (is_Some (oscillatorsRef (initAudio st) !! m)));
      [exact H |].
    destruct H as [H1 H2].
    split; cbn [oscillatorsRef gainNodesRef audioContextRef].
    + intros k. destruct (decide (m = k)) as [-> | Hne].
      * rewrite !lookup_insert_eq. split; eauto.
      * rewrite !lookup_insert_ne by exact Hne. apply H1.
    + intros k _. eauto.
  - destruct H as [H1 H2]. split.
    + intros k. destruct (playNoteStop_refs paramValue s m st) as [-> ->].
      apply H1.
    + intros k. rewrite playNoteStop_context.
      destruct (playNoteStop_refs paramValue s m st) as [-> _]. apply H2.
  - assert (G : forall (fired : list (Q * Z)) s0,
               records_agree s0 ->
               records_agree
                 (fold_left (fun s tm => cleanup (snd tm) s) fired s0)).
    { induction fired as [|tm fired IH]; intros s0 H0; cbn [fold_left];
        [exact H0 | apply IH, records_agree_cleanup, H0]. }
    exact (G _ st H).
Qed.

(** In every state that a component reaches, a note with an oscillator
    record has a gain record and a context: it has a voice. *)
Lemma reachable_records_agree now hasCtx fresh es :
  records_agree (run Math_pow paramValue es (initial now hasCtx fresh)).
Proof.
  unfold run.
  assert (H : records_agree (initial now hasCtx fresh)).
  { split; cbn; intros m; rewrite ?lookup_empty;
      [split |]; intros [? ?]; discriminate. }
  revert H. generalize (initial now hasCtx fresh) as st.
  induction es as [|e es IH]; intros st H; cbn [fold_left]; [exact H |].
  apply IH, records_agree_step, H.
Qed.
End Reachable.

(** What a key-up does. For a note that has a voice it cancels the
    scheduled gain changes, pins the gain at its present value, ramps it
    exponentially to 0.001 (not zero) over 0.2 s, or over 1.5 s with sustain
    on, stops the oscillator at the end of that ramp, and leaves a clean-up
    due strictly later; the record is still there when the key-up returns,
    and is gone once the clean-up is due. That the record stays up to the
    end of the ramp holds when no older clean-up of the note is pending,
    and not in general, as the run at the end of this part shows. A
    key-up for a note without a voice does none of this: it creates,
    schedules and deletes nothing and only takes the note out of the
    pressed set, so that it leaves the state as it is when the note is not
    in that set, as after key-down, key-up and the release window. *)
Lemma key_up_releases_then_deletes :
  forall (Math_pow : Q -> Q -> Q)
         (paramValue : list PianoToken.ParamCall -> Q -> Q)
         (sustain : bool) (m : Z) (st : PianoToken.State),
    let now := PianoToken.currentTime st in
    let rt := PianoToken.releaseTime sustain in
    let st' := PianoToken.playNoteStop paramValue sustain m st in
    rt = (if sustain then 1.5%Q else 0.2%Q)
    /\ (forall c o g,
          PianoToken.audioContextRef st = Some c ->
          PianoToken.oscillatorsRef st !! m = Some o ->
          PianoToken.gainNodesRef st !! m = Some g ->
          (forall gn,
              PianoToken.gainNodes st !! g = Some gn ->
              PianoToken.gainNodes st' !! g
              = Some {| PianoToken.gain :=
                          PianoToken.gain gn ++
                          [ PianoToken.cancelScheduledValues now;
                            PianoToken.setValueAtTime
                              (paramValue
                                 (PianoToken.gain gn ++
                                  [PianoToken.cancelScheduledValues now]) now)
                              now;
                            PianoToken.exponentialRampToValueAtTime 0.001
                              (now + rt)%Q ];
                        PianoToken.toDestination :=
                          PianoToken.toDestination gn |})
          /\ (forall osc,
                PianoToken.oscillatorNodes st !! o = Some osc ->
                exists osc',
                  PianoToken.oscillatorNodes st' !! o = Some osc'
                  /\ PianoToken.stop osc'
                     = PianoToken.stop osc ++ [(now + rt)%Q]
                  /\ PianoToken.start osc' = PianoToken.start osc)
          /\ (0 < 0.001)%Q
          /\ PianoToken.timeouts st'
             = PianoToken.timeouts st
               ++ [((now + PianoToken.cleanupDelay rt)%Q, m)]
          /\ (now + rt < now + PianoToken.cleanupDelay rt)%Q
          /\ PianoToken.oscillatorsRef st' !! m = Some o
          /\ PianoToken.gainNodesRef st' !! m = Some g
          /\ (forall t,
                (now + PianoToken.cleanupDelay rt <= t)%Q ->
                PianoToken.oscillatorsRef (PianoToken.advanceTo t st') !! m
                = None
                /\ PianoToken.gainNodesRef (PianoToken.advanceTo t st') !! m
                   = None)
          /\ (forall t,
                (t <= now + rt)%Q ->
                (forall tm, In tm (PianoToken.timeouts st) -> snd tm <> m) ->
                PianoToken.oscillatorsRef (PianoToken.advanceTo t st') !! m
                = Some o
                /\ PianoToken.gainNodesRef (PianoToken.advanceTo t st') !! m
                   = Some g))
    /\ (PianoToken.oscillatorsRef st !! m = None ->
        st' = PianoToken.set_playingNotes
                (PianoToken.playingNotes st ∖ {[m]}) st
        /\ (m ∉ PianoToken.playingNotes st -> st' = st))
    /\ (forall fresh t,
          (now + 0.25 <= t)%Q ->
          let idle := PianoToken.run Math_pow paramValue
                        [ PianoToken.KeyDown PianoToken.sine 60;
                          PianoToken.KeyUp false 60;
                          PianoToken.Elapse t ]
                        (PianoToken.initial now true fresh) in
          PianoToken.oscillatorsRef idle !! 60 = None
          /\ PianoToken.gainNodesRef idle !! 60 = None
          /\ PianoToken.playNoteStop paramValue sustain 60 idle = idle).
Proof.
  intros Math_pow paramValue sustain m st now rt st'.
  split; [now destruct sustain |]. split; [| split].
  - intros c o g Hc Ho Hg.
    destruct (playNoteStop_voice paramValue sustain m st c o g Hc Ho Hg)
      as (Hnow & Hos & Hgs & Hts).
    destruct (playNoteStop_refs paramValue sustain m st) as [Ro Rg].
    fold now rt st' in Hnow, Hos, Hgs, Hts, Ro, Rg. conjs.
    + intros gn Hgn. rewrite Hgs, list_lookup_alter_eq, Hgn. cbn.
      unfold PianoToken.release. rewrite <- !app_assoc. reflexivity.
    + intros osc Hosc. eexists. rewrite Hos, list_lookup_alter_eq, Hosc. cbn.
      split; [reflexivity | split; reflexivity].
    + reflexivity.
    + exact Hts.
    + apply cleanup_after_release.
    + now rewrite Ro.
    + now rewrite Rg.
    + intros t Ht.
      apply (record_deleted_when_due t st'
               (now + PianoToken.cleanupDelay rt)%Q m); [| exact Ht].
      rewrite Hts. apply in_or_app. right. now left.
    + intros t Ht Hnone.
      apply (record_survives_release paramValue sustain m st c o g t);
        assumption.
  - intros Hnone. split.
    + now apply playNoteStop_no_voice.
    + intros Hm. subst st'. rewrite playNoteStop_no_voice by exact Hnone.
      now apply set_playingNotes_absent.
  - intros fresh t Ht idle. subst idle.
    unfold PianoToken.run. cbn [fold_left]. unfold PianoToken.step.
    set (s0 := PianoToken.initial now true fresh).
    set (s1 := PianoToken.playNoteStart Math_pow PianoToken.sine 60 s0).
    set (s2 := PianoToken.playNoteStop paramValue false 60 s1).
    assert (E : exists c, PianoToken.audioContextRef
                            (PianoToken.initAudio s0) = Some c)
      by (destruct fresh; eexists; reflexivity).
    destruct E as [c E].
    destruct (playNoteStart_new Math_pow PianoToken.sine 60 s0 c E
                (lookup_empty 60))
      as (_ & _ & H3 & H4 & _ & _ & H7).
    fold s1 in H3, H4, H7.
    assert (Ho : PianoToken.oscillatorsRef s1 !! 60 = Some 0%nat)
      by (rewrite H3; apply lookup_insert_eq).
    assert (Hg : PianoToken.gainNodesRef s1 !! 60 = Some 0%nat)
      by (rewrite H4; apply lookup_insert_eq).
    destruct (playNoteStop_voice paramValue false 60 s1 c _ _ H7 Ho Hg)
      as (_ & _ & _ & Hts).
    fold s2 in Hts.
    assert (Hnow : PianoToken.currentTime s1 = now)
      by (unfold s1, PianoToken.playNoteStart; rewrite E;
          destruct fresh; reflexivity).
    assert (Hgone :
      PianoToken.oscillatorsRef (PianoToken.advanceTo t s2) !! 60 = None
      /\ PianoToken.gainNodesRef (PianoToken.advanceTo t s2) !! 60 = None).
    { apply (record_deleted_when_due t s2
               (PianoToken.currentTime s1
                + PianoToken.cleanupDelay (PianoToken.releaseTime false))%Q).
      - rewrite Hts. apply in_or_app. right. now left.
      - rewrite Hnow.
        assert (H : (PianoToken.cleanupDelay (PianoToken.releaseTime false)
                     == 0.25)%Q) by reflexivity.
        rewrite H. exact Ht. }
    destruct Hgone as [Hgo Hgg]. conjs; try assumption.
    rewrite playNoteStop_no_voice by exact Hgo.
    apply set_playingNotes_absent.
    rewrite advanceTo_playingNotes. unfold s2.
    rewrite playNoteStop_playingNotes.
    rewrite elem_of_difference, elem_of_singleton. tauto.
Qed.

Example key_up_releases_then_deletes_at_60 :
  let pow := fun _ _ : Q => 1%Q in
  let pv := fun (_ : list PianoToken.ParamCall) (_ : Q) => 0.3%Q in
  let st := PianoToken.playNoteStart pow PianoToken.sine 60
              (PianoToken.initial 0 true PianoToken.running) in
  let st' := PianoToken.playNoteStop pv false 60 st in
  PianoToken.gainNodes st' !! 0%nat
  = Some {| PianoToken.gain :=
              [ PianoToken.setValueAtTime 0 0;
                PianoToken.linearRampToValueAtTime 0.3 (0 + 0.05) ]
              ++ [ PianoToken.cancelScheduledValues 0;
                   PianoToken.setValueAtTime 0.3 0;
                   PianoToken.exponentialRampToValueAtTime 0.001 (0 + 0.2) ];
            PianoToken.toDestination := true |}
  /\ PianoToken.oscillatorsRef (PianoToken.advanceTo 0.2 st') !! 60
     = Some 0%nat
  /\ PianoToken.oscillatorsRef (PianoToken.advanceTo 0.25 st') !! 60 = None
  /\ PianoToken.playNoteStop pv false 61 st = st.
Proof.
  intros pow pv st st'.
  destruct (key_up_releases_then_deletes pow pv false 60 st)
    as (_ & Hvoice & _ & _).
  destruct (key_up_releases_then_deletes pow pv false 61 st)
    as (_ & _ & Hnone & _).
  assert (Hc : PianoToken.audioContextRef st = Some PianoToken.running)
    by (vm_compute; reflexivity).
  assert (Ho : PianoToken.oscillatorsRef st !! 60 = Some 0%nat)
    by (vm_compute; reflexivity).
  assert (Hg : PianoToken.gainNodesRef st !! 60 = Some 0%nat)
    by (vm_compute; reflexivity).
  destruct (Hvoice PianoToken.running 0%nat 0%nat Hc Ho Hg)
    as (Hgain & _ & _ & _ & _ & _ & _ & Hgone & Hkept).
  split; [| split; [| split]].
  - apply (Hgain {| PianoToken.gain :=
                      [ PianoToken.setValueAtTime 0 0;
                        PianoToken.linearRampToValueAtTime 0.3 (0 + 0.05) ];
                    PianoToken.toDestination := true |}).
    reflexivity.
  - apply (Hkept 0.2%Q).
    + vm_compute. discriminate.
    + intros tm [].
  - apply (Hgone 0.25%Q). vm_compute. discriminate.
  - assert (H61 : PianoToken.oscillatorsRef st !! 61 = None)
      by (vm_compute; reflexivity).
    apply (proj2 (Hnone H61)).
    vm_compute. discriminate.
Defined.

(** A key-up takes the note out of the pressed set at once, whether or
    not the note has a voice, so that the key is no longer drawn pressed;
    the two maps are as they were when the key-up returns. The record of a
    voice that was there stays up to the end of the release, while the note
    is already out of the pressed set, when no older clean-up of the note
    is pending, and not in general, as the run at the end of this part
    shows. *)
Lemma key_up_clears_pressed_set_at_once :
  forall (paramValue : list PianoToken.ParamCall -> Q -> Q)
         (sustain : bool) (m : Z) (st : PianoToken.State),
    let st' := PianoToken.playNoteStop paramValue sustain m st in
    PianoToken.playingNotes st' = (PianoToken.playingNotes st ∖ {[m]})
    /\ (m ∉ PianoToken.playingNotes st')
    /\ PianoToken.oscillatorsRef st' = PianoToken.oscillatorsRef st
    /\ PianoToken.gainNodesRef st' = PianoToken.gainNodesRef st
    /\ (forall act rt idx,
          PianoToken.whiteFill act rt (PianoToken.playingNotes st') idx m
          <> "#22d3ee"
          /\ PianoToken.blackFill act rt (PianoToken.playingNotes st') idx m
             <> "#22d3ee")
    /\ (forall c o g t,
          PianoToken.audioContextRef st = Some c ->
          PianoToken.oscillatorsRef st !! m = Some o ->
          PianoToken.gainNodesRef st !! m = Some g ->
          (forall tm, In tm (PianoToken.timeouts st) -> snd tm <> m) ->
          (t <= PianoToken.currentTime st + PianoToken.releaseTime sustain)%Q ->
          PianoToken.oscillatorsRef (PianoToken.advanceTo t st') !! m = Some o
          /\ PianoToken.gainNodesRef (PianoToken.advanceTo t st') !! m = Some g
          /\ m ∉ PianoToken.playingNotes (PianoToken.advanceTo t st')).
Proof.
  intros paramValue sustain m st st'.
  assert (Hp : PianoToken.playingNotes st' = PianoToken.playingNotes st ∖ {[m]})
    by apply playNoteStop_playingNotes.
  assert (Hm : m ∉ PianoToken.playingNotes st').
  { rewrite Hp, elem_of_difference, elem_of_singleton. tauto. }
  destruct (playNoteStop_refs paramValue sustain m st) as [Ro Rg].
  conjs; try assumption.
  - intros act rt idx.
    unfold PianoToken.whiteFill, PianoToken.blackFill.
    rewrite (bool_decide_eq_false_2 _ Hm).
    destruct (rt =? idx); [split; discriminate |].
    destruct (bool_decide (idx ∈ act)); split; discriminate.
  - intros c o g t Hc Ho Hg Hnone Ht.
    destruct (record_survives_release paramValue sustain m st c o g t
                Hc Ho Hg Hnone Ht) as [Ko Kg].
    conjs; try assumption.
    now rewrite advanceTo_playingNotes.
Qed.

Example key_up_clears_pressed_set_at_60 :
  let pow := fun _ _ : Q => 1%Q in
  let pv := fun (_ : list PianoToken.ParamCall) (_ : Q) => 0.3%Q in
  let st := PianoToken.playNoteStart pow PianoToken.sine 60
              (PianoToken.initial 0 true PianoToken.running) in
  let st' := PianoToken.playNoteStop pv true 60 st in
  60 ∈ PianoToken.playingNotes st
  /\ PianoToken.oscillatorsRef (PianoToken.advanceTo 1.5 st') !! 60
     = Some 0%nat
  /\ PianoToken.gainNodesRef (PianoToken.advanceTo 1.5 st') !! 60
     = Some 0%nat
  /\ 60 ∉ PianoToken.playingNotes (PianoToken.advanceTo 1.5 st').
Proof.
  intros pow pv st st'.
  split; [vm_compute; reflexivity |].
  destruct (key_up_clears_pressed_set_at_once pv true 60 st)
    as (_ & _ & _ & _ & _ & H).
  apply (H PianoToken.running 0%nat 0%nat 1.5%Q).
  - vm_compute; reflexivity.
  - vm_compute; reflexivity.
  - vm_compute; reflexivity.
  - intros tm [].
  - vm_compute. discriminate.
Defined.

(** C7. The record of a voice is not always deleted after its release.
    The timers that key-ups leave are never cleared, and each deletes
    whatever record the note has when it runs. Here the pointer is released
    on a sounding key at 0 s and leaves the key at 0.1 s: the second key-up
    finds the voice, ramps the gain to 0.001 at 0.3 s and tells the
    oscillator to stop at 0.3 s, but the clean-up of the first key-up runs
    at 0.25 s and deletes the record while that release is under way. *)
Theorem C7_record_deleted_before_release_ends :
  forall (Math_pow : Q -> Q -> Q)
         (paramValue : list PianoToken.ParamCall -> Q -> Q),
    let before := PianoToken.run Math_pow paramValue
                    [ PianoToken.KeyDown PianoToken.triangle 60;
                      PianoToken.KeyUp false 60;
                      PianoToken.Elapse 0.1 ]
                    (PianoToken.initial 0 true PianoToken.running) in
    let up2 := PianoToken.playNoteStop paramValue false 60 before in
    let later := PianoToken.advanceTo 0.25 up2 in
    PianoToken.oscillatorsRef before !! 60 = Some 0%nat
    /\ PianoToken.gainNodesRef before !! 60 = Some 0%nat
    /\ PianoToken.stop <$> PianoToken.oscillatorNodes up2 !! 0%nat
       = Some [(0 + 0.2)%Q; (0.1 + 0.2)%Q]
    /\ (PianoToken.gainNodes up2 !! 0%nat)
         ≫= (fun gn => last (PianoToken.gain gn))
       = Some (PianoToken.exponentialRampToValueAtTime 0.001 (0.1 + 0.2)%Q)
    /\ PianoToken.timeouts up2
       = [ ((0 + PianoToken.cleanupDelay 0.2)%Q, 60);
           ((0.1 + PianoToken.cleanupDelay 0.2)%Q, 60) ]
    /\ (0.25 < 0.1 + PianoToken.releaseTime false)%Q
    /\ PianoToken.oscillatorsRef later !! 60 = None
    /\ PianoToken.gainNodesRef later !! 60 = None.
Proof.
  intros Math_pow paramValue before up2 later.
  vm_compute. conjs; reflexivity.
Qed.

(** C10. The record of a released voice does not always outlive the
    release. After pointer-up at 0 s and pointer-leave at 0.1 s the note is
    struck again at 0.3 s: a new voice (oscillator 1), held and sounding.
    Its key-up at 0.32 s takes the note out of the pressed set at once and
    schedules ramp and stop for 0.52 s; the clean-up that the
    pointer-leave left is due at 0.35 s and deletes the record of the new
    voice then, well inside the release window. *)
Theorem C10_record_of_released_voice_deleted_early :
  forall (Math_pow : Q -> Q -> Q)
         (paramValue : list PianoToken.ParamCall -> Q -> Q),
    let struck := PianoToken.run Math_pow paramValue
                    [ PianoToken.KeyDown PianoToken.triangle 60;
                      PianoToken.KeyUp false 60;
                      PianoToken.Elapse 0.1;
                      PianoToken.KeyUp false 60;
                      PianoToken.Elapse 0.3;
                      PianoToken.KeyDown PianoToken.triangle 60;
                      PianoToken.Elapse 0.32 ]
                    (PianoToken.initial 0 true PianoToken.running) in
    let released := PianoToken.playNoteStop paramValue false 60 struck in
    let later := PianoToken.advanceTo 0.35 released in
    (60 ∈ PianoToken.playingNotes struck
     /\ PianoToken.oscillatorsRef struck !! 60 = Some 1%nat
     /\ PianoToken.gainNodesRef struck !! 60 = Some 1%nat
     /\ (PianoToken.start <$> PianoToken.oscillatorNodes struck !! 1%nat)
        = Some [0.3%Q]
     /\ (PianoToken.stop <$> PianoToken.oscillatorNodes struck !! 1%nat)
        = Some [])
    /\ ((60 ∉ PianoToken.playingNotes released)
        /\ PianoToken.oscillatorsRef released !! 60 = Some 1%nat
        /\ (PianoToken.stop <$> PianoToken.oscillatorNodes released !! 1%nat)
           = Some [(0.32 + 0.2)%Q])
    /\ ((0.35 < 0.32 + PianoToken.releaseTime false)%Q)
    /\ PianoToken.oscillatorsRef later !! 60 = None
    /\ PianoToken.gainNodesRef later !! 60 = None.
Proof.
  intros Math_pow paramValue struck released later.
  conjs; vm_compute; first [reflexivity | intros H; discriminate H].
Qed.

(* ===================================================================== *)
(** ** More on the layout                                                *)
(* ===================================================================== *)

(** Blocks of [k] consecutive numbers, one per octave, make one run. *)
Lemma seqZ_blocks (k : Z) (n : nat) :
  0 <= k ->
  flat_map (fun o => seqZ (k * o) k) (seqZ 0 (Z.of_nat n))
  = seqZ 0 (k * Z.of_nat n).
Proof.
  intros Hk. induction n as [|n IH].
  - cbn. rewrite Z.mul_0_r. reflexivity.
  - rewrite seqZ_S, flat_map_app, IH. cbn [flat_map]. rewrite app_nil_r.
    replace (k * Z.of_nat (S n)) with (k * Z.of_nat n + k) by lia.
    rewrite seqZ_app by lia. f_equal.
Qed.

Lemma flat_map_map {A B C : Type} (g : B -> C) (f : A -> list B) (l : list A) :
  map g (flat_map f l) = flat_map (fun a => map g (f a)) l.
Proof.
  apply (observe_flat_map (map g)); [reflexivity | intros; apply map_app].
Qed.

Lemma Permutation_flat_map_pointwise {A B : Type} (f g : A -> list B)
    (l : list A) :
  (forall a, Permutation (f a) (g a)) ->
  Permutation (flat_map f l) (flat_map g l).
Proof.
  intros H. induction l as [|a l IH]; cbn [flat_map]; [constructor |].
  now apply Permutation_app.
Qed.

Section OctaveShape.
Variables (shift : Z) (act : gset Z) (rt : Z) (pl : gset Z) (o : Z).

Lemma PianoToken_white_x_octave :
  map x (whiteRects (PianoToken.octaveBody shift act rt pl o []))
  = map (fun k => k * whiteKeyWidth) (seqZ (7 * o) 7).
Proof.
  unroll_octave. observe. cbv [seqZ seq fmap list_fmap Z.to_nat Pos.to_nat
    Pos.iter_op Nat.add Z.of_nat Pos.of_succ_nat Pos.succ].
  unfold whiteKeyWidth. repeat (f_equal; try lia).
Qed.

Lemma PianoToken_midi_octave :
  Permutation
    (map midiOf (rects (PianoToken.octaveBody shift act rt pl o [])))
    (map (fun k => 12 * (PianoToken.START_OCTAVE + shift + 1) + k)
       (seqZ (12 * o) 12)).
Proof.
  unroll_octave. observe. cbv [seqZ seq fmap list_fmap Z.to_nat Pos.to_nat
    Pos.iter_op Nat.add Z.of_nat Pos.of_succ_nat Pos.succ].
  set (b := 12 * (PianoToken.START_OCTAVE + shift + 1)).
  replace ((PianoToken.START_OCTAVE + o + shift + 1) * 12) with (b + 12 * o)
    by (unfold b; lia).
  repeat match goal with
         | |- context [b + (?k + 12 * o)] =>
             replace (b + (k + 12 * o)) with (b + 12 * o + k) by lia
         end.
  solve_Permutation.
Qed.

(** Every key of an octave: its pitch class fixes kind, MIDI note, position,
    size and the chain that fills it. *)
Lemma PianoToken_rect_shape r :
  In r (rects (PianoToken.octaveBody shift act rt pl o [])) ->
  exists idx,
    midiOf r = (PianoToken.START_OCTAVE + o + shift + 1) * 12 + idx
    /\ x r = o * (7 * whiteKeyWidth) + keyOffset idx
    /\ y r = 0
    /\ ((In idx [0; 2; 4; 5; 7; 9; 11]
         /\ isWhite r = true /\ isBlack r = false
         /\ width r = whiteKeyWidth /\ height r = whiteKeyHeight
         /\ fill r = PianoToken.whiteFill act rt pl idx (midiOf r))
        \/ (In idx [1; 3; 6; 8; 10]
            /\ isWhite r = false /\ isBlack r = true
            /\ width r = blackKeyWidth /\ height r = blackKeyHeight
            /\ fill r = PianoToken.blackFill act rt pl idx (midiOf r))).
Proof.
  unroll_octave. cbv [rects flat_map app In].
  intros H.
  repeat (destruct H as [<- | H];
          [ refine (ex_intro _ _ (conj eq_refl _));
            split; [change (blackKeyWidth / 2) with 12;
                    cbv [x keyOffset whiteKeyWidth]; lia |];
            split; [reflexivity |];
            first [ left; split; [cbv [In]; tauto | conjs; reflexivity]
                  | right; split; [cbv [In]; tauto | conjs; reflexivity] ]
          | ]).
  destruct H.
Qed.
End OctaveShape.

Lemma seqZ_from_0 (b len : Z) :
  seqZ b len = map (fun k => b + k) (seqZ 0 len).
Proof.
  replace b with (b + 0) at 1 by lia. symmetry.
  exact (fmap_add_seqZ b 0 len).
Qed.

Lemma seqZ_blocks_Z (k n : Z) :
  0 <= k ->
  flat_map (fun o => seqZ (k * o) k) (seqZ 0 n) = seqZ 0 (k * n).
Proof.
  intros Hk. destruct (Z_le_gt_dec n 0) as [Hn | Hn].
  - rewrite (seqZ_nil 0 n) by exact Hn. rewrite seqZ_nil by nia. reflexivity.
  - rewrite <- (Z2Nat.id n) by lia. now apply seqZ_blocks.
Qed.

(** X1. The white keys, in the order they are drawn, start at 0, 40, 80,
    ...: they tile the width of the drawing without gap or overlap, the
    last one ending at [totalWidth]. *)
Theorem X1_white_keys_tile_the_width :
  forall n shift act rt pl,
    let ks := PianoToken.keys n shift act rt pl in
    map x (whiteRects ks)
    = map (fun k => k * whiteKeyWidth) (seqZ 0 (7 * n))
    /\ Forall (fun r => width r = whiteKeyWidth) (whiteRects ks)
    /\ 7 * n * whiteKeyWidth = PianoToken.totalWidth n.
Proof.
  intros n shift act rt pl ks. subst ks. rewrite PianoToken_keys_octaves.
  conjs.
  - rewrite (observe_flat_map (fun es => map x (whiteRects es)));
      [| reflexivity | intros; now rewrite whiteRects_app, map_app].
    rewrite <- seqZ_blocks_Z by lia. rewrite flat_map_map.
    apply flat_map_ext. intros o. apply PianoToken_white_x_octave.
  - apply List.Forall_forall. intros r Hr.
    apply filter_In in Hr as [Hr Hw].
    rewrite (observe_flat_map rects) in Hr;
      [| reflexivity | apply rects_app].
    apply in_flat_map in Hr as (o & _ & Hr).
    apply PianoToken_rect_shape in Hr as (idx & _ & _ & _ & H).
    destruct H as [(_ & _ & _ & H & _) | (_ & H & _)]; [exact H | congruence].
  - unfold PianoToken.totalWidth. lia.
Qed.

(** X3. The MIDI notes of the keys are, each once, the [12 * n] numbers
    from the C of octave [START_OCTAVE + octaveShift] upwards: every
    semitone of the range has one key, and no two keys share a note. *)
Theorem X3_keys_cover_the_range_once :
  forall n shift act rt pl,
    let ks := PianoToken.keys n shift act rt pl in
    Permutation (map midiOf (rects ks))
      (seqZ (12 * (PianoToken.START_OCTAVE + shift + 1)) (12 * n))
    /\ NoDup (map midiOf (rects ks)).
Proof.
  intros n shift act rt pl ks. subst ks. rewrite PianoToken_keys_octaves.
  assert (P : Permutation
                (map midiOf
                   (rects (flat_map
                             (fun o => PianoToken.octaveBody shift act rt pl o [])
                             (seqZ 0 n))))
                (seqZ (12 * (PianoToken.START_OCTAVE + shift + 1)) (12 * n))).
  { rewrite (observe_flat_map (fun es => map midiOf (rects es)));
      [| reflexivity | intros; now rewrite rects_app, map_app].
    rewrite (seqZ_from_0 (12 * (PianoToken.START_OCTAVE + shift + 1))).
    rewrite <- seqZ_blocks_Z by lia.
    rewrite flat_map_map.
    apply Permutation_flat_map_pointwise. intros o.
    apply PianoToken_midi_octave. }
  split; [exact P |].
  rewrite P. apply NoDup_seqZ.
Qed.


Lemma white_or_black_pc (idx : Z) :
  In idx [0; 2; 4; 5; 7; 9; 11] \/ In idx [1; 3; 6; 8; 10] ->
  0 <= idx < 12.
Proof. cbv [In]. lia. Qed.

Lemma not_white_and_black_pc (idx : Z) :
  In idx [0; 2; 4; 5; 7; 9; 11] -> In idx [1; 3; 6; 8; 10] -> False.
Proof. cbv [In]. lia. Qed.

Lemma pc_cases (idx : Z) :
  0 <= idx < 12 ->
  In idx [0; 1; 2; 3; 4; 5; 6; 7; 8; 9; 10; 11].
Proof. cbv [In]. lia. Qed.

Lemma keyOffset_range (idx : Z) : 0 <= keyOffset idx <= 240.
Proof.
  unfold keyOffset. destruct idx as [|p|p]; [lia | | lia].
  do 4 (try (destruct p as [p|p|]; try lia)).
Qed.

Lemma keyOffset_mono (i j : Z) :
  0 <= i < 12 -> 0 <= j < 12 -> (keyOffset i < keyOffset j <-> i < j).
Proof.
  intros Hi Hj. apply pc_cases in Hi, Hj. cbv [In] in Hi, Hj.
  repeat (destruct Hi as [<- | Hi]; [| ]);
    try (destruct Hi);
    repeat (destruct Hj as [<- | Hj]; [cbv [keyOffset]; lia |]);
    destruct Hj.
Qed.

Lemma In_rects_PianoToken_keys n shift act rt pl r :
  In r (rects (PianoToken.keys n shift act rt pl)) <->
  exists o, 0 <= o < n
            /\ In r (rects (PianoToken.octaveBody shift act rt pl o [])).
Proof.
  rewrite PianoToken_keys_octaves.
  rewrite (observe_flat_map rects); [| reflexivity | apply rects_app].
  rewrite in_flat_map. split; intros (o & Ho & H); exists o; (split; [| exact H]).
  - apply list_elem_of_In, elem_of_seqZ in Ho. lia.
  - apply list_elem_of_In, elem_of_seqZ. lia.
Qed.

(** X2. Every key lies inside the drawing: between 0 and [totalWidth]
    horizontally, and from the top edge down to at most the height of the
    white keys. *)
Theorem X2_keys_lie_inside_the_drawing :
  forall n shift act rt pl r,
    In r (rects (PianoToken.keys n shift act rt pl)) ->
    0 <= x r /\ x r + width r <= PianoToken.totalWidth n
    /\ y r = 0 /\ 0 < height r <= whiteKeyHeight.
Proof.
  intros n shift act rt pl r H.
  apply In_rects_PianoToken_keys in H as (o & Ho & H).
  apply PianoToken_rect_shape in H as (idx & _ & Hx & Hy & Hk).
  pose proof (keyOffset_range idx) as Hoff.
  unfold PianoToken.totalWidth, whiteKeyWidth, whiteKeyHeight in *.
  destruct Hk as [(Hi & _ & _ & Hw & Hh & _) | (Hi & _ & _ & Hw & Hh & _)];
    rewrite Hx, Hy, Hw, Hh; unfold blackKeyWidth, blackKeyHeight.
  - lia.
  - cbv [In] in Hi.
    repeat (destruct Hi as [<- | Hi]; [cbv [keyOffset]; lia |]).
    destruct Hi.
Qed.

Lemma X2_keys_lie_inside_the_drawing_witness :
  let r := {| key := "black-70"; x := 508; y := 0; width := 24;
              height := 100; fill := "#1e293b"; stroke := "#0f172a";
              rx := 2; ry := 2; onPress := Some 70 |} in
  0 <= x r /\ x r + width r <= PianoToken.totalWidth 2
  /\ y r = 0 /\ 0 < height r <= whiteKeyHeight.
Proof.
  intros r.
  apply (X2_keys_lie_inside_the_drawing 2 0 ∅ (-1) ∅ r).
  vm_compute. tauto.
Defined.

(** X4. Pitch rises from left to right: of two keys, the one that starts
    further left has the lower MIDI note, and conversely. *)
Theorem X4_pitch_rises_left_to_right :
  forall n shift act rt pl r1 r2,
    In r1 (rects (PianoToken.keys n shift act rt pl)) ->
    In r2 (rects (PianoToken.keys n shift act rt pl)) ->
    (x r1 < x r2 <-> midiOf r1 < midiOf r2).
Proof.
  intros n shift act rt pl r1 r2 H1 H2.
  apply In_rects_PianoToken_keys in H1 as (o1 & _ & H1).
  apply In_rects_PianoToken_keys in H2 as (o2 & _ & H2).
  apply PianoToken_rect_shape in H1 as (i1 & Hm1 & Hx1 & _ & Hk1).
  apply PianoToken_rect_shape in H2 as (i2 & Hm2 & Hx2 & _ & Hk2).
  assert (Hi1 : 0 <= i1 < 12)
    by (apply white_or_black_pc; tauto).
  assert (Hi2 : 0 <= i2 < 12)
    by (apply white_or_black_pc; tauto).
  pose proof (keyOffset_range i1). pose proof (keyOffset_range i2).
  pose proof (keyOffset_mono i1 i2 Hi1 Hi2) as Hmono.
  rewrite Hm1, Hm2, Hx1, Hx2. unfold whiteKeyWidth.
  destruct (Z.lt_trichotomy o1 o2) as [Ho | [-> | Ho]]; lia.
Qed.

Lemma X4_pitch_rises_left_to_right_witness :
  let w := {| key := "white-52"; x := 80; y := 0; width := 40;
              height := 160; fill := "white"; stroke := "#cbd5e1";
              rx := 4; ry := 4; onPress := Some 52 |} in
  let b := {| key := "black-70"; x := 508; y := 0; width := 24;
              height := 100; fill := "#1e293b"; stroke := "#0f172a";
              rx := 2; ry := 2; onPress := Some 70 |} in
  x w < x b <-> midiOf w < midiOf b.
Proof.
  intros w b.
  apply (X4_pitch_rises_left_to_right 2 0 ∅ (-1) ∅ w b);
    vm_compute; tauto.
Defined.

(** X6. Keys of the same pitch class are filled alike as long as neither
    is pressed: the highlighting of root and active notes repeats in every
    octave. *)
Theorem X6_highlight_repeats_in_every_octave :
  forall n shift act rt pl r1 r2,
    In r1 (rects (PianoToken.keys n shift act rt pl)) ->
    In r2 (rects (PianoToken.keys n shift act rt pl)) ->
    midiOf r1 ∉ pl -> midiOf r2 ∉ pl ->
    Theory.midi_pc (midiOf r1) = Theory.midi_pc (midiOf r2) ->
    fill r1 = fill r2.
Proof.
  intros n shift act rt pl r1 r2 H1 H2 P1 P2 Hpc.
  apply In_rects_PianoToken_keys in H1 as (o1 & _ & H1).
  apply In_rects_PianoToken_keys in H2 as (o2 & _ & H2).
  apply PianoToken_rect_shape in H1 as (i1 & Hm1 & _ & _ & Hk1).
  apply PianoToken_rect_shape in H2 as (i2 & Hm2 & _ & _ & Hk2).
  assert (Hi1 : 0 <= i1 < 12) by (apply white_or_black_pc; tauto).
  assert (Hi2 : 0 <= i2 < 12) by (apply white_or_black_pc; tauto).
  rewrite Hm1, Hm2, !midi_pc_key in Hpc by assumption. subst i2.
  destruct Hk1 as [(W1 & _ & _ & _ & _ & F1) | (B1 & _ & _ & _ & _ & F1)];
    destruct Hk2 as [(W2 & _ & _ & _ & _ & F2) | (B2 & _ & _ & _ & _ & F2)];
    try (exfalso; eapply not_white_and_black_pc; eassumption);
    rewrite F1, F2;
    unfold PianoToken.whiteFill, PianoToken.blackFill;
    now rewrite (bool_decide_eq_false_2 _ P1), (bool_decide_eq_false_2 _ P2).
Qed.

Lemma X6_highlight_repeats_in_every_octave_witness :
  let act := activeIndices ["C"; "E"; "G"] in
  let rt := rootIndex (Some "C") in
  let e3 := {| key := "white-52"; x := 80; y := 0; width := 40;
               height := 160; fill := "#60a5fa"; stroke := "#cbd5e1";
               rx := 4; ry := 4; onPress := Some 52 |} in
  let e4 := {| key := "white-64"; x := 360; y := 0; width := 40;
               height := 160; fill := "#60a5fa"; stroke := "#cbd5e1";
               rx := 4; ry := 4; onPress := Some 64 |} in
  fill e3 = fill e4.
Proof.
  intros act rt e3 e4.
  apply (X6_highlight_repeats_in_every_octave 2 0 act rt {[48]} e3 e4).
  - vm_compute. tauto.
  - vm_compute. tauto.
  - vm_compute. discriminate.
  - vm_compute. discriminate.
  - reflexivity.
Defined.

Lemma length_filter_sum {A : Type} (f : A -> bool) (l : list A) :
  length (List.filter f l)
  = list_sum (map (fun a => if f a then 1%nat else 0%nat) l).
Proof.
  induction l as [|a l IH]; cbn [List.filter map list_sum]; [reflexivity |].
  destruct (f a); cbn [length]; rewrite IH; reflexivity.
Qed.

Section PianoFacts.
Variables (act : gset Z) (rt : Z).

Lemma Piano_keys_octaves :
  Piano.keys act rt
  = Piano.octaveBody act rt 0 [] ++ Piano.octaveBody act rt 1 [].
Proof.
  unfold Piano.keys, for_oct. change (seqZ 0 Piano.OCTAVES) with [0; 1].
  cbv [fold_left]. unroll_octave. reflexivity.
Qed.

Lemma rootFilled_white idx :
  String.eqb (Piano.whiteFill act rt idx) "#8b5cf6"
  || String.eqb (Piano.whiteFill act rt idx) "#7c3aed" = (rt =? idx).
Proof.
  unfold Piano.whiteFill.
  destruct (rt =? idx); [reflexivity |].
  destruct (bool_decide (idx ∈ act)); reflexivity.
Qed.

Lemma rootFilled_black idx :
  String.eqb (Piano.blackFill act rt idx) "#8b5cf6"
  || String.eqb (Piano.blackFill act rt idx) "#7c3aed" = (rt =? idx).
Proof.
  unfold Piano.blackFill.
  destruct (rt =? idx); [reflexivity |].
  destruct (bool_decide (idx ∈ act)); reflexivity.
Qed.

Lemma Piano_root_count :
  length (List.filter rootFilled (rects (Piano.keys act rt)))
  = if bool_decide (0 <= rt < 12) then 2%nat else 0%nat.
Proof.
  rewrite length_filter_sum.
  rewrite Piano_keys_octaves. unroll_octave.
  cbv [rects flat_map app map rootFilled fill].
  rewrite !rootFilled_white, !rootFilled_black.
  case_bool_decide as Hrt.
  - apply pc_cases in Hrt. cbv [In] in Hrt.
    repeat (destruct Hrt as [<- | Hrt]; [reflexivity |]). destruct Hrt.
  - repeat match goal with
           | |- context [rt =? ?k] =>
               destruct (Z.eqb_spec rt k); [lia |]
           end.
    reflexivity.
Qed.
End PianoFacts.

(** X7. On the plain keyboard a root note that resolves is drawn in the
    root colour on exactly two keys, one per octave, whether or not it is
    among the active notes; a root that is absent, empty or unrecognized
    colours no key as root. *)
Theorem X7_root_is_drawn_once_per_octave :
  forall (activeNotes : list string) (rootNote : option string),
    let ks := Piano.keys (activeIndices activeNotes) (rootIndex rootNote) in
    (rootIndex rootNote <> -1 ->
     length (List.filter rootFilled (rects ks)) = 2%nat)
    /\ (rootIndex rootNote = -1 ->
        length (List.filter rootFilled (rects ks)) = 0%nat)
    /\ (rootIndex rootNote = -1 <->
        match rootNote with
        | Some s => ~ Theory.recognized s
        | None => True
        end).
Proof.
  intros activeNotes rootNote ks. subst ks.
  rewrite Piano_root_count.
  assert (R : rootIndex rootNote = -1 \/ 0 <= rootIndex rootNote <= 11).
  { unfold rootIndex. destruct rootNote as [s|]; [| by left].
    destruct (truthy (Some s)); [apply noteToOffset_range | by left]. }
  conjs.
  - intros H. rewrite bool_decide_eq_true_2 by lia. reflexivity.
  - intros H. rewrite bool_decide_eq_false_2 by lia. reflexivity.
  - unfold rootIndex. destruct rootNote as [s|]; [| tauto].
    rewrite noteToOffset_recognized.
    destruct s as [|c s]; cbn [truthy].
    + split; [intros _ H; apply H; vm_compute; reflexivity | reflexivity].
    + destruct (Z.eq_dec (Resolver.noteToOffset (String c s)) (-1)); tauto.
Qed.

Lemma X7_root_is_drawn_once_per_octave_witness :
  length (List.filter rootFilled
            (rects (Piano.keys (activeIndices ["C"; "E"; "G"])
                      (rootIndex (Some "F#"))))) = 2%nat
  /\ length (List.filter rootFilled
               (rects (Piano.keys (activeIndices ["C"; "E"; "G"])
                         (rootIndex (Some "H"))))) = 0%nat.
Proof.
  split.
  - apply (proj1 (X7_root_is_drawn_once_per_octave ["C"; "E"; "G"] (Some "F#"))).
    vm_compute. discriminate.
  - apply (proj1 (proj2 (X7_root_is_drawn_once_per_octave ["C"; "E"; "G"]
                           (Some "H")))).
    vm_compute. reflexivity.
Defined.

(** Where an element of a [flat_map] comes from. *)
Lemma flat_map_split {A B : Type} (f : A -> list B) (os : list A)
    (l1 l2 : list B) (e : B) :
  flat_map f os = l1 ++ e :: l2 ->
  exists os1 o os2 m1 m2,
    os = os1 ++ o :: os2 /\ f o = m1 ++ e :: m2
    /\ l1 = flat_map f os1 ++ m1 /\ l2 = m2 ++ flat_map f os2.
Proof.
  revert l1. induction os as [|o os IH]; intros l1 H; cbn [flat_map] in H.
  - destruct l1; discriminate.
  - apply app_eq_app in H as (l & [[H1 H2] | [H1 H2]]).
    + destruct l as [|e' l].
      * rewrite app_nil_r in H1. cbn [app] in H2. symmetry in H2.
        destruct (IH [] H2) as (os1 & o' & os2 & m1 & m2 & E1 & E2 & E3 & E4).
        exists (o :: os1), o', os2, m1, m2.
        split; [now rewrite E1 |]. split; [exact E2 |]. split; [| exact E4].
        cbn [flat_map]. rewrite <- app_assoc, <- E3, app_nil_r. now symmetry.
      * cbn [app] in H2. injection H2 as -> H2.
        exists [], o, os, l1, l. cbn [flat_map app]. auto.
    + destruct (IH l H2) as (os1 & o' & os2 & m1 & m2 & E1 & E2 & E3 & E4).
      exists (o :: os1), o', os2, m1, m2.
      split; [now rewrite E1 |]. split; [exact E2 |]. split; [| exact E4].
      cbn [flat_map]. rewrite <- app_assoc, <- E3. exact H1.
Qed.

(** Within an octave, whatever precedes a black key holds all the white
    keys of the octave. *)
Lemma whites_before_black shift act rt pl o m1 m2 b w :
  PianoToken.octaveBody shift act rt pl o [] = m1 ++ rect b :: m2 ->
  isBlack b = true ->
  In w (rects (PianoToken.octaveBody shift act rt pl o [])) ->
  isWhite w = true ->
  In (rect w) m1.
Proof.
  unroll_octave. cbv [rects flat_map app In].
  intros Hsplit Hb Hw Hwhite.
  do 13 (destruct m1 as [|? m1];
         [ cbn [app] in Hsplit;
           first [ discriminate Hsplit
                 | injection Hsplit as Hhead _; subst b;
                   first [ cbv [isBlack key startsWith String.append Ascii.eqb
                                Bool.eqb andb] in Hb;
                           discriminate Hb
                         | repeat (destruct Hw as [<- | Hw];
                                   [ first [ cbv [isWhite key startsWith
                                                  String.append Ascii.eqb
                                                  Bool.eqb andb] in Hwhite;
                                             discriminate Hwhite
                                           | cbn [In]; tauto ] | ]);
                           destruct Hw ] ]
         | cbn [app] in Hsplit; injection Hsplit as <- Hsplit ]).
  destruct m1; discriminate.
Qed.

(** X5. A black key is drawn after every white key that it overlaps, so
    that it lies on top of it. *)
Theorem X5_black_keys_are_drawn_on_top :
  forall n shift act rt pl l1 l2 b w,
    PianoToken.keys n shift act rt pl = l1 ++ rect b :: l2 ->
    isBlack b = true ->
    In w (rects (PianoToken.keys n shift act rt pl)) ->
    isWhite w = true ->
    overlap w b ->
    In (rect w) l1.
Proof.
  intros n shift act rt pl l1 l2 b w Hsplit Hb Hw Hwhite [Ov1 Ov2].
  rewrite PianoToken_keys_octaves in Hsplit.
  apply flat_map_split in Hsplit
    as (os1 & o & os2 & m1 & m2 & _ & Ho & -> & _).
  apply in_or_app. right.
  apply (whites_before_black shift act rt pl o m1 m2 b w Ho Hb); [| exact Hwhite].
  apply In_rects_PianoToken_keys in Hw as (o' & _ & Hw).
  assert (Hbin : In b (rects (PianoToken.octaveBody shift act rt pl o []))).
  { rewrite Ho, rects_app. apply in_or_app. right. now left. }
  apply PianoToken_rect_shape in Hbin as (ib & _ & Hxb & _ & Hkb).
  pose proof Hw as Hw'.
  apply PianoToken_rect_shape in Hw' as (iw & _ & Hxw & _ & Hkw).
  destruct Hkb as [(_ & _ & Hb' & _) | (Hib & _ & _ & Hwb & _)];
    [congruence |].
  destruct Hkw as [(_ & _ & _ & Hww & _) | (_ & Hw'' & _)]; [| congruence].
  pose proof (keyOffset_range iw) as Rw.
  assert (Rb : 28 <= keyOffset ib <= 228).
  { cbv [In] in Hib.
    repeat (destruct Hib as [<- | Hib]; [cbv [keyOffset]; lia |]).
    destruct Hib. }
  rewrite Hxb, Hxw, Hwb in Ov1. rewrite Hxb, Hxw, Hww in Ov2.
  unfold whiteKeyWidth, blackKeyWidth in *.
  assert (o' = o) by lia. now subst o'.
Qed.

Lemma X5_black_keys_are_drawn_on_top_witness :
  let ks := PianoToken.keys 1 0 ∅ (-1) ∅ in
  let b := {| key := "black-49"; x := 28; y := 0; width := 24;
              height := 100; fill := "#1e293b"; stroke := "#0f172a";
              rx := 2; ry := 2; onPress := Some 49 |} in
  let w := {| key := "white-50"; x := 40; y := 0; width := 40;
              height := 160; fill := "white"; stroke := "#cbd5e1";
              rx := 4; ry := 4; onPress := Some 50 |} in
  In (rect w) (firstn 8 ks).
Proof.
  intros ks b w.
  apply (X5_black_keys_are_drawn_on_top 1 0 ∅ (-1) ∅
           (firstn 8 ks) (skipn 9 ks) b w).
  - vm_compute. reflexivity.
  - reflexivity.
  - vm_compute. tauto.
  - reflexivity.
  - vm_compute. split; reflexivity.
Defined.

Section TokenVersusPlain.
Variables (act : gset Z) (rt : Z).

Lemma whiteFill_unpressed idx m :
  PianoToken.whiteFill act rt ∅ idx m = Piano.whiteFill act rt idx.
Proof.
  unfold PianoToken.whiteFill, Piano.whiteFill.
  now rewrite (bool_decide_eq_false_2 (m ∈ ∅)) by apply not_elem_of_empty.
Qed.

Lemma blackFill_unpressed idx m :
  plainBlack (PianoToken.blackFill act rt ∅ idx m)
  = Piano.blackFill act rt idx.
Proof.
  unfold PianoToken.blackFill, Piano.blackFill.
  rewrite (bool_decide_eq_false_2 (m ∈ ∅)) by apply not_elem_of_empty.
  destruct (rt =? idx); [reflexivity |].
  destruct (bool_decide (idx ∈ act)); reflexivity.
Qed.
End TokenVersusPlain.

(** X8. Without token access, octave shift or pressed key, the gated
    keyboard is the plain one: the same elements at the same places with
    the same labels and the same fills of the white keys; the black keys
    differ only in that the plain keyboard uses darker shades for root and
    active. *)
Theorem X8_gated_keyboard_matches_plain_keyboard :
  forall act rt,
    let gated := PianoToken.keys (PianoToken.octaves_of false) 0 act rt ∅ in
    let plain := Piano.keys act rt in
    map geometry gated = map geometry plain
    /\ map (fun t => (tx t, ty t, children t)) (texts gated)
       = map (fun t => (tx t, ty t, children t)) (texts plain)
    /\ map (fun r => (stroke r, rx r, ry r)) (rects gated)
       = map (fun r => (stroke r, rx r, ry r)) (rects plain)
    /\ map fill (whiteRects gated) = map fill (whiteRects plain)
    /\ map (fun r => plainBlack (fill r)) (blackRects gated)
       = map fill (blackRects plain)
    /\ PianoToken.totalWidth (PianoToken.octaves_of false)
       = Piano.totalWidth.
Proof.
  intros act rt gated plain. subst gated plain.
  rewrite PianoToken_keys_octaves, Piano_keys_octaves.
  change (seqZ 0 (PianoToken.octaves_of false)) with [0; 1].
  cbv [flat_map]. unroll_octave. conjs.
  - observe. reflexivity.
  - observe. reflexivity.
  - observe. reflexivity.
  - observe. rewrite !whiteFill_unpressed. reflexivity.
  - observe. rewrite !blackFill_unpressed. reflexivity.
  - reflexivity.
Qed.

(* ===================================================================== *)
(** ** More on the resolver                                              *)
(* ===================================================================== *)

Section ResolverEdges.
Import Resolver.

Lemma upper_ascii_digit c : is_digit (upper_ascii c) = is_digit c.
Proof. destruct c as [[] [] [] [] [] [] [] []]; reflexivity. Qed.

Lemma upper_ascii_idempotent c : upper_ascii (upper_ascii c) = upper_ascii c.
Proof. destruct c as [[] [] [] [] [] [] [] []]; reflexivity. Qed.

Lemma toUpperCase_idempotent s : toUpperCase (toUpperCase s) = toUpperCase s.
Proof.
  induction s as [|c s IH]; cbn [toUpperCase]; [reflexivity |].
  now rewrite upper_ascii_idempotent, IH.
Qed.

Lemma strip_toUpperCase s :
  strip_digits (toUpperCase s) = toUpperCase (strip_digits s).
Proof.
  induction s as [|c s IH]; cbn [toUpperCase strip_digits]; [reflexivity |].
  rewrite upper_ascii_digit. destruct (is_digit c); cbn [toUpperCase];
    now rewrite IH.
Qed.

Lemma strip_digits_idempotent s :
  strip_digits (strip_digits s) = strip_digits s.
Proof.
  induction s as [|c s IH]; cbn [strip_digits]; [reflexivity |].
  destruct (is_digit c) eqn:E; cbn [strip_digits]; rewrite ?E; now rewrite IH.
Qed.

Lemma normalize_idempotent s : normalize (normalize s) = normalize s.
Proof.
  unfold normalize.
  now rewrite strip_toUpperCase, strip_digits_idempotent,
    <- strip_toUpperCase, toUpperCase_idempotent.
Qed.

Lemma length_toUpperCase s : String.length (toUpperCase s) = String.length s.
Proof. induction s; cbn; congruence. Qed.

(** The characters that the normal form keeps are note characters. *)
Lemma allChars_normalize s :
  allChars (fun c => noteChar c) (normalize s) = true ->
  allChars (fun c => noteChar c) s = true.
Proof.
  unfold normalize.
  induction s as [|c s IH]; cbn [toUpperCase strip_digits allChars];
    [reflexivity |].
  rewrite upper_ascii_digit. destruct (is_digit c) eqn:E.
  - intros H. rewrite (IH H), andb_true_r.
    unfold noteChar. rewrite E. apply orb_true_r.
  - cbn [allChars]. intros H. apply andb_true_iff in H as [Hc H].
    rewrite (IH H), andb_true_r. clear -Hc.
    destruct c as [[] [] [] [] [] [] [] []]; try reflexivity;
      discriminate Hc.
Qed.
End ResolverEdges.

(** X9. The resolver looks at a note name through its normal form only:
    it gives the same result for the name in upper case and for the
    normal form itself, and a digit makes no difference wherever it
    stands, not only as an octave suffix. *)
Theorem X9_resolver_ignores_case_and_digits :
  forall s : string,
    Resolver.noteToOffset (Resolver.toUpperCase s) = Resolver.noteToOffset s
    /\ Resolver.noteToOffset (Resolver.normalize s) = Resolver.noteToOffset s
    /\ (forall (s1 s2 : string) (d : ascii),
          Resolver.is_digit d = true ->
          Resolver.noteToOffset (s1 +:+ String d s2)
          = Resolver.noteToOffset (s1 +:+ s2)).
Proof.
  intros s. unfold Resolver.noteToOffset. conjs.
  - unfold Resolver.normalize. now rewrite toUpperCase_idempotent.
  - now rewrite normalize_idempotent.
  - intros s1 s2 d Hd. rewrite !normalize_app. do 2 f_equal.
    f_equal. unfold Resolver.normalize.
    cbn [Resolver.toUpperCase Resolver.strip_digits].
    now rewrite upper_ascii_digit, Hd.
Qed.

Lemma X9_resolver_ignores_case_and_digits_witness :
  Resolver.noteToOffset ("e" +:+ String "4" "b")
  = Resolver.noteToOffset ("e" +:+ "b").
Proof.
  apply (proj2 (proj2 (X9_resolver_ignores_case_and_digits ""))
           "e" "b" "4"%char).
  reflexivity.
Defined.

(** X10. What the resolver never recognizes: a name that, digits apart,
    is empty or longer than two characters (so no double sharp or double
    flat), and a name with any character other than the letters A to G,
    the sharp sign and digits (so no blank around the name and no other
    accidental sign). *)
Theorem X10_resolver_rejects_other_names :
  forall s : string,
    Resolver.noteToOffset s <> -1 ->
    (1 <= String.length (Resolver.strip_digits s) <= 2)%nat
    /\ allChars (fun c => noteChar c) s = true.
Proof.
  intros s H. unfold Resolver.noteToOffset in H.
  destruct (Resolver.NOTE_TO_OFFSET !! Resolver.normalize s) as [v|] eqn:E;
    [| done].
  apply table_keys in E as (l & a & E & _). split.
  - rewrite <- length_toUpperCase, <- strip_toUpperCase.
    change (Resolver.strip_digits (Resolver.toUpperCase s))
      with (Resolver.normalize s).
    rewrite E. destruct l, a; cbv; lia.
  - apply allChars_normalize. rewrite E. destruct l, a; reflexivity.
Qed.

Lemma X10_resolver_rejects_other_names_witness :
  (1 <= String.length (Resolver.strip_digits "Bb3") <= 2)%nat
  /\ allChars (fun c => noteChar c) "Bb3" = true.
Proof.
  apply (X10_resolver_rejects_other_names "Bb3").
  vm_compute. discriminate.
Defined.

Lemma size_list_to_set_le (l : list Z) :
  (size (list_to_set l : gset Z) <= length l)%nat.
Proof.
  induction l as [|a l IH]; cbn [list_to_set length].
  - now rewrite size_empty.
  - destruct (decide (a ∈ (list_to_set l : gset Z))) as [Hin | Hout].
    + assert (E : {[a]} ∪ list_to_set l = (list_to_set l : gset Z)).
      { apply set_eq. intros k. rewrite elem_of_union, elem_of_singleton.
        split; [intros [-> | Hk]; assumption | tauto]. }
      rewrite E. lia.
    + rewrite size_union.
      * rewrite size_singleton. lia.
      * intros k Hk1 Hk2. apply elem_of_singleton in Hk1 as ->. contradiction.
Qed.

(** X11. The active set depends on which notes the list holds, not on
    their order or repetition, and has at most as many members as the list
    has entries and never more than twelve. *)
Theorem X11_active_set_is_a_set_of_pitch_classes :
  forall notes1 notes2 : list string,
    ((forall n, n ∈ notes1 <-> n ∈ notes2) ->
     activeIndices notes1 = activeIndices notes2)
    /\ (size (activeIndices notes1) <= length notes1)%nat
    /\ (size (activeIndices notes1) <= 12)%nat.
Proof.
  intros notes1 notes2. conjs.
  - intros H. apply set_eq. intros pc. rewrite !elem_of_activeIndices.
    split; intros (n & Hn & Hrest); exists n; (split; [by apply H | done]).
  - assert (Hsub : activeIndices notes1
                   ⊆ list_to_set (map Resolver.noteToOffset notes1)).
    { intros pc Hpc. apply elem_of_activeIndices in Hpc as (n & Hn & _ & <-).
      apply elem_of_list_to_set, list_elem_of_In, in_map.
      by apply list_elem_of_In. }
    apply subseteq_size in Hsub.
    etransitivity; [exact Hsub |].
    etransitivity; [apply size_list_to_set_le |]. now rewrite length_map.
  - assert (Hsub : activeIndices notes1 ⊆ list_to_set (seqZ 0 12)).
    { intros pc Hpc. apply elem_of_list_to_set, elem_of_seqZ.
      apply elem_of_activeIndices in Hpc as (n & _ & Hrec & <-).
      apply noteToOffset_recognized in Hrec.
      destruct (noteToOffset_range n); [done | lia]. }
    apply subseteq_size in Hsub.
    etransitivity; [exact Hsub |].
    etransitivity; [apply size_list_to_set_le |]. now rewrite length_seqZ.
Qed.

Lemma X11_active_set_is_a_set_of_pitch_classes_witness :
  activeIndices ["C"; "E"; "G"; "c"] = activeIndices ["G"; "c"; "E"; "C"; "E"].
Proof.
  apply (proj1 (X11_active_set_is_a_set_of_pitch_classes
                  ["C"; "E"; "G"; "c"] ["G"; "c"; "E"; "C"; "E"])).
  intros n. rewrite !list_elem_of_In. cbn [In]. tauto.
Defined.

(* ===================================================================== *)
(** ** More on the octave shifter                                        *)
(* ===================================================================== *)

Lemma clicks_from_bounded (cs : list PianoToken.ShiftClick) (s : Z) :
  -2 <= s <= 2 ->
  -2 <= fold_left (fun s c => PianoToken.click c s) cs s <= 2.
Proof.
  revert s. induction cs as [|c cs IH]; intros s H; cbn [fold_left];
    [exact H | apply IH, click_bounded, H].
Qed.

Lemma clicks_snoc (cs : list PianoToken.ShiftClick) (c : PianoToken.ShiftClick) :
  PianoToken.clicks (cs ++ [c]) = PianoToken.click c (PianoToken.clicks cs).
Proof. unfold PianoToken.clicks. now rewrite fold_left_app. Qed.

(** X12. A click on the right button sets the octave shift to +2 from
    wherever it was, not one step up; a click on the left button takes it
    one step down, and not below -2. So +1 is reached only by stepping
    down from +2. *)
Theorem X12_up_click_jumps_to_plus_two :
  forall cs : list PianoToken.ShiftClick,
    PianoToken.clicks (cs ++ [PianoToken.ClickUp]) = 2
    /\ PianoToken.clicks (cs ++ [PianoToken.ClickDown])
       = Z.max (PianoToken.clicks cs - 1) (-2)
    /\ (PianoToken.clicks cs = 1 ->
        exists cs', cs = cs' ++ [PianoToken.ClickDown]
                    /\ PianoToken.clicks cs' = 2).
Proof.
  intros cs.
  assert (B : forall l, -2 <= PianoToken.clicks l <= 2)
    by (intros l; apply clicks_from_bounded; lia).
  conjs.
  - rewrite clicks_snoc. pose proof (B cs).
    unfold PianoToken.click, PianoToken.upDisabled, PianoToken.shiftUp.
    destruct (Z.geb_spec (PianoToken.clicks cs) 2); lia.
  - rewrite clicks_snoc. pose proof (B cs).
    unfold PianoToken.click, PianoToken.downDisabled, PianoToken.shiftDown.
    destruct (Z.leb_spec (PianoToken.clicks cs) (-2)); lia.
  - destruct cs as [|c cs'] using rev_ind.
    + discriminate.
    + rewrite clicks_snoc. pose proof (B cs') as Hb. intros H.
      exists cs'. destruct c.
      * split; [reflexivity |]. revert H.
        unfold PianoToken.click, PianoToken.downDisabled, PianoToken.shiftDown.
        destruct (Z.leb_spec (PianoToken.clicks cs') (-2)); lia.
      * exfalso. revert H.
        unfold PianoToken.click, PianoToken.upDisabled, PianoToken.shiftUp.
        destruct (Z.geb_spec (PianoToken.clicks cs') 2); lia.
Qed.

Lemma X12_up_click_jumps_to_plus_two_witness :
  exists cs', [PianoToken.ClickUp; PianoToken.ClickDown]
              = cs' ++ [PianoToken.ClickDown]
              /\ PianoToken.clicks cs' = 2.
Proof.
  apply (proj2 (proj2 (X12_up_click_jumps_to_plus_two
                         [PianoToken.ClickUp; PianoToken.ClickDown]))).
  reflexivity.
Defined.

Lemma In_texts_PianoToken_keys n shift act rt pl t :
  In t (texts (PianoToken.keys n shift act rt pl)) ->
  exists o, 0 <= o < n
            /\ children t = "C" +:+ toString (PianoToken.START_OCTAVE + o + shift).
Proof.
  rewrite PianoToken_keys_octaves.
  rewrite (observe_flat_map texts); [| reflexivity | apply texts_app].
  intros H. apply in_flat_map in H as (o & Ho & H).
  exists o. split.
  - apply list_elem_of_In, elem_of_seqZ in Ho. lia.
  - revert H. unroll_octave. cbv [texts flat_map app In].
    intros [<- | []]. reflexivity.
Qed.

(** X13. Whatever the clicks on the octave buttons and whether or not the
    extended range is unlocked, every key plays a MIDI note between 24 and
    119, inside the MIDI range 0..127, and every label reads an octave
    between 1 and 8. *)
Theorem X13_keys_stay_in_the_midi_range :
  forall (cs : list PianoToken.ShiftClick) (hasAccess : bool) act rt pl,
    let ks := PianoToken.keys (PianoToken.octaves_of hasAccess)
                (PianoToken.clicks cs) act rt pl in
    (forall r, In r (rects ks) -> 24 <= midiOf r <= 119)
    /\ (forall t, In t (texts ks) ->
                  exists k, 1 <= k <= 8 /\ children t = "C" +:+ toString k).
Proof.
  intros cs hasAccess act rt pl ks. subst ks.
  assert (B : -2 <= PianoToken.clicks cs <= 2)
    by (apply clicks_from_bounded; lia).
  assert (N : PianoToken.octaves_of hasAccess <= 4)
    by (destruct hasAccess; cbv; discriminate).
  split.
  - intros r H.
    apply In_rects_PianoToken_keys in H as (o & Ho & H).
    apply PianoToken_rect_shape in H as (idx & Hm & _ & _ & Hk).
    assert (Hi : 0 <= idx < 12) by (apply white_or_black_pc; tauto).
    rewrite Hm. unfold PianoToken.START_OCTAVE. lia.
  - intros t H.
    apply In_texts_PianoToken_keys in H as (o & Ho & ->).
    eexists. split; [| reflexivity]. unfold PianoToken.START_OCTAVE. lia.
Qed.

Lemma X13_keys_stay_in_the_midi_range_witness :
  let r := {| key := "white-119"; x := 1080; y := 0; width := 40;
              height := 160; fill := "white"; stroke := "#cbd5e1";
              rx := 4; ry := 4; onPress := Some 119 |} in
  24 <= midiOf r <= 119.
Proof.
  intros r.
  apply (proj1 (X13_keys_stay_in_the_midi_range [PianoToken.ClickUp] true
                  ∅ (-1) ∅) r).
  vm_compute. tauto.
Defined.

(* ===================================================================== *)
(** ** More on the voices                                                *)
(* ===================================================================== *)

Section Graph.
Import PianoToken.
Variable Math_pow : Q -> Q -> Q.
Variable paramValue : list ParamCall -> Q -> Q.

Lemma voices_wf_context c st :
  voices_wf st -> voices_wf (set_audioContextRef c st).
Proof. intros H. exact H. Qed.

Lemma voices_wf_initAudio st : voices_wf st -> voices_wf (initAudio st).
Proof. intros H. rewrite initAudio_frame. exact H. Qed.

Lemma voices_wf_cleanup m st : voices_wf st -> voices_wf (cleanup m st).
Proof.
  intros (L & Ho & Hg & Hinj & Hosc & Hgn).
  split; [exact L |]. split; [| split; [| split; [| split]]];
    cbn [cleanup oscillatorsRef gainNodesRef oscillatorNodes gainNodes].
  - intros k o H. destruct (decide (m = k)) as [-> | Hne].
    + rewrite lookup_delete_eq in H. discriminate.
    + rewrite lookup_delete_ne in H |- * by exact Hne. now apply Ho.
  - intros k g H. destruct (decide (m = k)) as [-> | Hne].
    + rewrite lookup_delete_eq in H. discriminate.
    + rewrite lookup_delete_ne in H |- * by exact Hne. now apply Hg.
  - intros m1 m2 o H1 H2.
    destruct (decide (m = m1)) as [-> | N1];
      [rewrite lookup_delete_eq in H1; discriminate |].
    destruct (decide (m = m2)) as [-> | N2];
      [rewrite lookup_delete_eq in H2; discriminate |].
    rewrite lookup_delete_ne in H1, H2 by assumption. eapply Hinj; eassumption.
  - exact Hosc.
  - exact Hgn.
Qed.

Lemma voices_wf_cleanups (fired : list (Q * Z)) st :
  voices_wf st ->
  voices_wf (fold_left (fun s tm => cleanup (snd tm) s) fired st).
Proof.
  revert st. induction fired as [|tm fired IH]; intros st H; cbn [fold_left];
    [exact H | apply IH, voices_wf_cleanup, H].
Qed.

Lemma voices_wf_playNoteStart w m st :
  voices_wf st -> voices_wf (playNoteStart Math_pow w m st).
Proof.
  intros H. apply voices_wf_initAudio in H. unfold playNoteStart.
  destruct (audioContextRef (initAudio st)) as [c|]; [| exact H].
  case_bool_decide as Hhas; [exact H |].
  assert (Hnone : oscillatorsRef (initAudio st) !! m = None).
  { destruct (oscillatorsRef (initAudio st) !! m) eqn:E; [| reflexivity].
    destruct Hhas. eauto. }
  destruct H as (L & Ho & Hg & Hinj & Hosc & Hgn).
  set (s := initAudio st) in *.
  split; [| split; [| split; [| split; [| split]]]];
    cbn [oscillatorsRef gainNodesRef oscillatorNodes gainNodes].
  - rewrite !length_app. cbn [length]. lia.
  - intros k o H. rewrite length_app. cbn [length].
    destruct (decide (m = k)) as [-> | Hne].
    + rewrite lookup_insert_eq in H |- *. injection H as <-.
      split; [now rewrite L | lia].
    + rewrite lookup_insert_ne in H |- * by exact Hne.
      destruct (Ho k o H). split; [assumption | lia].
  - intros k g H. destruct (decide (m = k)) as [-> | Hne].
    + rewrite lookup_insert_eq in H |- *. injection H as <-. now rewrite L.
    + rewrite lookup_insert_ne in H |- * by exact Hne. now apply Hg.
  - intros m1 m2 o H1 H2.
    destruct (decide (m = m1)) as [E1 | N1];
      destruct (decide (m = m2)) as [E2 | N2]; [congruence | | |].
    + subst m1. rewrite lookup_insert_eq in H1.
      rewrite lookup_insert_ne in H2 by exact N2.
      injection H1 as <-. destruct (Ho m2 _ H2). lia.
    + subst m2. rewrite lookup_insert_eq in H2.
      rewrite lookup_insert_ne in H1 by exact N1.
      injection H2 as <-. destruct (Ho m1 _ H1). lia.
    + rewrite lookup_insert_ne in H1, H2 by assumption.
      eapply Hinj; eassumption.
  - intros i osc H. apply lookup_app_Some in H as [H | [Hlen H]].
    + now apply Hosc.
    + destruct (i - length (oscillatorNodes s))%nat as [|k] eqn:Ek;
        [| discriminate H].
      cbn in H. injection H as <-. cbn [output start length].
      split; [f_equal; lia | reflexivity].
  - intros i g H. apply lookup_app_Some in H as [H | [Hlen H]].
    + now apply (Hgn i).
    + destruct (i - length (gainNodes s))%nat; [| discriminate H].
      cbn in H. injection H as <-. reflexivity.
Qed.

Lemma voices_wf_playNoteStop s m st :
  voices_wf st -> voices_wf (playNoteStop paramValue s m st).
Proof.
  intros (L & Ho & Hg & Hinj & Hosc & Hgn). unfold playNoteStop.
  destruct (audioContextRef st) as [c|];
    [| exact (conj L (conj Ho (conj Hg (conj Hinj (conj Hosc Hgn)))))].
  destruct (oscillatorsRef st !! m) as [o|];
    [| exact (conj L (conj Ho (conj Hg (conj Hinj (conj Hosc Hgn)))))].
  destruct (gainNodesRef st !! m) as [g|];
    [| exact (conj L (conj Ho (conj Hg (conj Hinj (conj Hosc Hgn)))))].
  split; [| split; [| split; [| split; [| split]]]];
    cbn [set_playingNotes oscillatorsRef gainNodesRef oscillatorNodes
         gainNodes].
  - now rewrite !length_alter.
  - intros k o' H. rewrite length_alter. now apply Ho.
  - exact Hg.
  - exact Hinj.
  - intros i osc H. destruct (decide (o = i)) as [-> | Hne].
    + rewrite list_lookup_alter_eq in H.
      destruct (oscillatorNodes st !! i) as [osc0|] eqn:E; [| discriminate].
      cbn in H. injection H as <-. cbn [stopAt output start].
      now apply Hosc.
    + rewrite list_lookup_alter_ne in H by exact Hne. now apply Hosc.
  - intros i gn H. destruct (decide (g = i)) as [-> | Hne].
    + rewrite list_lookup_alter_eq in H.
      destruct (gainNodes st !! i) as [g0|] eqn:E; [| discriminate].
      cbn in H. injection H as <-. cbn [release toDestination].
      now apply (Hgn i).
    + rewrite list_lookup_alter_ne in H by exact Hne. now apply (Hgn i).
Qed.

Lemma voices_wf_step st e :
  voices_wf st -> voices_wf (step Math_pow paramValue st e).
Proof.
  intros H. destruct e as [w m | s m | t]; cbn [step].
  - now apply voices_wf_playNoteStart.
  - now apply voices_wf_playNoteStop.
  - exact (voices_wf_cleanups _ st H).
Qed.

Lemma voices_wf_run es st :
  voices_wf st -> voices_wf (run Math_pow paramValue es st).
Proof.
  unfold run. revert st.
  induction es as [|e es IH]; intros st H; cbn [fold_left];
    [exact H | apply IH, voices_wf_step, H].
Qed.
End Graph.

Lemma reachable_voices_wf Math_pow paramValue es now hasCtx fresh :
  voices_wf (PianoToken.run Math_pow paramValue es
               (PianoToken.initial now hasCtx fresh)).
Proof.
  apply voices_wf_run.
  split; [reflexivity |].
  split; [| split; [| split; [| split]]]; cbn;
    intros; rewrite ?lookup_empty in *; discriminate.
Qed.

(** X14. In every state that a component reaches, the audio graph is well
    formed: each oscillator feeds the gain node created with it, which
    feeds the destination, and has been started exactly once; a note has
    the same node index in both maps; and no two notes share a node. *)
Theorem X14_audio_graph_stays_well_formed :
  forall Math_pow paramValue es now hasCtx fresh,
    voices_wf (PianoToken.run Math_pow paramValue es
                 (PianoToken.initial now hasCtx fresh)).
Proof. intros. apply reachable_voices_wf. Qed.

(** X15. Voices are independent: in a reachable state, a key-down or
    key-up of one note leaves every other note's records, its oscillator
    and gain node with all the calls made on them, and its place in or out
    of the pressed set as they were. *)
Theorem X15_voices_are_independent :
  forall Math_pow paramValue es now hasCtx fresh m m' e,
    let st := PianoToken.run Math_pow paramValue es
                (PianoToken.initial now hasCtx fresh) in
    let st' := PianoToken.step Math_pow paramValue st e in
    m <> m' ->
    (exists w, e = PianoToken.KeyDown w m)
    \/ (exists s, e = PianoToken.KeyUp s m) ->
    PianoToken.oscillatorsRef st' !! m' = PianoToken.oscillatorsRef st !! m'
    /\ PianoToken.gainNodesRef st' !! m' = PianoToken.gainNodesRef st !! m'
    /\ (m' ∈ PianoToken.playingNotes st' <-> m' ∈ PianoToken.playingNotes st)
    /\ (forall o', PianoToken.oscillatorsRef st !! m' = Some o' ->
                   PianoToken.oscillatorNodes st' !! o'
                   = PianoToken.oscillatorNodes st !! o'
                   /\ PianoToken.gainNodes st' !! o'
                      = PianoToken.gainNodes st !! o').
Proof.
  intros Math_pow paramValue es now hasCtx fresh m m' e st st' Hne He.
  assert (WF : voices_wf st)
    by apply reachable_voices_wf.
  destruct WF as (L & Ho & Hg & Hinj & _ & _).
  subst st'. destruct He as [[w ->] | [s ->]]; cbn [PianoToken.step].
  - unfold PianoToken.playNoteStart.
    assert (F : forall k, PianoToken.oscillatorsRef (PianoToken.initAudio st) !! k
                          = PianoToken.oscillatorsRef st !! k)
      by (intros k; rewrite initAudio_frame; reflexivity).
    destruct (PianoToken.audioContextRef (PianoToken.initAudio st)) as [c|];
      [case_bool_decide |];
      try (rewrite initAudio_frame; conjs; [reflexivity .. | intros; split; reflexivity]).
    rewrite (initAudio_frame st).
    cbn [PianoToken.oscillatorsRef PianoToken.gainNodesRef
         PianoToken.playingNotes PianoToken.oscillatorNodes
         PianoToken.gainNodes PianoToken.set_audioContextRef].
    rewrite !lookup_insert_ne by exact Hne. conjs; try reflexivity.
    + rewrite elem_of_union, elem_of_singleton. split; [| tauto].
      intros [Hin | Hin]; [exact Hin | congruence].
    + intros o' Ho'. destruct (Ho m' o' Ho') as [_ Hlt].
      split; rewrite lookup_app_l; try reflexivity; lia.
  - destruct (playNoteStop_refs paramValue s m st) as [-> ->].
    rewrite playNoteStop_playingNotes. conjs; try reflexivity.
    + rewrite elem_of_difference, elem_of_singleton. split; [tauto |].
      intros Hin. split; [exact Hin | congruence].
    + intros o' Ho'. unfold PianoToken.playNoteStop.
      destruct (PianoToken.audioContextRef st) as [c|];
        [| split; reflexivity].
      destruct (PianoToken.oscillatorsRef st !! m) as [o|] eqn:Eo;
        [| split; reflexivity].
      destruct (PianoToken.gainNodesRef st !! m) as [g|] eqn:Eg;
        [| split; reflexivity].
      cbn [PianoToken.set_playingNotes PianoToken.oscillatorNodes
           PianoToken.gainNodes].
      assert (o <> o') by (intros ->; apply Hne; eapply Hinj; eassumption).
      assert (g <> o').
      { intros ->. apply Hg in Eg. apply Hne. eapply Hinj; eassumption. }
      split; now rewrite list_lookup_alter_ne.
Qed.

Lemma X15_voices_are_independent_witness :
  let pow := fun _ _ : Q => 1%Q in
  let pv := fun (_ : list PianoToken.ParamCall) (_ : Q) => 0.3%Q in
  let st := PianoToken.run pow pv
              [ PianoToken.KeyDown PianoToken.sine 60;
                PianoToken.KeyDown PianoToken.sine 64 ]
              (PianoToken.initial 0 true PianoToken.running) in
  let st' := PianoToken.step pow pv st (PianoToken.KeyUp false 60) in
  PianoToken.oscillatorsRef st' !! 64 = PianoToken.oscillatorsRef st !! 64
  /\ PianoToken.gainNodesRef st' !! 64 = PianoToken.gainNodesRef st !! 64
  /\ (64 ∈ PianoToken.playingNotes st' <-> 64 ∈ PianoToken.playingNotes st)
  /\ (forall o', PianoToken.oscillatorsRef st !! 64 = Some o' ->
                 PianoToken.oscillatorNodes st' !! o'
                 = PianoToken.oscillatorNodes st !! o'
                 /\ PianoToken.gainNodes st' !! o'
                    = PianoToken.gainNodes st !! o').
Proof.
  intros pow pv st st'.
  apply (X15_voices_are_independent pow pv
           [ PianoToken.KeyDown PianoToken.sine 60;
             PianoToken.KeyDown PianoToken.sine 64 ]
           0%Q true PianoToken.running 60 64 (PianoToken.KeyUp false 60)).
  - discriminate.
  - right. exists false. reflexivity.
Defined.

Section Lifetimes.
Import PianoToken.
Variable Math_pow : Q -> Q -> Q.
Variable paramValue : list ParamCall -> Q -> Q.

Lemma silent_step st e : silent st -> silent (step Math_pow paramValue st e).
Proof.
  intros (Hh & Hc & Hos & Hgs & Hom & Hgm & Hp & Ht).
  destruct e as [w m | s m | t']; cbn [step].
  - assert (E : playNoteStart Math_pow w m st = st).
    { assert (I : initAudio st = st)
        by (unfold initAudio; rewrite Hc, Hh; cbv zeta iota; now rewrite Hc).
      unfold playNoteStart. rewrite I. cbv zeta. now rewrite Hc. }
    rewrite E. repeat split; assumption.
  - rewrite playNoteStop_no_voice by (rewrite Hom; apply lookup_empty).
    unfold silent. cbn [set_playingNotes hasAudioContext audioContextRef
      oscillatorNodes gainNodes oscillatorsRef gainNodesRef playingNotes
      timeouts].
    repeat split; try assumption.
    rewrite Hp. apply set_eq. intros k. rewrite elem_of_difference.
    split; [tauto |]. intros Hk. by apply not_elem_of_empty in Hk.
  - unfold silent, advanceTo. rewrite Ht.
    cbn [List.filter fold_left hasAudioContext audioContextRef
      oscillatorNodes gainNodes oscillatorsRef gainNodesRef playingNotes
      timeouts].
    repeat split; assumption.
Qed.

Lemma silent_run es st : silent st -> silent (run Math_pow paramValue es st).
Proof.
  unfold run. revert st.
  induction es as [|e es IH]; intros st H; cbn [fold_left];
    [exact H | apply IH, silent_step, H].
Qed.

(** Records of released notes keep a clean-up pending. *)
Lemma released_have_cleanup_step st e :
  (forall m, is_Some (oscillatorsRef st !! m)
             <-> is_Some (gainNodesRef st !! m)) ->
  (forall m, is_Some (oscillatorsRef st !! m) -> is_Some (audioContextRef st)) ->
  released_have_cleanup st ->
  released_have_cleanup (step Math_pow paramValue st e).
Proof.
  intros Hagree Hctx H. destruct e as [w m | s m | t]; cbn [step].
  - intros k Hk. unfold playNoteStart in *.
    assert (F : initAudio st
                = set_audioContextRef (audioContextRef (initAudio st)) st)
      by apply initAudio_frame.
    destruct (audioContextRef (initAudio st)) as [c|].
    + case_bool_decide as Hhas.
      * rewrite F in Hk |- *. exact (H k Hk).
      * revert Hk. rewrite F.
        cbn [oscillatorsRef playingNotes timeouts set_audioContextRef].
        destruct (decide (m = k)) as [-> | Hne].
        -- intros _. left. apply elem_of_union. right.
           now apply elem_of_singleton.
        -- rewrite lookup_insert_ne by exact Hne. intros Hk.
           destruct (H k Hk) as [Hp | Hd]; [left | right; exact Hd].
           apply elem_of_union. now left.
    + rewrite F in Hk |- *. exact (H k Hk).
  - intros k Hk.
    destruct (playNoteStop_refs paramValue s m st) as [Ro _].
    rewrite Ro in Hk. rewrite playNoteStop_playingNotes.
    destruct (decide (m = k)) as [-> | Hne].
    + right. destruct Hk as [o Ho].
      destruct (proj1 (Hagree k) (ex_intro _ o Ho)) as [g Hg].
      destruct (Hctx k (ex_intro _ o Ho)) as [c Hc].
      destruct (playNoteStop_voice paramValue s k st c o g Hc Ho Hg)
        as (_ & _ & _ & Hts).
      rewrite Hts. eexists. apply in_or_app. right. now left.
    + destruct (H k Hk) as [Hp | [due Hd]].
      * left. rewrite elem_of_difference, elem_of_singleton.
        split; [exact Hp | congruence].
      * right. exists due. unfold playNoteStop.
        destruct (audioContextRef st), (oscillatorsRef st !! m),
          (gainNodesRef st !! m); cbn [set_playingNotes timeouts];
          try exact Hd.
        apply in_or_app. now left.
  - intros k Hk. rewrite advanceTo_playingNotes.
    destruct (advanceTo_refs t st) as [Ro _]. rewrite Ro in Hk.
    set (t' := currentTime (advanceTo t st)) in *.
    destruct (in_dec Z.eq_dec k
                (map snd (List.filter (isDue t') (timeouts st))))
      as [Hin | Hout].
    + apply (cleanups_in _ st) in Hin as [Hin _]. rewrite Hin in Hk.
      destruct Hk; discriminate.
    + rewrite (proj1 (cleanups_notin _ st k Hout)) in Hk.
      destruct (H k Hk) as [Hp | [due Hd]]; [now left | right].
      exists due. change (timeouts (advanceTo t st))
        with (List.filter (fun tm => negb (isDue t' tm)) (timeouts st)).
      apply filter_In. split; [exact Hd |].
      destruct (isDue t' (due, k)) eqn:E; [| reflexivity].
      exfalso. apply Hout. apply in_map_iff. exists (due, k).
      split; [reflexivity |]. apply filter_In. now split.
Qed.

Lemma reachable_released_have_cleanup now hasCtx fresh es :
  released_have_cleanup (run Math_pow paramValue es (initial now hasCtx fresh)).
Proof.
  assert (G : forall es st,
             records_agree st -> released_have_cleanup st ->
             released_have_cleanup (run Math_pow paramValue es st)).
  { clear es. induction es as [|e es IH]; intros st Ha Hr; [exact Hr |].
    unfold run. cbn [fold_left]. apply IH.
    - now apply records_agree_step.
    - destruct Ha as [A1 A2]. now apply released_have_cleanup_step. }
  apply G.
  - split; cbn; intros m; rewrite ?lookup_empty;
      [split |]; intros [? ?]; discriminate.
  - intros m [? Hm]. cbn in Hm. rewrite lookup_empty in Hm. discriminate.
Qed.
End Lifetimes.

(** X16. Without an audio capability nothing ever sounds and no key is
    ever shown as pressed: whatever the keys and the time do, the
    component keeps no context, no node, no record, no pressed note and no
    clean-up. *)
Theorem X16_without_audio_keys_do_nothing :
  forall Math_pow paramValue es now fresh,
    silent (PianoToken.run Math_pow paramValue es
              (PianoToken.initial now false fresh)).
Proof.
  intros. apply silent_run. repeat split.
Qed.

(** X18. No record is left behind: in a reachable state every record of
    a note that is not pressed has a clean-up pending, so that once all
    pending clean-ups are due only pressed notes can still have a
    record. *)
Theorem X18_released_records_are_cleaned_up :
  forall Math_pow paramValue es now hasCtx fresh,
    let st := PianoToken.run Math_pow paramValue es
                (PianoToken.initial now hasCtx fresh) in
    released_have_cleanup st
    /\ (forall t m,
          (forall tm, In tm (PianoToken.timeouts st) -> (fst tm <= t)%Q) ->
          is_Some (PianoToken.oscillatorsRef (PianoToken.advanceTo t st) !! m) ->
          m ∈ PianoToken.playingNotes st).
Proof.
  intros Math_pow paramValue es now hasCtx fresh st.
  assert (R : released_have_cleanup st)
    by apply reachable_released_have_cleanup.
  split; [exact R |].
  intros t m Hdue Hm.
  destruct (decide (m ∈ PianoToken.playingNotes st)) as [Hp | Hp];
    [exact Hp | exfalso].
  destruct (advanceTo_refs t st) as [Ro _].
  destruct (is_Some_dec (PianoToken.oscillatorsRef st !! m)) as [Hs | Hn].
  - destruct (R m Hs) as [Hin | [due Hd]]; [contradiction |].
    destruct (record_deleted_when_due t st due m Hd (Hdue _ Hd)) as [E _].
    rewrite E in Hm. destruct Hm; discriminate.
  - rewrite Ro in Hm.
    assert (E : PianoToken.oscillatorsRef st !! m = None
                /\ PianoToken.gainNodesRef st !! m = None).
    { split.
      - destruct (PianoToken.oscillatorsRef st !! m) eqn:E; [| reflexivity].
        destruct Hn. eauto.
      - destruct (reachable_records_agree Math_pow paramValue now hasCtx fresh es)
          as [A _].
        fold st in A.
        destruct (PianoToken.gainNodesRef st !! m) eqn:E; [| reflexivity].
        destruct Hn. apply A. eauto. }
    apply (cleanups_None
             (List.filter
                (PianoToken.isDue
                   (PianoToken.currentTime (PianoToken.advanceTo t st)))
                (PianoToken.timeouts st)) st m) in E as [E _].
    rewrite E in Hm. destruct Hm; discriminate.
Qed.

Lemma X18_released_records_are_cleaned_up_witness :
  let pow := fun _ _ : Q => 1%Q in
  let pv := fun (_ : list PianoToken.ParamCall) (_ : Q) => 0.3%Q in
  let st := PianoToken.run pow pv
              [ PianoToken.KeyDown PianoToken.sine 60;
                PianoToken.KeyDown PianoToken.sine 64;
                PianoToken.KeyUp true 60 ]
              (PianoToken.initial 0 true PianoToken.running) in
  is_Some (PianoToken.oscillatorsRef (PianoToken.advanceTo 2 st) !! 64)
  /\ 64 ∈ PianoToken.playingNotes st.
Proof.
  intros pow pv st.
  assert (H : is_Some (PianoToken.oscillatorsRef
                         (PianoToken.advanceTo 2 st) !! 64))
    by (exists 1%nat; vm_compute; reflexivity).
  split; [exact H |].
  apply (proj2 (X18_released_records_are_cleaned_up pow pv
                  [ PianoToken.KeyDown PianoToken.sine 60;
                    PianoToken.KeyDown PianoToken.sine 64;
                    PianoToken.KeyUp true 60 ]
                  0%Q true PianoToken.running) 2%Q 64).
  - intros tm Hin. vm_compute in Hin. destruct Hin as [<- | []].
    vm_compute. discriminate.
  - exact H.
Defined.

Section Orphans.
Import PianoToken.
Variable Math_pow : Q -> Q -> Q.
Variable paramValue : list ParamCall -> Q -> Q.

Lemma playNoteStart_new_nodes w m st c :
  audioContextRef (initAudio st) = Some c ->
  oscillatorsRef st !! m = None ->
  let st' := playNoteStart Math_pow w m st in
  currentTime st' = currentTime st
  /\ exists osc,
       oscillatorNodes st' = oscillatorNodes st ++ [osc]
       /\ type osc = w
       /\ start osc = [currentTime st] /\ stop osc = [].
Proof.
  intros E Hm st'. subst st'. unfold playNoteStart. rewrite E.
  rewrite (initAudio_frame st). cbn [oscillatorsRef set_audioContextRef].
  rewrite Hm. rewrite bool_decide_eq_false_2 by (intros [? ?]; discriminate).
  cbn. split; [reflexivity |]. eexists. repeat split.
Qed.

Lemma cleanups_nodes (fired : list (Q * Z)) st :
  oscillatorNodes (fold_left (fun s tm => cleanup (snd tm) s) fired st)
  = oscillatorNodes st
  /\ gainNodes (fold_left (fun s tm => cleanup (snd tm) s) fired st)
     = gainNodes st.
Proof.
  revert st. induction fired as [|tm fired IH]; intros st; cbn [fold_left].
  - now split.
  - destruct (IH (cleanup (snd tm) st)) as [-> ->]. now split.
Qed.

Lemma advanceTo_nodes t st :
  oscillatorNodes (advanceTo t st) = oscillatorNodes st
  /\ gainNodes (advanceTo t st) = gainNodes st.
Proof. unfold advanceTo. cbn. apply cleanups_nodes. Qed.
End Orphans.

(** X17. A clean-up left pending by an earlier key-up takes the record of
    whatever voice the note has when it runs: if the note is struck again
    before, the new voice loses its record while the key is still down,
    and its key-up then finds no record, so that it makes no call on the
    oscillator, which has been started and is never told to stop. *)
Theorem X17_stale_cleanup_orphans_a_new_voice :
  forall Math_pow paramValue st m due t w s c,
    In (due, m) (PianoToken.timeouts st) ->
    (due <= t)%Q ->
    PianoToken.oscillatorsRef st !! m = None ->
    PianoToken.audioContextRef (PianoToken.initAudio st) = Some c ->
    let down := PianoToken.playNoteStart Math_pow w m st in
    let later := PianoToken.advanceTo t down in
    let up := PianoToken.playNoteStop paramValue s m later in
    m ∈ PianoToken.playingNotes later
    /\ PianoToken.oscillatorsRef later !! m = None
    /\ PianoToken.oscillatorNodes up = PianoToken.oscillatorNodes down
    /\ PianoToken.gainNodes up = PianoToken.gainNodes down
    /\ PianoToken.timeouts up = PianoToken.timeouts later
    /\ exists osc,
         PianoToken.oscillatorNodes up
         = PianoToken.oscillatorNodes st ++ [osc]
         /\ PianoToken.start osc = [PianoToken.currentTime st]
         /\ PianoToken.stop osc = [].
Proof.
  intros Math_pow paramValue st m due t w s c Hin Hdue Hnone Hctx
    down later up.
  destruct (playNoteStart_new Math_pow w m st c Hctx Hnone)
    as (_ & _ & _ & _ & Hp & Hts & _).
  destruct (playNoteStart_new_nodes Math_pow w m st c Hctx Hnone)
    as (_ & osc & Hos & _ & Hstart & Hstop).
  fold down in Hp, Hts, Hos.
  assert (Hgone : PianoToken.oscillatorsRef later !! m = None).
  { apply (record_deleted_when_due t down due m); [| exact Hdue].
    now rewrite Hts. }
  assert (Hup : up = PianoToken.set_playingNotes
                       (PianoToken.playingNotes later ∖ {[m]}) later)
    by (apply playNoteStop_no_voice; exact Hgone).
  destruct (advanceTo_nodes t down) as [No Ng]. fold later in No, Ng.
  conjs.
  - unfold later. rewrite advanceTo_playingNotes, Hp.
    apply elem_of_union. right. now apply elem_of_singleton.
  - exact Hgone.
  - rewrite Hup. exact No.
  - rewrite Hup. exact Ng.
  - now rewrite Hup.
  - exists osc. rewrite Hup. cbn [PianoToken.set_playingNotes
      PianoToken.oscillatorNodes]. rewrite No, Hos. auto.
Qed.

Lemma X17_stale_cleanup_orphans_a_new_voice_witness :
  let pow := fun _ _ : Q => 1%Q in
  let pv := fun (_ : list PianoToken.ParamCall) (_ : Q) => 0.3%Q in
  let st := PianoToken.run pow pv
              [ PianoToken.KeyDown PianoToken.sine 60;
                PianoToken.KeyUp false 60;
                PianoToken.Elapse 0.1;
                PianoToken.KeyUp false 60;
                PianoToken.Elapse 0.3 ]
              (PianoToken.initial 0 true PianoToken.running) in
  let down := PianoToken.playNoteStart pow PianoToken.sine 60 st in
  let later := PianoToken.advanceTo 0.5 down in
  60 ∈ PianoToken.playingNotes later
  /\ PianoToken.oscillatorsRef later !! 60 = None.
Proof.
  intros pow pv st down later.
  destruct (X17_stale_cleanup_orphans_a_new_voice pow pv st 60
              (0.1 + PianoToken.cleanupDelay 0.2)%Q 0.5%Q
              PianoToken.sine false PianoToken.running)
    as (H1 & H2 & _).
  - vm_compute. left. reflexivity.
  - vm_compute. discriminate.
  - vm_compute. reflexivity.
  - vm_compute. reflexivity.
  - split; [exact H1 | exact H2].
Defined.

(** X19. A key is drawn pressed exactly when its MIDI note is in the
    pressed set, and a key-down puts the note there exactly when it starts
    a voice: the key stays unlit when there is no audio context, and when
    the note still has the record of a voice that is being released. *)
Theorem X19_key_lights_when_a_voice_starts :
  forall Math_pow w m st n shift act rt r,
    let st' := PianoToken.playNoteStart Math_pow w m st in
    In r (rects (PianoToken.keys n shift act rt
                   (PianoToken.playingNotes st'))) ->
    midiOf r = m ->
    (fill r = "#22d3ee" <-> m ∈ PianoToken.playingNotes st')
    /\ (m ∈ PianoToken.playingNotes st' <->
        m ∈ PianoToken.playingNotes st
        \/ (is_Some (PianoToken.audioContextRef (PianoToken.initAudio st))
            /\ PianoToken.oscillatorsRef st !! m = None)).
Proof.
  intros Math_pow w m st n shift act rt r st' Hin Hm. split.
  - apply In_rects_PianoToken_keys in Hin as (o & _ & Hin).
    apply PianoToken_rect_shape in Hin as (idx & _ & _ & _ & Hk).
    rewrite <- Hm.
    destruct Hk as [(_ & _ & _ & _ & _ & ->) | (_ & _ & _ & _ & _ & ->)];
      unfold PianoToken.whiteFill, PianoToken.blackFill;
      case_bool_decide as Hp;
      (split; [| tauto]); try tauto;
      destruct (rt =? idx); try discriminate;
      destruct (bool_decide (idx ∈ act)); discriminate.
  - subst st'. unfold PianoToken.playNoteStart.
    assert (F : PianoToken.initAudio st
                = PianoToken.set_audioContextRef
                    (PianoToken.audioContextRef (PianoToken.initAudio st)) st)
      by apply initAudio_frame.
    destruct (PianoToken.audioContextRef (PianoToken.initAudio st)) as [c|].
    + case_bool_decide as Hhas; rewrite F in Hhas |- *;
        cbn [PianoToken.oscillatorsRef PianoToken.playingNotes
             PianoToken.set_audioContextRef] in Hhas |- *.
      * split; [tauto |]. intros [Hp | [_ Hn]]; [exact Hp |].
        rewrite Hn in Hhas. destruct Hhas; discriminate.
      * rewrite elem_of_union, elem_of_singleton. split; [| tauto].
        intros _. right. split; [eauto |].
        destruct (PianoToken.oscillatorsRef st !! m) eqn:E; [| reflexivity].
        destruct Hhas. eauto.
    + rewrite F. cbn [PianoToken.playingNotes PianoToken.set_audioContextRef].
      split; [tauto |]. intros [Hp | [[? Hc] _]]; [exact Hp | discriminate].
Qed.

Lemma X19_key_lights_when_a_voice_starts_witness :
  let pow := fun _ _ : Q => 1%Q in
  let st := PianoToken.initial 0 true PianoToken.suspended in
  let st' := PianoToken.playNoteStart pow PianoToken.sine 52 st in
  let r := {| key := "white-52"; x := 80; y := 0; width := 40;
              height := 160; fill := "#22d3ee"; stroke := "#cbd5e1";
              rx := 4; ry := 4; onPress := Some 52 |} in
  In r (rects (PianoToken.keys 2 0 ∅ (-1) (PianoToken.playingNotes st')))
  /\ (fill r = "#22d3ee" <-> 52 ∈ PianoToken.playingNotes st').
Proof.
  intros pow st st' r.
  assert (H : In r (rects (PianoToken.keys 2 0 ∅ (-1)
                             (PianoToken.playingNotes st'))))
    by (vm_compute; tauto).
  split; [exact H |].
  exact (proj1 (X19_key_lights_when_a_voice_starts pow PianoToken.sine 52 st
                  2 0 ∅ (-1) r H eq_refl)).
Defined.

(* ===================================================================== *)
(** ** Requests and presets of [App]                                     *)
(* ===================================================================== *)

(** X20. Every way in which the resolver call can fail (the call rejects,
    the response has no text or an empty one, the text does not parse)
    ends the request with the one fixed message, loading off, and the
    result, the presets and the storage as they were before the request;
    a text that parses becomes the result, with no message. *)
Theorem X20_resolver_failures_surface_as_one_message :
  forall (JSON_parse : string -> option App.MusicTheoryResponse)
         (requestText : string) (response : Controller.ApiResponse)
         (v : Controller.View),
    let o := Controller.analyzeMusicRequest JSON_parse response in
    let v' := Controller.handleRequest_settle o
                (Controller.handleRequest_start requestText v) in
    Controller.isLoading v' = false
    /\ Controller.prompt v' = requestText
    /\ App.presets (Controller.app v') = App.presets (Controller.app v)
    /\ App.localStorage (Controller.app v')
       = App.localStorage (Controller.app v)
    /\ ((response = Controller.ApiRejects
         \/ response = Controller.ApiResolves None
         \/ response = Controller.ApiResolves (Some "")
         \/ (exists t, response = Controller.ApiResolves (Some t)
                       /\ JSON_parse t = None)) ->
        Controller.error v'
        = Some "Failed to analyze music theory request. Please try again."
        /\ App.current (Controller.app v') = App.current (Controller.app v))
    /\ (forall t result,
          response = Controller.ApiResolves (Some t) -> t <> "" ->
          JSON_parse t = Some result ->
          Controller.error v' = None
          /\ App.current (Controller.app v') = Some result).
Proof.
  intros JSON_parse requestText response v o v'. subst o v'.
  conjs.
  - reflexivity.
  - destruct (Controller.analyzeMusicRequest JSON_parse response); reflexivity.
  - destruct (Controller.analyzeMusicRequest JSON_parse response); reflexivity.
  - destruct (Controller.analyzeMusicRequest JSON_parse response); reflexivity.
  - intros [-> | [-> | [-> | (t & -> & Ht)]]]; try (split; reflexivity).
    unfold Controller.analyzeMusicRequest.
    destruct t; cbn [truthy]; [split; reflexivity |].
    rewrite Ht. split; reflexivity.
  - intros t result -> Hne Hp. unfold Controller.analyzeMusicRequest.
    destruct t; [congruence |]. cbn [truthy]. rewrite Hp. split; reflexivity.
Qed.

Lemma X20_resolver_failures_surface_as_one_message_witness :
  let parse := fun _ : string => @None App.MusicTheoryResponse in
  let v := {| Controller.prompt := ""; Controller.isLoading := false;
              Controller.error := None;
              Controller.app := {| App.current := None; App.presets := [];
                                   App.localStorage := ∅ |} |} in
  let v' := Controller.handleRequest_settle
              (Controller.analyzeMusicRequest parse
                 (Controller.ApiResolves (Some "{")))
              (Controller.handleRequest_start "C Major Scale" v) in
  Controller.error v'
  = Some "Failed to analyze music theory request. Please try again."
  /\ App.current (Controller.app v') = None.
Proof.
  intros parse v v'.
  destruct (X20_resolver_failures_surface_as_one_message parse
              "C Major Scale" (Controller.ApiResolves (Some "{")) v)
    as (_ & _ & _ & _ & H & _).
  apply H. right. right. right. exists "{". split; reflexivity.
Defined.

(** X21. One request at a time, while the library stays in reach. As long
    as a request is pending no other can start; a preset of the library
    that is clicked meanwhile is shown at once, under its name; and the
    answer, when it arrives, replaces the preset's data while the form
    keeps the preset's name. A failed answer leaves the preset on display,
    with the error message. *)
Theorem X21_answer_replaces_preset_loaded_meanwhile :
  forall (JSON_stringify : list App.Preset -> string)
         (requestText other : string) (p : App.Preset)
         (o : Controller.Outcome) (v : Controller.View),
    Controller.isLoading v = false ->
    In p (App.presets (Controller.app v)) ->
    let pending := Controller.run JSON_stringify
                     [ Controller.Request requestText; Controller.Load p ] v in
    let final := Controller.run JSON_stringify
                   [ Controller.Request requestText; Controller.Load p;
                     Controller.Settle o ] v in
    Controller.run JSON_stringify
      [ Controller.Request requestText; Controller.Request other ] v
    = Controller.run JSON_stringify [ Controller.Request requestText ] v
    /\ Controller.isLoading pending = true
    /\ App.current (Controller.app pending) = Some (App.data p)
    /\ Controller.prompt pending = App.name p
    /\ Controller.isLoading final = false
    /\ Controller.prompt final = App.name p
    /\ (forall result,
          o = Controller.Resolved result ->
          App.current (Controller.app final) = Some result
          /\ Controller.error final = None)
    /\ (o = Controller.Rejected ->
        App.current (Controller.app final) = Some (App.data p)
        /\ Controller.error final
           = Some "Failed to analyze music theory request. Please try again.").
Proof.
  intros JSON_stringify requestText other p o v Hidle _ pending final.
  subst pending final. destruct v as [pr ld er ap].
  cbn in Hidle. subst ld.
  destruct o as [r|]; cbn; conjs; try reflexivity; try discriminate.
  - intros result [= <-]. split; reflexivity.
  - intros _. split; reflexivity.
Qed.

Lemma X21_answer_replaces_preset_loaded_meanwhile_witness :
  let d := {| App.root := "C"; App.type := "Major Scale";
              App.category := App.scale; App.notes := ["C"];
              App.intervals := ["1"]; App.description := "";
              App.keySignature := None |} in
  let late := {| App.root := "D"; App.type := "Dorian Mode";
                 App.category := App.scale; App.notes := ["D"];
                 App.intervals := ["1"]; App.description := "";
                 App.keySignature := None |} in
  let p := {| App.id := "7"; App.name := "C Major Scale"; App.data := d;
              App.timestamp := 7 |} in
  let v := {| Controller.prompt := ""; Controller.isLoading := false;
              Controller.error := None;
              Controller.app := {| App.current := None; App.presets := [p];
                                   App.localStorage := ∅ |} |} in
  let final := Controller.run (fun _ => "")
                 [ Controller.Request "D Dorian Mode"; Controller.Load p;
                   Controller.Settle (Controller.Resolved late) ] v in
  App.current (Controller.app final) = Some late
  /\ Controller.prompt final = "C Major Scale".
Proof.
  intros d late p v final.
  assert (Hidle : Controller.isLoading v = false) by reflexivity.
  assert (Hp : In p (App.presets (Controller.app v))) by (now left).
  destruct (X21_answer_replaces_preset_loaded_meanwhile (fun _ => "")
              "D Dorian Mode" "" p (Controller.Resolved late) v Hidle Hp)
    as (_ & _ & _ & _ & _ & Hprompt & Hok & _).
  split; [exact (proj1 (Hok late eq_refl)) | exact Hprompt].
Defined.

Lemma filter_filter_comm {A : Type} (f g : A -> bool) (l : list A) :
  List.filter f (List.filter g l) = List.filter g (List.filter f l).
Proof.
  induction l as [|a l IH]; cbn [List.filter]; [reflexivity |].
  destruct (f a) eqn:Ef, (g a) eqn:Eg; cbn [List.filter];
    rewrite ?Ef, ?Eg, IH; reflexivity.
Qed.

Lemma filter_idempotent {A : Type} (f : A -> bool) (l : list A) :
  List.filter f (List.filter f l) = List.filter f l.
Proof.
  induction l as [|a l IH]; cbn [List.filter]; [reflexivity |].
  destruct (f a) eqn:Ef; cbn [List.filter]; rewrite ?Ef, IH; reflexivity.
Qed.

(** X22. Saving and then deleting the new preset by its id gives back the
    list that was there, provided no older preset has that id; any older
    preset with the same id (one saved within the same millisecond) goes
    with it. The current result is untouched. *)
Theorem X22_save_then_delete_restores_the_list :
  forall (JSON_stringify : list App.Preset -> string) (st : App.State)
         (d : App.MusicTheoryResponse) (now1 now2 : Z),
    App.current st = Some d ->
    let saved := App.handleSavePreset JSON_stringify now1 now2 st in
    let back := App.handleDeletePreset JSON_stringify (toString now1) saved in
    App.presets back
    = List.filter (fun p => negb (String.eqb (App.id p) (toString now1)))
        (App.presets st)
    /\ ((forall p, In p (App.presets st) -> App.id p <> toString now1) ->
        App.presets back = App.presets st)
    /\ App.current back = Some d
    /\ (forall now2',
          App.presets
            (App.handleDeletePreset JSON_stringify (toString now1)
               (App.handleSavePreset JSON_stringify now1 now2' saved))
          = App.presets back).
Proof.
  intros JSON_stringify st d now1 now2 Hd saved back.
  assert (Hs : forall n2 s, App.current s = Some d ->
             App.presets (App.handleDeletePreset JSON_stringify (toString now1)
                            (App.handleSavePreset JSON_stringify now1 n2 s))
             = List.filter
                 (fun p => negb (String.eqb (App.id p) (toString now1)))
                 (App.presets s)).
  { intros n2 s H. unfold App.handleSavePreset. rewrite H.
    unfold App.handleDeletePreset, App.store.
    cbn [App.presets List.filter App.id]. now rewrite String.eqb_refl. }
  assert (Hb : App.presets back
               = List.filter
                   (fun p => negb (String.eqb (App.id p) (toString now1)))
                   (App.presets st)) by (apply Hs, Hd).
  conjs.
  - exact Hb.
  - intros Hfresh. rewrite Hb. apply filter_keeps_all. intros p Hp.
    apply negb_true_iff, String.eqb_neq. now apply Hfresh.
  - subst back saved. unfold App.handleSavePreset. now rewrite Hd.
  - intros now2'. rewrite Hs.
    + rewrite Hb. subst saved. unfold App.handleSavePreset. rewrite Hd.
      unfold App.store. cbn [App.presets List.filter App.id].
      now rewrite String.eqb_refl.
    + subst saved. unfold App.handleSavePreset. now rewrite Hd.
Qed.

Lemma X22_save_then_delete_restores_the_list_witness :
  let d := {| App.root := "C"; App.type := "Major Scale";
              App.category := App.scale; App.notes := ["C"];
              App.intervals := ["1"]; App.description := "";
              App.keySignature := None |} in
  let old := {| App.id := "1000"; App.name := "old"; App.data := d;
                App.timestamp := 1000 |} in
  let st := {| App.current := Some d; App.presets := [old];
               App.localStorage := ∅ |} in
  App.presets
    (App.handleDeletePreset (fun _ => "") (toString 2000)
       (App.handleSavePreset (fun _ => "") 2000 2001 st))
  = [old].
Proof.
  intros d old st.
  destruct (X22_save_then_delete_restores_the_list (fun _ => "") st d
              2000 2001 eq_refl) as (_ & H & _).
  apply H. intros p [<- | []]. discriminate.
Defined.

(** X23. After a deletion no preset with the deleted id is left; deleting
    the same id again changes nothing, and two deletions give the same
    state in either order. *)
Theorem X23_deletion_is_idempotent_and_commutes :
  forall (JSON_stringify : list App.Preset -> string) (st : App.State)
         (i j : string),
    (forall p, In p (App.presets (App.handleDeletePreset JSON_stringify i st))
               -> App.id p <> i)
    /\ App.handleDeletePreset JSON_stringify i
         (App.handleDeletePreset JSON_stringify i st)
       = App.handleDeletePreset JSON_stringify i st
    /\ App.handleDeletePreset JSON_stringify i
         (App.handleDeletePreset JSON_stringify j st)
       = App.handleDeletePreset JSON_stringify j
           (App.handleDeletePreset JSON_stringify i st).
Proof.
  intros JSON_stringify st i j. conjs.
  - intros p Hp. cbn in Hp. apply filter_In in Hp as [_ Hp].
    apply negb_true_iff in Hp. now apply String.eqb_neq.
  - unfold App.handleDeletePreset, App.store.
    cbn [App.presets App.current App.localStorage].
    rewrite filter_idempotent. f_equal. apply insert_insert_eq.
  - unfold App.handleDeletePreset, App.store.
    cbn [App.presets App.current App.localStorage].
    rewrite (filter_filter_comm
               (fun p => negb (String.eqb (App.id p) i))
               (fun p => negb (String.eqb (App.id p) j))).
    f_equal. now rewrite !insert_insert_eq.
Qed.

Lemma X23_deletion_is_idempotent_and_commutes_witness :
  let d := {| App.root := "C"; App.type := "Major Scale";
              App.category := App.scale; App.notes := ["C"];
              App.intervals := ["1"]; App.description := "";
              App.keySignature := None |} in
  let p := {| App.id := "1000"; App.name := "kept"; App.data := d;
              App.timestamp := 1000 |} in
  let st := {| App.current := None;
               App.presets := [ {| App.id := "7"; App.name := "gone";
                                   App.data := d; App.timestamp := 7 |}; p ];
               App.localStorage := ∅ |} in
  App.id p <> "7".
Proof.
  intros d p st.
  apply (proj1 (X23_deletion_is_idempotent_and_commutes (fun _ => "") st
                  "7" "1000") p).
  cbn. now left.
Defined.

Section Mirror.
Import Controller.
Variable JSON_stringify : list App.Preset -> string.

Lemma mirrored_step v e :
  mirrored JSON_stringify (app v) ->
  mirrored JSON_stringify (app (step JSON_stringify v e)).
Proof.
  intros H. destruct e as [t | o | n1 n2 | i | p |]; cbn [step].
  - destruct (isLoading v); exact H.
  - destruct (isLoading v); [destruct o |]; exact H.
  - cbn [onApp app]. unfold App.handleSavePreset.
    destruct (App.current (app v)); [apply lookup_insert_eq | exact H].
  - apply lookup_insert_eq.
  - exact H.
  - exact H.
Qed.

Lemma presets_step v e :
  (forall n1 n2, e <> Save n1 n2) -> (forall i, e <> Delete i) ->
  App.presets (app (step JSON_stringify v e)) = App.presets (app v)
  /\ App.localStorage (app (step JSON_stringify v e))
     = App.localStorage (app v).
Proof.
  intros Hs Hd. destruct e as [t | o | n1 n2 | i | p |]; cbn [step];
    try (split; reflexivity).
  - destruct (isLoading v); split; reflexivity.
  - destruct (isLoading v); [destruct o |]; split; reflexivity.
  - now destruct (Hs n1 n2).
  - now destruct (Hd i).
Qed.
End Mirror.

(** X24. Once the storage slot holds the serialization of the preset
    list, it does so after whatever follows (requests and their answers,
    saving, deleting, loading a preset, going home); and only saving and
    deleting touch the list or the storage at all. *)
Theorem X24_storage_mirrors_the_preset_list :
  forall (JSON_stringify : list App.Preset -> string)
         (es : list Controller.Event) (v : Controller.View),
    (Controller.mirrored JSON_stringify (Controller.app v) ->
     Controller.mirrored JSON_stringify
       (Controller.app (Controller.run JSON_stringify es v)))
    /\ ((forall e, In e es ->
                   (forall n1 n2, e <> Controller.Save n1 n2)
                   /\ (forall i, e <> Controller.Delete i)) ->
        App.presets (Controller.app (Controller.run JSON_stringify es v))
        = App.presets (Controller.app v)
        /\ App.localStorage
             (Controller.app (Controller.run JSON_stringify es v))
           = App.localStorage (Controller.app v)).
Proof.
  intros JSON_stringify es. unfold Controller.run.
  induction es as [|e es IH]; intros v; cbn [fold_left].
  - split; [tauto | intros _; split; reflexivity].
  - destruct (IH (Controller.step JSON_stringify v e)) as [IH1 IH2]. split.
    + intros H. apply IH1, mirrored_step, H.
    + intros H. destruct IH2 as [-> ->].
      * intros e' He'. apply H. now right.
      * destruct (H e (or_introl eq_refl)) as [Hs Hd].
        now apply presets_step.
Qed.

Lemma X24_storage_mirrors_the_preset_list_witness :
  let d := {| App.root := "C"; App.type := "Major Scale";
              App.category := App.scale; App.notes := ["C"];
              App.intervals := ["1"]; App.description := "";
              App.keySignature := None |} in
  let count := fun l : list App.Preset => toString (Z.of_nat (length l)) in
  let v := {| Controller.prompt := ""; Controller.isLoading := false;
              Controller.error := None;
              Controller.app :=
                {| App.current := None; App.presets := [];
                   App.localStorage := {[ "theorygen_presets" := "0" ]} |} |} in
  Controller.mirrored count
    (Controller.app
       (Controller.run count
          [ Controller.Request "C Major Scale";
            Controller.Settle (Controller.Resolved d);
            Controller.Save 5 5; Controller.Home ] v)).
Proof.
  intros d count v.
  apply (proj1 (X24_storage_mirrors_the_preset_list count
                  [ Controller.Request "C Major Scale";
                    Controller.Settle (Controller.Resolved d);
                    Controller.Save 5 5; Controller.Home ] v)).
  vm_compute. reflexivity.
Defined.

(** X25. Mounting reads the presets back: over a storage whose slot holds
    a text that parses, the preset list is what the text parses to, so that
    a list that survives serialization and parsing is restored as it was
    saved, newest first; over a storage whose slot is absent, empty or does
    not parse, the list is empty and the storage is left as it is. *)
Theorem X25_mount_restores_saved_presets :
  forall (JSON_stringify : list App.Preset -> string)
         (JSON_parse_presets : string -> option (list App.Preset))
         (st : App.State) (storage : gmap string string),
    (Controller.mirrored JSON_stringify st ->
     JSON_stringify (App.presets st) <> "" ->
     JSON_parse_presets (JSON_stringify (App.presets st))
     = Some (App.presets st) ->
     App.presets (Controller.mount JSON_parse_presets (App.localStorage st))
     = App.presets st)
    /\ ((storage !! "theorygen_presets" = None
         \/ storage !! "theorygen_presets" = Some ""
         \/ (exists t, storage !! "theorygen_presets" = Some t
                       /\ JSON_parse_presets t = None)) ->
        Controller.mount JSON_parse_presets storage
        = {| App.current := None; App.presets := [];
             App.localStorage := storage |}).
Proof.
  intros JSON_stringify JSON_parse_presets st storage.
  unfold Controller.mount, Controller.loadPresets, Controller.mirrored.
  cbn [App.localStorage]. split.
  - intros -> Hne Hp.
    destruct (JSON_stringify (App.presets st)) eqn:E; [congruence |].
    cbn [truthy]. now rewrite Hp.
  - intros [-> | [-> | (t & -> & Ht)]]; try reflexivity.
    destruct t; cbn [truthy]; [reflexivity |]. now rewrite Ht.
Qed.

Lemma X25_mount_restores_saved_presets_witness :
  let d := {| App.root := "C"; App.type := "Major Scale";
              App.category := App.scale; App.notes := ["C"];
              App.intervals := ["1"]; App.description := "";
              App.keySignature := None |} in
  let p := {| App.id := "1000"; App.name := "C Major Scale"; App.data := d;
              App.timestamp := 1000 |} in
  let stringify := fun l : list App.Preset =>
                     "n" +:+ toString (Z.of_nat (length l)) in
  let parse := fun t : string =>
                 if String.eqb t "n1" then Some [p] else None in
  let st := App.handleSavePreset stringify 1000 1000
              {| App.current := Some d; App.presets := [];
                 App.localStorage := ∅ |} in
  App.presets (Controller.mount parse (App.localStorage st)) = [p]
  /\ Controller.mount parse {[ "theorygen_presets" := "{" ]}
     = {| App.current := None; App.presets := [];
          App.localStorage := {[ "theorygen_presets" := "{" ]} |}.
Proof.
  intros d p stringify parse st.
  destruct (X25_mount_restores_saved_presets stringify parse st
              {[ "theorygen_presets" := "{" ]}) as [H1 H2].
  split.
  - apply H1.
    + vm_compute. reflexivity.
    + discriminate.
    + reflexivity.
  - apply H2. right. right. exists "{". split; [vm_compute |]; reflexivity.
Defined.

(* ===================================================================== *)
(** ** The wallet gate                                                   *)
(* ===================================================================== *)

Lemma gate_inv_initial : gate_inv [] Gate.initial.
Proof.
  unfold gate_inv. cbn. conjs.
  - intros [H | H]; [lia | discriminate].
  - intros [H | H]; [lia | discriminate].
  - split; [discriminate | intros [x H]; discriminate].
  - discriminate.
  - discriminate.
Qed.

Lemma gate_inv_step es s e :
  gate_inv es s -> gate_inv (es ++ [e]) (Gate.step s e).
Proof.
  destruct s as [[ha wc ua] cn ck].
  unfold gate_inv. cbn [Gate.wallet Gate.connecting Gate.checking
    Gate.hasAccess Gate.walletConnected Gate.userAddress].
  intros (Hclick & Hconn & Haddr & Hret & Hbal).
  assert (Hold : forall x, In x es -> In x (es ++ [e]))
    by (intros x Hx; apply in_or_app; now left).
  assert (Hnew : In e (es ++ [e]))
    by (apply in_or_app; right; now left).
  destruct e as [eth | [addr|] | pos]; cbn [Gate.step Gate.wallet].
  - (* a click *)
    destruct wc; cbn [Gate.wallet Gate.connecting Gate.checking
      Gate.hasAccess Gate.walletConnected Gate.userAddress].
    + conjs; auto.
    + destruct eth; cbn [Gate.connectWallet_start negb Gate.wallet
        Gate.connecting Gate.checking Gate.hasAccess Gate.walletConnected
        Gate.userAddress]; conjs; auto.
  - (* a connection got its address *)
    destruct cn as [|cn]; cbn [Gate.connectWallet_resume Gate.wallet
      Gate.connecting Gate.checking Gate.hasAccess Gate.walletConnected
      Gate.userAddress Nat.pred].
    + conjs; auto.
    + conjs.
      * intros _. apply Hold, Hclick. left. lia.
      * reflexivity.
      * split; [eauto | reflexivity].
      * intros a [= <-]. exact Hnew.
      * auto.
  - (* a connection failed *)
    destruct cn as [|cn]; cbn [Gate.connectWallet_resume Gate.wallet
      Gate.connecting Gate.checking Gate.hasAccess Gate.walletConnected
      Gate.userAddress Nat.pred].
    + conjs; auto.
    + conjs; auto.
      intros _. apply Hold, Hclick. left. lia.
  - (* a balance check settled *)
    destruct ck as [|ck]; cbn [Gate.checkTokenBalance_resume Gate.wallet
      Gate.connecting Gate.checking Gate.hasAccess Gate.walletConnected
      Gate.userAddress Nat.pred].
    + conjs; auto.
    + assert (Hwc : wc = true) by (apply Hconn; left; lia).
      destruct pos as [[|]|]; cbn [Gate.wallet Gate.connecting
        Gate.checking Gate.hasAccess Gate.walletConnected
        Gate.userAddress]; conjs; auto.
Qed.

Lemma gate_inv_run es : gate_inv es (Gate.run es Gate.initial).
Proof.
  induction es as [|e es IH] using rev_ind.
  - apply gate_inv_initial.
  - unfold Gate.run. rewrite fold_left_app. cbn [fold_left].
    apply gate_inv_step, IH.
Qed.

Lemma gate_step_monotone s e :
  (Gate.hasAccess (Gate.wallet s) = true ->
   Gate.hasAccess (Gate.wallet (Gate.step s e)) = true)
  /\ (Gate.walletConnected (Gate.wallet s) = true ->
      Gate.walletConnected (Gate.wallet (Gate.step s e)) = true).
Proof.
  destruct s as [[ha wc ua] cn ck].
  destruct e as [eth | [addr|] | [[|]|]]; cbn;
    try (destruct wc; try destruct eth);
    try (destruct cn); try (destruct ck); cbn; split; auto.
Qed.

Lemma gate_run_monotone es s :
  (Gate.hasAccess (Gate.wallet s) = true ->
   Gate.hasAccess (Gate.wallet (Gate.run es s)) = true)
  /\ (Gate.walletConnected (Gate.wallet s) = true ->
      Gate.walletConnected (Gate.wallet (Gate.run es s)) = true).
Proof.
  revert s. induction es as [|e es IH]; intros s; [split; auto |].
  unfold Gate.run. cbn [fold_left].
  destruct (IH (Gate.step s e)) as [IH1 IH2].
  destruct (gate_step_monotone s e) as [M1 M2].
  split; intros H; [apply IH1, M1, H | apply IH2, M2, H].
Qed.

(** X26. Whatever clicks are made and however the calls to the wallet and
    to the chain settle, in whatever order: the extended range is unlocked
    only for a connected wallet and only after a balance check came back
    positive; a wallet is connected only after a click that found
    [window.ethereum], and exactly when an address is shown, which is one
    that a connection returned; access and connection, once there, are
    never taken back; and a wallet that is not connected has the keyboard
    of two octaves. *)
Theorem X26_access_needs_connection_and_positive_balance :
  forall es more : list Gate.Event,
    let w := Gate.wallet (Gate.run es Gate.initial) in
    let w' := Gate.wallet (Gate.run (es ++ more) Gate.initial) in
    (Gate.hasAccess w = true ->
     Gate.walletConnected w = true
     /\ In (Gate.Balance (Some true)) es)
    /\ (Gate.walletConnected w = true ->
        In (Gate.Click true) es
        /\ exists addr, Gate.userAddress w = Some addr
                        /\ In (Gate.Accounts (Some addr)) es)
    /\ (Gate.walletConnected w = true <-> is_Some (Gate.userAddress w))
    /\ (Gate.hasAccess w = true -> Gate.hasAccess w' = true)
    /\ (Gate.walletConnected w = true -> Gate.walletConnected w' = true)
    /\ (Gate.walletConnected w = false ->
        PianoToken.octaves_of (Gate.hasAccess w) = 2).
Proof.
  intros es more w w'.
  destruct (gate_inv_run es) as (Hclick & Hconn & Haddr & Hret & Hbal).
  fold w in Hclick, Hconn, Haddr, Hret, Hbal.
  assert (Hw' : w' = Gate.wallet
                       (Gate.run more (Gate.run es Gate.initial))).
  { subst w'. unfold Gate.run. now rewrite fold_left_app. }
  destruct (gate_run_monotone more (Gate.run es Gate.initial)) as [M1 M2].
  fold w in M1, M2. rewrite <- Hw' in M1, M2.
  conjs.
  - intros H. split; [apply Hconn; now right | apply Hbal, H].
  - intros H. split; [apply Hclick; now right |].
    destruct (proj1 Haddr H) as [addr Ha]. exists addr.
    split; [exact Ha | apply Hret, Ha].
  - exact Haddr.
  - exact M1.
  - exact M2.
  - intros H. destruct (Gate.hasAccess w) eqn:E; [| reflexivity].
    rewrite (Hconn (or_intror eq_refl)) in H. discriminate H.
Qed.

Lemma X26_access_needs_connection_and_positive_balance_witness :
  let addr := "0x52908400098527886E0F7030069857D2E4169EE7" in
  let es := [ Gate.Click false; Gate.Click true; Gate.Click true;
              Gate.Accounts (Some addr); Gate.Balance None;
              Gate.Accounts None ] in
  let w := Gate.wallet (Gate.run es Gate.initial) in
  Gate.walletConnected w = true
  /\ Gate.hasAccess w = false
  /\ In (Gate.Click true) es
  /\ exists a, Gate.userAddress w = Some a /\ In (Gate.Accounts (Some a)) es.
Proof.
  intros addr es w.
  assert (H : Gate.walletConnected w = true) by reflexivity.
  split; [exact H |]. split; [reflexivity |].
  exact (proj1 (proj2
           (X26_access_needs_connection_and_positive_balance es [])) H).
Defined.
